(** * glhmm/preproc.py: preprocessing pipeline and design-matrix builders

    A shallow embedding of [glhmm.preproc] (apply_pca, apply_ica,
    dampen_peaks, preprocess_data, build_data_autoregressive,
    build_data_partial_connectivity, build_data_tde) together with the
    fragment of NumPy indexing semantics these functions rely on.

    - A 2-D array is the list of its rows ([matrix]); an array without rows
      carries no column count.
    - Python exceptions are values of [pyerr]; a computation that may raise
      lives in [result].
    - Array entries range over an abstract [Scalar] type; the rational
      numbers give an exact instance used in the worked examples.
    - sklearn / scipy routines (PCA, FastICA, Butterworth filtering,
      detrending, Hilbert transform, polyphase resampling, matrix inverse)
      are parameters of the development. *)

From Stdlib Require Import ZArith QArith Lia.
From stdpp Require Import base tactics option list list_numbers strings gmap.

Local Open Scope Z_scope.

(** ** Exceptions and the error monad *)

Inductive pyerr : Type :=
  | ValueError
  | IndexError
  | TypeError
  | ZeroDivisionError
  | LinAlgError.

Inductive result (A : Type) : Type :=
  | Ok (a : A)
  | Raise (e : pyerr).
Arguments Ok {A} a.
Arguments Raise {A} e.

#[global] Instance result_ret : MRet result := λ A a, Ok a.
#[global] Instance result_bind : MBind result := λ A B f m,
  match m with
  | Ok a => f a
  | Raise e => Raise e
  end.

(** [for x in l: s = f(s, x)] with exceptions. *)
Fixpoint foldlM {S B} (f : S → B → result S) (l : list B) (s : S) : result S :=
  match l with
  | [] => Ok s
  | x :: l' => s' ← f s x; foldlM f l' s'
  end.

(** [[f(x) for x in l]] with exceptions. *)
Fixpoint mapR {B C} (f : B → result C) (l : list B) : result (list C) :=
  match l with
  | [] => Ok []
  | x :: l' => y ← f x; ys ← mapR f l'; Ok (y :: ys)
  end.

(** [enumerate(l)] *)
Definition enumerate {B} (l : list B) : list (nat * B) :=
  imap (λ j x, (j, x)) l.

(** ** Scalars *)

Class Scalar (A : Type) := {
  s_zero : A;
  s_add : A → A → A;
  s_sub : A → A → A;
  s_mul : A → A → A;
  s_div : A → A → A;
  s_ltb : A → A → bool;
  s_eqb : A → A → bool;
  s_of_Z : Z → A;
  s_of_Q : Q → A;
  s_ceil : A → Z;
  s_sqrt : A → A;
  s_log : A → A;
}.

Section ScalarOps.
Context {A : Type} `{Scalar A}.

Definition s_opp (x : A) : A := s_sub s_zero x.
Definition s_leb (x y : A) : bool := negb (s_ltb y x).
(** [np.abs] *)
Definition s_abs (x : A) : A := if s_ltb x s_zero then s_opp x else x.
(** [np.sign] *)
Definition s_sign (x : A) : A :=
  if s_ltb x s_zero then s_of_Z (-1)
  else if s_ltb s_zero x then s_of_Z 1 else s_zero.
Definition s_max (x y : A) : A := if s_ltb x y then y else x.
Definition s_sum (l : list A) : A := foldl s_add s_zero l.
End ScalarOps.

(** ** Arrays *)

Abbreviation matrix A := (list (list A)) (only parsing).

Section Arrays.
Context {A : Type}.

(** [M.shape[0]], [M.shape[1]] *)
Definition nrows (M : matrix A) : nat := length M.
Definition ncols (M : matrix A) : nat :=
  match M with [] => 0%nat | r :: _ => length r end.

(** All rows have [p] entries. *)
Definition is_matrix (n p : nat) (M : matrix A) : Prop :=
  length M = n ∧ Forall (λ r, length r = p) M.

(** [M[r, c]] for in-range naturals. *)
Definition cell (M : matrix A) (r c : nat) : option A :=
  row ← M !! r; row !! c.

(** [np.zeros((n, p))], given the zero entry *)
Definition np_full (z : A) (n p : nat) : matrix A :=
  replicate n (replicate p z).

(** [M[:, c]] *)
Definition column (M : matrix A) (c : nat) : result (list A) :=
  mapR (λ row, match row !! c with
               | Some x => Ok x
               | None => Raise IndexError
               end) M.

(** The entries of column [c], top to bottom. *)
Definition col_of (M : matrix A) (c : nat) : list A :=
  omap (λ row, row !! c) M.

(** [M.T] for a matrix with [p] columns *)
Definition transpose (p : nat) (M : matrix A) : matrix A :=
  col_of M <$> seq 0 p.

(** [np.concatenate((M1, M2), 1)] *)
Definition hconcat (M1 M2 : matrix A) : result (matrix A) :=
  if decide (length M1 = length M2)
  then Ok (zip_with app M1 M2)
  else Raise ValueError.
End Arrays.

(** A 1-D routine applied along axis 0, that is to every column on its
    own ([axis=0] of the scipy.signal routines). *)
Definition map_columns {B C} (f : list B → list C) (M : matrix B) : matrix C :=
  transpose (nrows M) (f <$> transpose (ncols M) M).

#[global] Instance is_matrix_dec {A} (n p : nat) (M : matrix A) :
  Decision (is_matrix n p M).
Proof. unfold is_matrix. apply _. Defined.

(** ** Index arrays *)

(** [np.arange(a, b)] *)
Definition arange (a b : Z) : list Z := seqZ a (b - a).

(** [np.arange(a, b, step)] for a positive step *)
Definition arange_step (a b step : Z) : list Z :=
  (λ i, a + i * step) <$> seqZ 0 ((b - a + step - 1) `div` step).

(** A Python index [i] into a sequence of length [n]: negative indices count
    from the end, anything outside [-n, n) raises [IndexError]. *)
Definition norm_index (n : nat) (i : Z) : result nat :=
  if decide (0 ≤ i < Z.of_nat n) then Ok (Z.to_nat i)
  else if decide (- Z.of_nat n ≤ i < 0) then Ok (Z.to_nat (i + Z.of_nat n))
  else Raise IndexError.

(** [l[i]] *)
Definition py_get {B} (l : list B) (i : Z) : result B :=
  k ← norm_index (length l) i;
  match l !! k with
  | Some x => Ok x
  | None => Raise IndexError
  end.

(** [l[idx]] for an integer index array [idx] *)
Definition take_idx {B} (l : list B) (idx : list Z) : result (list B) :=
  mapR (py_get l) idx.

(** A slice bound clipped as Python does for [l[start:stop]]. *)
Definition clip_bound (n : nat) (b : Z) : nat :=
  if decide (b < 0) then Z.to_nat (Z.max 0 (b + Z.of_nat n))
  else Z.to_nat (Z.min b (Z.of_nat n)).

(** [l[start:stop]] *)
Definition py_slice {B} (l : list B) (start stop : Z) : list B :=
  let a := clip_bound (length l) start in
  let b := clip_bound (length l) stop in
  take (b - a) (drop a l).

(** [np.roll(l, k, axis=0)]: entry [r] of the result is entry
    [(r - k) mod n] of [l]. *)
Definition np_roll {B} (l : list B) (k : Z) : list B :=
  rotate (Z.to_nat ((- k) `mod` Z.of_nat (length l))) l.

(** Broadcasting of one axis of an assigned value to length [n]: the axis
    has length [n] already, or length 1 and is repeated. *)
Definition broadcast {B} (n : nat) (l : list B) : result (list B) :=
  if decide (length l = n) then Ok l
  else match l with
       | [x] => Ok (replicate n x)
       | _ => Raise ValueError
       end.

Section Indexing.
Context {A : Type}.

(** One row of a block assignment: [row[cols] = vals]. *)
Definition set_entries (row : list A) (cols : list nat) (vals : list A) : list A :=
  foldl (λ acc cv, <[cv.1 := cv.2]> acc) row (zip cols vals).

(** [X[rs[k], cs] = V[k]] for every position [k], in order. *)
Definition write_rows (X : matrix A) (rs cs : list nat) (V : matrix A) : matrix A :=
  foldl (λ acc rv,
           match acc !! rv.1 with
           | Some row => <[rv.1 := set_entries row cs rv.2]> acc
           | None => acc
           end) X (zip rs V).

(** [X[rows, cols[:, np.newaxis]] = V.T], i.e. [X[rows[r], cols[c]] = V[r, c]].
    The index arrays broadcast to shape [(len cols, len rows)] and the value
    must broadcast to it; the cells are written row by row, which leaves the
    same final array as NumPy's order (the last write to a cell is the one
    with the largest pair of positions in both orders). *)
Definition set_block (X : matrix A) (rows cols : list Z) (V : matrix A)
  : result (matrix A) :=
  rs ← mapR (norm_index (nrows X)) rows;
  cs ← mapR (norm_index (ncols X)) cols;
  V1 ← broadcast (length rs) V;
  V2 ← mapR (broadcast (length cs)) V1;
  Ok (write_rows X rs cs V2).

(** [X[rows, :] = V] *)
Definition set_rows (X : matrix A) (rows : list Z) (V : matrix A)
  : result (matrix A) :=
  set_block X rows (arange 0 (Z.of_nat (ncols X))) V.
End Indexing.

(** ** Column statistics and linear algebra over the scalars *)

Section Numeric.
Context {A : Type} `{Scalar A}.

(** [np.zeros(shape)]: a negative dimension raises [ValueError]. *)
Definition np_zeros (n p : Z) : result (matrix A) :=
  if decide (0 ≤ n ∧ 0 ≤ p)
  then Ok (np_full s_zero (Z.to_nat n) (Z.to_nat p))
  else Raise ValueError.

Definition mean (l : list A) : A :=
  s_div (s_sum l) (s_of_Z (Z.of_nat (length l))).

(** [np.std(l)]: population standard deviation. *)
Definition std (l : list A) : A :=
  let m := mean l in
  s_sqrt (mean ((λ x, s_mul (s_abs (s_sub x m)) (s_abs (s_sub x m))) <$> l)).

Definition columns (M : matrix A) : matrix A := transpose (ncols M) M.

(** [np.mean(M, axis=0)], [np.std(M, axis=0)] *)
Definition col_means (M : matrix A) : list A := mean <$> columns M.
Definition col_stds (M : matrix A) : list A := std <$> columns M.

(** [M - v] and [M / v] with the row vector [v] broadcast over the rows. *)
Definition sub_rowvec (M : matrix A) (v : list A) : matrix A :=
  (λ row, zip_with s_sub row v) <$> M.
Definition div_rowvec (M : matrix A) (v : list A) : matrix A :=
  (λ row, zip_with s_div row v) <$> M.

(** [M -= np.mean(M, axis=0)] *)
Definition center (M : matrix A) : matrix A := sub_rowvec M (col_means M).
(** [M -= np.mean(M, axis=0); M /= np.std(M, axis=0)] *)
Definition standardise (M : matrix A) : matrix A :=
  let M1 := center M in div_rowvec M1 (col_stds M1).

Definition dot (u v : list A) : A := s_sum (zip_with s_mul u v).

(** [M @ v] for a vector, [M @ N] for matrices; mismatched inner
    dimensions raise [ValueError]. *)
Definition matvec (M : matrix A) (v : list A) : result (list A) :=
  mapR (λ row, if decide (length row = length v) then Ok (dot row v)
               else Raise ValueError) M.
Definition matmul (M N : matrix A) : result (matrix A) :=
  mapR (λ row, if decide (length row = length N)
               then Ok ((λ col, dot row col) <$> columns N)
               else Raise ValueError) M.

(** [np.eye(n)] scaled by [c] *)
Definition scaled_eye (c : A) (n : nat) : matrix A :=
  (λ i, (λ j, if decide (i = j) then c else s_zero) <$> seq 0 n) <$> seq 0 n.

Definition madd (M N : matrix A) : matrix A :=
  zip_with (zip_with s_add) M N.

(** [np.where(mask)[0]] *)
Definition np_where (mask : list bool) : list nat :=
  omap (λ jb : nat * bool, if jb.2 then Some jb.1 else None) (enumerate mask).

(** [M[:, idx]] for an array of column positions *)
Definition select_cols (M : matrix A) (idx : list nat) : result (matrix A) :=
  mapR (λ row, mapR (λ c, match row !! c with
                          | Some x => Ok x
                          | None => Raise IndexError
                          end) idx) M.

(** [M[:, j] = col] *)
Definition set_column (M : matrix A) (j : nat) (col : list A) : matrix A :=
  zip_with (λ row x, <[j := x]> row) M col.
End Numeric.

(** ** Regressing out disallowed predictors (shared by two builders) *)

Section Regress.
Context {A : Type} `{Scalar A}.
(** [np.linalg.inv] *)
Variable linalg_inv : matrix A → result (matrix A).

(** One pass of
<<
    jj = np.where(connectivity[:,j]==0)[0]
    if len(jj)==0: continue
    b = np.linalg.inv(X[:,jj].T @ X[:,jj] + 0.001 * np.eye(len(jj))) @ (X[:,jj].T @ Y[:,j])
    Ynew[:,j] -= X[:,jj] @ b
>>
    where the regression reads column [j] of [Y] and the update is applied
    to [Ynew]. *)
Definition regress_out_column (conn X Y : matrix A) (Ynew : matrix A) (j : nat)
  : result (matrix A) :=
  cj ← column conn j;
  let jj := np_where ((λ x, s_eqb x (s_of_Z 0)) <$> cj) in
  if decide (length jj = 0%nat) then Ok Ynew
  else
    Xjj ← select_cols X jj;
    let Xt := transpose (length jj) Xjj in
    G ← matmul Xt Xjj;
    Ginv ← linalg_inv (madd G (scaled_eye (s_of_Q (1 # 1000)) (length jj)));
    yj ← column Y j;
    Xty ← matvec Xt yj;
    b ← matvec Ginv Xty;
    fit ← matvec Xjj b;
    ynew ← column Ynew j;
    Ok (set_column Ynew j (zip_with s_sub ynew fit)).

(** [np.sum(v == 1) > 0] *)
Definition any_one (v : list A) : bool :=
  bool_decide (0 < length (filter (λ x, s_eqb x (s_of_Z 1) = true) v))%nat.

(** [conn[rows, cols[:, np.newaxis]].T]: entry [(a, b)] of the result is
    [conn[rows[a], cols[b]]]. *)
Definition restrict (conn : matrix A) (rows cols : list nat) : result (matrix A) :=
  mapR (λ r, match conn !! r with
             | Some row => mapR (λ c, match row !! c with
                                      | Some x => Ok x
                                      | None => Raise IndexError
                                      end) cols
             | None => Raise IndexError
             end) rows.

(** [connectivity[j, :]] *)
Definition get_row (M : matrix A) (j : nat) : result (list A) :=
  match M !! j with
  | Some row => Ok row
  | None => Raise IndexError
  end.
End Regress.

(** ** build_data_autoregressive *)

Inductive pywarning : Type :=
  | UserWarning (msg : string).

Section Autoregressive.
Context {A : Type} `{Scalar A}.
Variable linalg_inv : matrix A → result (matrix A).

(** Body of [for i in range(autoregressive_order)]: lag block [i] of the
    rows [ind_2] of [X]. *)
Definition ar_lag (data : matrix A) (s e k : Z) (p : nat) (ind_2 : list Z)
    (X : matrix A) (i : Z) : result (matrix A) :=
  let ind_3 := arange (s + k - (i + 1)) (e - (i + 1)) in
  let ind_ch := (λ c, c + i * Z.of_nat p) <$> arange 0 (Z.of_nat p) in
  V ← take_idx data ind_3;
  set_block X ind_2 ind_ch V.

(** Body of [for j in range(N)], for segment [j] with bounds
    [(s, e) = (indices[j,0], indices[j,1])]. *)
Definition ar_segment (data : matrix A) (k : Z) (p : nat)
    (st : matrix A * matrix A * list (Z * Z)) (js : nat * (Z * Z))
  : result (matrix A * matrix A * list (Z * Z)) :=
  let '(X, Y, indices_new) := st in
  let '(j, (s, e)) := js in
  let ind_1 := arange (s + k) e in
  let ind_2 := (λ t, t - Z.of_nat j * k) <$> arange s (e - k) in
  V ← take_idx data ind_1;
  Y ← set_rows Y ind_2 V;
  X ← foldlM (ar_lag data s e k p ind_2) (arange 0 k) X;
  a ← py_get ind_2 0;
  b ← py_get ind_2 (-1);
  Ok (X, Y, <[j := (a, b + 1)]> indices_new).

(** The [if connectivity is not None] block: replicate the connectivity
    over the lag blocks, regress out, prune. *)
Definition ar_connectivity (X Y conn : matrix A) (k : Z) (p : nat)
  : result (matrix A * matrix A * matrix A) :=
  cn0 ← np_zeros (k * Z.of_nat p) (Z.of_nat p);
  cn ← foldlM (λ cn i,
          set_rows cn ((λ c, c + i * Z.of_nat p) <$> arange 0 (Z.of_nat p)) conn)
        (arange 0 k) cn0;
  Y ← foldlM (λ Y j, regress_out_column linalg_inv cn X Y Y j) (seq 0 p) Y;
  act ← mapR (λ j, row ← get_row conn j; col ← column conn j;
                   Ok (any_one row, any_one col)) (seq 0 p);
  let active_X := np_where (mjoin (replicate (Z.to_nat k) (act.*1))) in
  let active_Y := np_where (act.*2) in
  Y ← select_cols Y active_Y;
  X ← select_cols X active_X;
  cn ← restrict cn active_X active_Y;
  Ok (X, Y, cn).

Definition build_data_autoregressive (data : matrix A) (indices : list (Z * Z))
    (autoregressive_order : Z) (connectivity : option (matrix A))
    (center_data : bool)
  : list pywarning *
    result (matrix A * matrix A * list (Z * Z) * option (matrix A)) :=
  let T := Z.of_nat (nrows data) in
  let p := ncols data in
  let N := Z.of_nat (length indices) in
  if decide (autoregressive_order = 0) then
    ([UserWarning "autoregressive_order is 0 so nothing to be done"],
     Ok ([], data, indices, connectivity))
  else
    ([],
     X ← np_zeros (T - N * autoregressive_order)
                  (Z.of_nat p * autoregressive_order);
     Y ← np_zeros (T - N * autoregressive_order) (Z.of_nat p);
     let indices_new := replicate (length indices) (0, 0) in
     st ← foldlM (ar_segment data autoregressive_order p)
                 (enumerate indices) (X, Y, indices_new);
     let '(X, Y, indices_new) := st in
     let Y := if center_data then center Y else Y in
     let X := if center_data then center X else X in
     match connectivity with
     | Some conn =>
         r ← ar_connectivity X Y conn autoregressive_order p;
         let '(X, Y, cn) := r in
         Ok (X, Y, indices_new, Some cn)
     | None => Ok (X, Y, indices_new, None)
     end).
End Autoregressive.

(** [data[np.arange(s, e), :]] for a range of rows of the array *)
Definition segment {A} (data : matrix A) (s e : Z) : matrix A :=
  take (Z.to_nat (e - s)) (drop (Z.to_nat s) data).

(** ** Well-formed SegmentIndex

    Half-open row ranges of an array with [T] rows, in order and
    non-overlapping, each strictly longer than the window [w] of the
    builder that consumes them; [lo] is the first row not yet covered. *)
Fixpoint wf_segments (w lo T : Z) (segs : list (Z * Z)) : Prop :=
  match segs with
  | [] => lo ≤ T
  | (s, e) :: rest => lo ≤ s ∧ s + w < e ∧ wf_segments w e T rest
  end.

(** ** build_data_partial_connectivity *)

Section PartialConnectivity.
Context {A : Type} `{Scalar A}.
Variable linalg_inv : matrix A → result (matrix A).

(** [active_X], [active_Y] as index arrays *)
Definition active_predictors (conn : matrix A) (p : nat) : result (list nat) :=
  act ← mapR (λ j, row ← get_row conn j; Ok (any_one row)) (seq 0 p);
  Ok (np_where act).
Definition active_targets (conn : matrix A) (q : nat) : result (list nat) :=
  act ← mapR (λ j, col ← column conn j; Ok (any_one col)) (seq 0 q);
  Ok (np_where act).

Definition build_data_partial_connectivity (X Y : matrix A)
    (connectivity : option (matrix A)) (center_data : bool)
  : result (matrix A * matrix A * option (matrix A)) :=
  let X_new := X in
  let Y_new := Y in
  r ← match connectivity with
      | Some conn =>
          let p := ncols X in
          let q := ncols Y in
          Y_new ← foldlM (λ Y_new j, regress_out_column linalg_inv conn X Y Y_new j)
                         (seq 0 q) Y_new;
          active_X ← active_predictors conn p;
          active_Y ← active_targets conn q;
          (* the pruned arrays are bound to the local names Y and X *)
          Y ← select_cols Y active_Y;
          X ← select_cols X active_X;
          connectivity_new ← restrict conn active_X active_Y;
          Ok (Y_new, Some connectivity_new)
      | None => Ok (Y_new, None)
      end;
  let '(Y_new, connectivity_new) := r in
  let Y_new := if center_data then center Y_new else Y_new in
  let X_new := if center_data then center X_new else X_new in
  Ok (X_new, Y_new, connectivity_new).
End PartialConnectivity.

(** ** Dynamically typed arguments

    Several parameters accept [None], a flag, an integer, a float or an
    array; the functions dispatch on the run-time type. *)

Inductive pyval (A : Type) : Type :=
  | PyNone
  | PyBool (b : bool)
  | PyInt (z : Z)
  | PyFloat (x : A)
  | PyArray (M : matrix A).
Arguments PyNone {A}.
Arguments PyBool {A} b.
Arguments PyInt {A} z.
Arguments PyFloat {A} x.
Arguments PyArray {A} M.

Section PyVal.
Context {A : Type} `{Scalar A}.

(** [v is None] *)
Definition py_is_None (v : pyval A) : bool :=
  match v with PyNone => true | _ => false end.

(** [bool(v)]; an array with more than one element has no truth value. *)
Definition py_truthy (v : pyval A) : result bool :=
  match v with
  | PyNone => Ok false
  | PyBool b => Ok b
  | PyInt z => Ok (bool_decide (z ≠ 0))
  | PyFloat x => Ok (negb (s_eqb x s_zero))
  | PyArray M =>
      match mjoin M with
      | [] => Ok false
      | [x] => Ok (negb (s_eqb x s_zero))
      | _ => Raise ValueError
      end
  end.

(** [bool(v != None)]: the comparison is element-wise on an array. *)
Definition py_ne_None (v : pyval A) : result bool :=
  match v with
  | PyNone => Ok false
  | PyArray M =>
      match mjoin M with
      | [] => Ok false
      | [x] => Ok true
      | _ => Raise ValueError
      end
  | _ => Ok true
  end.

(** [isinstance(v, int)]: [bool] is a subclass of [int]. *)
Definition py_isinstance_int (v : pyval A) : bool :=
  match v with
  | PyBool _ | PyInt _ => true
  | _ => false
  end.

(** The integer behind an [int] (or [bool]) object. *)
Definition py_int (v : pyval A) : result Z :=
  match v with
  | PyBool b => Ok (if b then 1 else 0)
  | PyInt z => Ok z
  | _ => Raise TypeError
  end.

(** The number behind a scalar object, as used by arithmetic and by
    comparisons with a number. *)
Definition py_num (v : pyval A) : result A :=
  match v with
  | PyBool b => Ok (s_of_Z (if b then 1 else 0))
  | PyInt z => Ok (s_of_Z z)
  | PyFloat x => Ok x
  | PyNone => Raise TypeError
  | PyArray _ => Raise ValueError
  end.

(** [v >= 1], [v < 1] *)
Definition py_ge_1 (v : pyval A) : result bool :=
  x ← py_num v; Ok (s_leb (s_of_Z 1) x).
Definition py_lt_1 (v : pyval A) : result bool :=
  x ← py_num v; Ok (s_ltb x (s_of_Z 1)).

(** [range(v)] *)
Definition py_range (v : pyval A) : result (list nat) :=
  n ← py_int v; Ok (seq 0 (Z.to_nat n)).
End PyVal.

(** ** sklearn estimators *)

Inductive svd_solver : Type := SolverFull | SolverAuto.
Inductive ica_algorithm : Type := Parallel | Deflation.

(** [PCA(n_components, svd_solver).fit(X)], [.transform(X)],
    [.explained_variance_ratio_], and
    [FastICA(n_components, whiten='unit-variance', algorithm).fit(X)],
    [.transform(X)]. *)
Class Sklearn (A : Type) := {
  pcamodel : Type;
  icamodel : Type;
  PCA_fit : option (pyval A) → svd_solver → matrix A → result pcamodel;
  PCA_transform : pcamodel → matrix A → result (matrix A);
  explained_variance_ratio : pcamodel → list A;
  FastICA_fit : pyval A → ica_algorithm → matrix A → result icamodel;
  FastICA_transform : icamodel → matrix A → result (matrix A);
}.

(** ** The store of array objects

    Arrays are mutable objects; a reference is a position in the store.
    A function that updates an argument in place changes the store entry
    its caller still holds. *)

Abbreviation store A := (list (matrix A)) (only parsing).
Abbreviation ref := nat (only parsing).

Section Store.
Context {A : Type}.

Definition st_get (h : store A) (l : ref) : matrix A := default [] (h !! l).
Definition st_set (h : store A) (l : ref) (M : matrix A) : store A := <[l := M]> h.
(** A fresh array object holding [M]. *)
Definition st_alloc (h : store A) (M : matrix A) : ref * store A :=
  (length h, h ++ [M]).
End Store.

(** ** apply_pca and apply_ica *)

Section Reduction.
Context {A : Type} `{Scalar A} `{Sklearn A}.

(** [np.max(l)] *)
Definition np_max (l : list A) : result A :=
  match l with
  | [] => Raise ValueError
  | x :: l' => Ok (foldl s_max x l')
  end.

(** [np.where(mask)[0][0]] *)
Definition first_true (mask : list bool) : result nat :=
  match np_where mask with
  | [] => Raise IndexError
  | i :: _ => Ok i
  end.

(** [np.cumsum(l)] *)
Definition np_cumsum (l : list A) : list A :=
  (λ n, s_sum (take (S n) l)) <$> seq 0 (length l).

(** Body of the sign-convention loop:
<<
      jj = np.where(np.abs(X[:,j]) == np.abs(np.max(X[:,j])) )[0][0]
      if X[jj,j] < 0: X[:,j] *= -1
>> *)
Definition sign_convention_column (X : matrix A) (j : nat) : result (matrix A) :=
  col ← column X j;
  mx ← np_max col;
  jj ← first_true ((λ x, s_eqb (s_abs x) (s_abs mx)) <$> col);
  x ← match col !! jj with Some x => Ok x | None => Raise IndexError end;
  if s_ltb x s_zero
  then Ok (set_column X j ((λ x, s_mul x (s_of_Z (-1))) <$> col))
  else Ok X.

(** [for j in range(d): ...] *)
Definition sign_convention (X : matrix A) (js : list nat) : result (matrix A) :=
  foldlM sign_convention_column js X.

(** [np.where(np.cumsum(pcamodel.explained_variance_ratio_)>=d)[0][0] + 1] *)
Definition ncomp_for_variance (model : pcamodel) (d : A) : result nat :=
  i ← first_true ((λ c, s_leb d c) <$> np_cumsum (explained_variance_ratio model));
  Ok (i + 1)%nat.

(** The two ways [apply_pca] fits and transforms: [d >= 1] components, or
    the smallest number of components explaining a fraction [d] of the
    variance.  Returns the transformed data, the model and [range(d)]. *)
Definition pca_fit_transform (X : matrix A) (d : pyval A) (exact : bool)
  : result (matrix A * pcamodel * list nat) :=
  let solver := if exact then SolverFull else SolverAuto in
  ge ← py_ge_1 d;
  if ge : bool then
    model ← PCA_fit (Some d) solver X;
    Xt ← PCA_transform model X;
    js ← py_range d;
    Ok (Xt, model, js)
  else
    model ← PCA_fit None solver X;
    dv ← py_num d;
    ncomp ← ncomp_for_variance model dv;
    Xt ← PCA_transform model X;
    Ok (take ncomp <$> (Xt : matrix A), model, seq 0 ncomp).

(** The branch of [apply_pca] for a component count or a fraction of
    variance; it reads [X] and builds a new array. *)
Definition pca_scores (X : matrix A) (d : pyval A) (exact : bool)
  : result (matrix A * pcamodel) :=
  r ← pca_fit_transform X d exact;
  let '(Xt, model, js) := r in
  Xt ← sign_convention Xt js;
  Ok (Xt, model).

(** [apply_pca(X, d, whitening, exact)] on the store: [X] is the reference
    the caller passes.  With a projection matrix [d] the first statement,
    [X -= np.mean(X,axis=0)], updates the caller's array object; [X = X @ d]
    then rebinds the local name to a new array. *)
Definition apply_pca (X : ref) (d : pyval A) (whitening exact : bool)
    (h : store A) : result (ref * option pcamodel) * store A :=
  match d with
  | PyArray D =>
      let h := st_set h X (center (st_get h X)) in
      match matmul (st_get h X) D with
      | Raise e => (Raise e, h)
      | Ok P =>
          let '(X, h) := st_alloc h P in
          let whitening := true in
          let h := if whitening : bool
                   then st_set h X (div_rowvec (st_get h X) (col_stds (st_get h X)))
                   else h in
          (Ok (X, None), h)
      end
  | _ =>
      match pca_scores (st_get h X) d exact with
      | Raise e => (Raise e, h)
      | Ok (Xt, model) =>
          let '(X, h) := st_alloc h Xt in
          (Ok (X, Some model), h)
      end
  end.

(** [apply_pca] called on an array the caller owns and does not share: the
    returned array and model. *)
Definition apply_pca_owned (X : matrix A) (d : pyval A) (whitening exact : bool)
  : result (matrix A * option pcamodel) :=
  let '(r, h) := apply_pca 0%nat d whitening exact [X] in
  lm ← r;
  Ok (st_get h lm.1, lm.2).

(** [apply_ica(X, d, algorithm)]; it only reads [X]. *)
Definition apply_ica (X : matrix A) (d : pyval A) (algorithm : ica_algorithm)
  : result (matrix A * icamodel) :=
  lt ← py_lt_1 d;
  ncomp ← (if lt : bool then
             model ← PCA_fit None SolverAuto X;
             dv ← py_num d;
             n ← ncomp_for_variance model dv;
             Ok (PyInt (Z.of_nat n))
           else Ok d);
  model ← FastICA_fit ncomp algorithm X;
  Xt ← FastICA_transform model X;
  js ← py_range ncomp;
  Xt ← sign_convention Xt js;
  Ok (Xt, model).
End Reduction.

(** ** dampen_peaks *)

Section Dampening.
Context {A : Type} `{Scalar A}.

(** [strength] is the base of the logarithm; [np.std(X)] is taken over all
    entries. *)
Definition dampen_peaks (X : matrix A) (strength : A) : matrix A :=
  let thr := s_mul (s_of_Z 2) (std (concat X)) in
  (λ row : list A,
     (λ x, if s_ltb thr (s_abs x)
           then s_mul (s_sign x)
                  (s_add (s_sub thr (s_div (s_log thr) (s_log strength)))
                         (s_div (s_log (s_abs x)) (s_log strength)))
           else x) <$> row) <$> X.
End Dampening.

(** ** build_data_tde *)

Section DelayEmbedding.
Context {A : Type} `{Scalar A} `{Sklearn A}.

(** [np.min(lags)], [np.max(lags)] *)
Definition np_min_Z (l : list Z) : result Z :=
  match l with
  | [] => Raise ValueError
  | x :: l' => Ok (foldl Z.min x l')
  end.
Definition np_max_Z (l : list Z) : result Z :=
  match l with
  | [] => Raise ValueError
  | x :: l' => Ok (foldl Z.max x l')
  end.

(** Body of [for i in range(L)] with [l = lags[i]]. *)
Definition tde_lag (data : matrix A) (ind_1 ind_2 : list Z) (minlag maxlag : Z)
    (L p : nat) (X : matrix A) (il : nat * Z) : result (matrix A) :=
  let '(i, l) := il in
  seg ← take_idx data ind_1;
  let X_l := np_roll seg l in
  let X_l := py_slice X_l (- minlag) (- maxlag) in
  let ind_ch := arange_step (Z.of_nat i) (Z.of_nat L * Z.of_nat p) (Z.of_nat L) in
  set_block X ind_2 ind_ch X_l.

(** Body of [for j in range(N)]. *)
Definition tde_segment (data : matrix A) (lags : list Z) (minlag maxlag : Z)
    (p : nat) (st : matrix A * list (Z * Z)) (js : nat * (Z * Z))
  : result (matrix A * list (Z * Z)) :=
  let '(X, indices_new) := st in
  let '(j, (s, e)) := js in
  let rwindow := maxlag - minlag in
  let ind_1 := arange s e in
  let ind_2 := (λ t, t - Z.of_nat j * rwindow) <$> arange s (e - rwindow) in
  X ← foldlM (tde_lag data ind_1 ind_2 minlag maxlag (length lags) p)
             (enumerate lags) X;
  a ← py_get ind_2 0;
  b ← py_get ind_2 (-1);
  Ok (X, <[j := (a, b + 1)]> indices_new).

(** The embedding loop, before standardisation. *)
Definition tde_embed (data : matrix A) (indices : list (Z * Z)) (lags : list Z)
  : result (matrix A * list (Z * Z)) :=
  let T := Z.of_nat (nrows data) in
  let p := ncols data in
  let N := Z.of_nat (length indices) in
  let L := length lags in
  minlag ← np_min_Z lags;
  maxlag ← np_max_Z lags;
  let rwindow := maxlag - minlag in
  X ← np_zeros (T - N * rwindow) (Z.of_nat p * Z.of_nat L);
  let indices_new := replicate (length indices) (0, 0) in
  foldlM (tde_segment data lags minlag maxlag p) (enumerate indices)
         (X, indices_new).

(** The third component is present exactly when [pca] is not [None]. *)
Definition build_data_tde (data : matrix A) (indices : list (Z * Z))
    (lags : list Z) (pca : pyval A) (standardise_pc : bool)
  : result (matrix A * list (Z * Z) * option (option pcamodel)) :=
  st ← tde_embed data indices lags;
  let '(X, indices_new) := st in
  let X := standardise X in
  if py_is_None pca then Ok (X, indices_new, None)
  else
    r ← apply_pca_owned X pca standardise_pc true;
    Ok (r.1, indices_new, Some r.2).
End DelayEmbedding.

(** ** preprocess_data *)

(** scipy.signal routines and the NumPy functions on complex arrays. *)
Inductive btype (A : Type) : Type :=
  | Lowpass (Wn : pyval A)
  | Highpass (Wn : pyval A)
  | Bandpass (Wn : pyval A * pyval A).
Arguments Lowpass {A} Wn.
Arguments Highpass {A} Wn.
Arguments Bandpass {A} Wn.

Class Scipy (A : Type) := {
  complex : Type;
  sos : Type;
  (** [signal.butter(order, Wn, btype, output='sos', fs=fs)] *)
  butter : nat → btype A → pyval A → result sos;
  (** [signal.sosfilt(sos, M, axis=0)] *)
  sosfilt : sos → matrix A → result (matrix A);
  (** [signal.detrend(M, axis=0)] *)
  detrend : matrix A → result (matrix A);
  (** [signal.hilbert(x)] for one channel *)
  hilbert_1d : list A → list complex;
  (** [np.abs], [np.angle] on one complex entry *)
  complex_abs : complex → A;
  complex_angle : complex → A;
  (** [np.unwrap(x)] for a 1-D array *)
  unwrap_1d : list A → list A;
  (** [signal.resample_poly(M, up, down)] *)
  resample_poly : matrix A → A → A → result (matrix A);
}.

Record options (A : Type) := {
  opt_fs : pyval A;
  opt_dampen_extreme_peaks : pyval A;
  opt_standardise : bool;
  opt_filter : option (pyval A * pyval A);
  opt_detrend : bool;
  opt_onpower : bool;
  opt_onphase : bool;
  opt_pca : pyval A;
  opt_exact_pca : bool;
  opt_ica : pyval A;
  opt_ica_algorithm : ica_algorithm;
  opt_post_standardise : option bool;
  opt_downsample : pyval A;
}.
Arguments opt_fs {A} _.
Arguments opt_dampen_extreme_peaks {A} _.
Arguments opt_standardise {A} _.
Arguments opt_filter {A} _.
Arguments opt_detrend {A} _.
Arguments opt_onpower {A} _.
Arguments opt_onphase {A} _.
Arguments opt_pca {A} _.
Arguments opt_exact_pca {A} _.
Arguments opt_ica {A} _.
Arguments opt_ica_algorithm {A} _.
Arguments opt_post_standardise {A} _.
Arguments opt_downsample {A} _.

(** Modelled from the spec: [auxiliary.make_indices_from_T], which is not
    among the sources; the spec describes it as the SegmentIndex obtained
    from per-segment lengths by cumulative prefix sums starting at 0. *)
Fixpoint make_indices_from (start : Z) (lengths : list Z) : list (Z * Z) :=
  match lengths with
  | [] => []
  | t :: rest => (start, start + t) :: make_indices_from (start + t) rest
  end.
Definition make_indices_from_T (lengths : list Z) : list (Z * Z) :=
  make_indices_from 0 lengths.

Section Pipeline.
Context {A : Type} `{Scalar A} `{Sklearn A} `{Scipy A}.

(** The log: [p], [N] and the arguments as they were passed, then the
    fitted models. *)
Record transform_log := {
  log_p : nat;
  log_N : nat;
  log_options : options A;
  log_pcamodel : option (option pcamodel);
  log_icamodel : option icamodel;
}.

(** [for j in range(N): t = np.arange(indices[j,0],indices[j,1]);
    data[t,:] = f(data[t,:])] *)
Definition per_segment (f : matrix A → result (matrix A))
    (indices : list (Z * Z)) (data : matrix A) : result (matrix A) :=
  foldlM (λ data se,
            let t := arange se.1 se.2 in
            seg ← take_idx data t;
            V ← f seg;
            set_rows data t V) indices data.

(** [strength] as resolved from [dampen_extreme_peaks]. *)
Definition dampening_strength (v : pyval A) : result A :=
  if py_isinstance_int v then py_num v else Ok (s_of_Z 5).

(** [if dampen_extreme_peaks: ...] *)
Definition stage_dampen (v : pyval A) (indices : list (Z * Z)) (data : matrix A)
  : result (matrix A) :=
  b ← py_truthy v;
  if b : bool then
    data ← per_segment (λ seg, Ok (center seg)) indices data;
    strength ← dampening_strength v;
    Ok (dampen_peaks data strength)
  else Ok data.

(** [if standardise: ...] and the post-reduction standardisation *)
Definition stage_standardise (b : bool) (indices : list (Z * Z)) (data : matrix A)
  : result (matrix A) :=
  if b then per_segment (λ seg, Ok (standardise seg)) indices data else Ok data.

(** [filter[0] == 0] *)
Definition py_eq_0 (v : pyval A) : bool :=
  match v with
  | PyBool b => negb b
  | PyInt z => bool_decide (z = 0)
  | PyFloat x => s_eqb x s_zero
  | _ => false
  end.

(** [if filter != None: ...] *)
Definition stage_filter (flt : option (pyval A * pyval A)) (fs : pyval A)
    (indices : list (Z * Z)) (data : matrix A) : result (matrix A) :=
  match flt with
  | None => Ok data
  | Some (lo, hi) =>
      let filterorder := 6%nat in
      sos ← (if py_eq_0 lo then butter filterorder (Lowpass hi) fs
             else if py_is_None hi then butter filterorder (Highpass lo) fs
             else butter filterorder (Bandpass (lo, hi)) fs);
      per_segment (sosfilt sos) indices data
  end.

(** [if detrend: ...] *)
Definition stage_detrend (b : bool) (indices : list (Z * Z)) (data : matrix A)
  : result (matrix A) :=
  if b then per_segment detrend indices data else Ok data.

(** [signal.hilbert(M, axis=0)]: the analytic signal of every channel *)
Definition hilbert (M : matrix A) : list (list complex) :=
  map_columns hilbert_1d M.

(** [np.unwrap(M)]: the default axis is the last one, so every row (the
    phases of all channels at one sample) is unwrapped on its own. *)
Definition np_unwrap (M : matrix A) : matrix A := unwrap_1d <$> M.

(** [np.abs(analytic)] and [np.unwrap(np.angle(analytic))] *)
Definition amplitude (analytic : list (list complex)) : matrix A :=
  (λ row : list complex, complex_abs <$> row) <$> analytic.
Definition phase (analytic : list (list complex)) : matrix A :=
  np_unwrap ((λ row : list complex, complex_angle <$> row) <$> analytic).

(** Body of the loop of [if onpower and onphase], for one segment. *)
Definition power_phase_segment (p : nat) (data : matrix A) (se : Z * Z)
  : result (matrix A) :=
  let t := arange se.1 se.2 in
  rows ← take_idx data t;
  let analytical_signal := hilbert (take p <$> (rows : matrix A)) in
  data ← set_block data t (arange 0 (Z.of_nat p)) (amplitude analytical_signal);
  set_block data t (arange (Z.of_nat p) (Z.of_nat (ncols data)))
            (phase analytical_signal).

(** The three [onpower] / [onphase] blocks. *)
Definition stage_power_phase (onpower onphase : bool) (p : nat)
    (indices : list (Z * Z)) (data : matrix A) : result (matrix A) :=
  data ← (if onpower && negb onphase
          then per_segment (λ seg, Ok (amplitude (hilbert seg))) indices data
          else Ok data);
  data ← (if onphase && negb onpower
          then per_segment (λ seg, Ok (phase (hilbert seg))) indices data
          else Ok data);
  if onpower && onphase then
    data ← hconcat data data;
    foldlM (power_phase_segment p) indices data
  else Ok data.

(** The stages before amplitude and phase extraction. *)
Definition conditioning (o : options A) (indices : list (Z * Z)) (data : matrix A)
  : result (matrix A) :=
  data ← stage_dampen (opt_dampen_extreme_peaks o) indices data;
  data ← stage_standardise (opt_standardise o) indices data;
  data ← stage_filter (opt_filter o) (opt_fs o) indices data;
  stage_detrend (opt_detrend o) indices data.

(** [if (pca != None) and (ica is None)] and [if ica != None].  The call is
    [apply_pca(data,pca,exact_pca)]: the third positional parameter of
    [apply_pca] is [whitening]. *)
Definition stage_reduce (o : options A) (data : matrix A)
  : result (matrix A * option (option pcamodel) * option icamodel) :=
  ne ← py_ne_None (opt_pca o);
  r ← (if ne && py_is_None (opt_ica o)
       then r ← apply_pca_owned data (opt_pca o) (opt_exact_pca o) true;
            Ok (r.1, Some r.2)
       else Ok (data, None));
  let '(data, pm) := r in
  ne ← py_ne_None (opt_ica o);
  if ne : bool
  then r ← apply_ica data (opt_ica o) (opt_ica_algorithm o);
       Ok (r.1, pm, Some r.2)
  else Ok (data, pm, None).

(** [if (pca or ica) and post_standardise], after the default for
    [post_standardise] has been resolved. *)
Definition stage_post_standardise (o : options A) (indices : list (Z * Z))
    (data : matrix A) : result (matrix A) :=
  post ← match opt_post_standardise o with
         | None => py_truthy (opt_ica o)
         | Some b => Ok b
         end;
  tp ← py_truthy (opt_pca o);
  reduced ← (if tp : bool then Ok true else py_truthy (opt_ica o));
  stage_standardise (reduced && post) indices data.

(** [if downsample != None: ... else: indices_new = indices] *)
Definition stage_downsample (o : options A) (p : nat) (indices : list (Z * Z))
    (data : matrix A) : result (matrix A * list (Z * Z)) :=
  ne ← py_ne_None (opt_downsample o);
  if ne : bool then
    ds ← py_num (opt_downsample o);
    fs ← py_num (opt_fs o);
    _ ← (if s_eqb fs s_zero then Raise ZeroDivisionError else Ok ());
    let factor := s_div ds fs in
    let Tnew := (λ se : Z * Z, s_ceil (s_mul factor (s_of_Z (se.2 - se.1)))) <$> indices in
    let indices_new := make_indices_from_T Tnew in
    data_new ← np_zeros (foldr Z.add 0 Tnew) (Z.of_nat p);
    dsi ← py_int (opt_downsample o);
    fsi ← py_int (opt_fs o);
    let gcd := Z.gcd dsi fsi in
    _ ← (if decide (gcd = 0) then Raise ZeroDivisionError else Ok ());
    let up := s_div (s_of_Z dsi) (s_of_Z gcd) in
    let down := s_div (s_of_Z fsi) (s_of_Z gcd) in
    data_new ← foldlM (λ (data_new : matrix A) (sse : (Z * Z) * (Z * Z)),
                  let '(se, se_new) := sse in
                  seg ← take_idx data (arange se.1 se.2);
                  V ← resample_poly seg up down;
                  set_rows data_new (arange se_new.1 se_new.2) V)
               (zip indices indices_new) data_new;
    Ok (data_new, indices_new)
  else Ok (data, indices).

Definition preprocess_data (data : matrix A) (indices : list (Z * Z)) (o : options A)
  : result (matrix A * list (Z * Z) * transform_log) :=
  let p := ncols data in
  let N := length indices in
  let log := {| log_p := p; log_N := N; log_options := o;
                log_pcamodel := None; log_icamodel := None |} in
  (* data = np.copy(data): the stages below work on the copy *)
  data ← conditioning o indices data;
  data ← stage_power_phase (opt_onpower o) (opt_onphase o) p indices data;
  let p := if opt_onpower o && opt_onphase o then ncols data else p in
  r ← stage_reduce o data;
  let '(data, pm, im) := r in
  let p := match pm, im with None, None => p | _, _ => ncols data end in
  data ← stage_post_standardise o indices data;
  r ← stage_downsample o p indices data;
  Ok (r.1, r.2,
      {| log_p := log_p log; log_N := log_N log; log_options := log_options log;
         log_pcamodel := pm; log_icamodel := im |}).
End Pipeline.

(** ** An exact matrix inverse

    Gauss-Jordan elimination on [M | I]; it stands for [np.linalg.inv]
    wherever an example has to run.  A matrix that is not square or has no
    usable pivot raises [LinAlgError]. *)

Section Inverse.
Context {A : Type} `{Scalar A}.

Definition entry (row : list A) (c : nat) : A := default s_zero (row !! c).

Fixpoint find_pivot (c : nat) (rows : matrix A) (i : nat) : option nat :=
  match rows with
  | [] => None
  | row :: rows' =>
      if s_eqb (entry row c) s_zero then find_pivot c rows' (S i) else Some i
  end.

Definition swap_rows (M : matrix A) (i j : nat) : matrix A :=
  match M !! i, M !! j with
  | Some ri, Some rj => <[i := rj]> (<[j := ri]> M)
  | _, _ => M
  end.

Definition gj_step (M : matrix A) (c : nat) : result (matrix A) :=
  match find_pivot c (drop c M) c with
  | None => Raise LinAlgError
  | Some i =>
      let M1 := swap_rows M c i in
      match M1 !! c with
      | None => Raise LinAlgError
      | Some prow =>
          let prow' := (λ x, s_div x (entry prow c)) <$> prow in
          Ok (imap (λ r row,
                      if decide (r = c) then prow'
                      else zip_with (λ x y, s_sub y (s_mul (entry row c) x)) prow' row)
                   M1)
      end
  end.

Definition gauss_inv (M : matrix A) : result (matrix A) :=
  let n := length M in
  if forallb (λ row, Nat.eqb (length row) n) M then
    aug ← foldlM gj_step (seq 0 n)
                 (zip_with app M (scaled_eye (s_of_Z 1) n));
    Ok ((drop n <$> aug) : matrix A)
  else Raise LinAlgError.
End Inverse.

(** ** The rationals as scalars

    Exact field operations and comparisons; results are kept in lowest
    terms so that equal rationals are equal terms.  Square root and
    logarithm are fixed-precision approximations (they are only needed to
    run the worked examples). *)

Definition Qsqrt_fix (q : Q) : Q :=
  Qred (Z.sqrt (Qnum q * Z.pos (Qden q) * 10 ^ 12) # (Qden q * 10 ^ 6)).

(** [2 * sum_{k < 6} z^(2k+1) / (2k+1)] with [z = (x-1)/(x+1)] *)
Definition Qlog_series (x : Q) : Q :=
  let z := ((x - 1) / (x + 1))%Q in
  Qred (2 * foldr (λ k acc, z ^ (2 * Z.of_nat k + 1) / inject_Z (2 * Z.of_nat k + 1) + acc)
                  0 (seq 0 6))%Q.

Definition Qceil (q : Q) : Z := - ((- Qnum q) `div` Z.pos (Qden q)).

#[export] Instance Q_scalar : Scalar Q := {|
  s_zero := 0%Q;
  s_add x y := Qred (x + y);
  s_sub x y := Qred (x - y);
  s_mul x y := Qred (x * y);
  s_div x y := Qred (x / y);
  s_ltb x y := Qnum x * Z.pos (Qden y) <? Qnum y * Z.pos (Qden x);
  s_eqb x y := Qeq_bool x y;
  s_of_Z z := inject_Z z;
  s_of_Q q := Qred q;
  s_ceil := Qceil;
  s_sqrt := Qsqrt_fix;
  s_log := Qlog_series;
|}.


(** For data with a single channel the principal axis is that channel: the
    scores are the centred data, all the variance is explained by the one
    component, and unit-variance whitening divides by the standard
    deviation.  This instance stands for sklearn wherever an example has to
    run on single-channel data. *)
#[export] Instance single_channel_sklearn : Sklearn Q := {|
  pcamodel := list Q;
  icamodel := list Q;
  PCA_fit := λ _ _ X, Ok (col_means X);
  PCA_transform := λ m X, Ok (sub_rowvec X m);
  explained_variance_ratio := λ _, [1%Q];
  FastICA_fit := λ _ _ X, Ok (col_means X);
  FastICA_transform := λ m X,
    let Xc := sub_rowvec X m in Ok (div_rowvec Xc (col_stds Xc));
|}.

(** The sign convention as the spec words it (used only to compare with
    [sign_convention_column]): locate the first sample of maximal absolute
    value and flip the column when that sample is negative. *)
Definition argmax_abs (col : list Q) : result nat :=
  match col with
  | [] => Raise ValueError
  | x :: col' =>
      first_true ((λ y, s_eqb (s_abs y) (foldl s_max (s_abs x) (s_abs <$> col'))) <$> col)
  end.
Definition sign_convention_column_spec (X : matrix Q) (j : nat) : result (matrix Q) :=
  col ← column X j;
  jj ← argmax_abs col;
  if s_ltb (default 0%Q (col !! jj)) 0%Q
  then Ok (set_column X j ((λ x, s_mul x (-1)%Q) <$> col))
  else Ok X.

(** scipy on segments of at most two non-negative samples, in exact
    arithmetic: there the analytic signal is the signal itself (zero
    imaginary part), so its magnitude is the signal and its phase is 0,
    unwrapping changes nothing, and the least-squares line passes through
    the samples so that detrending leaves zeros.  No Butterworth filter can
    be designed over the rationals ([sos] is empty) and only the trivial
    resampling ratio is supported.  This instance stands for scipy wherever
    an example has to run. *)
#[export] Instance short_segment_scipy : Scipy Q := {|
  complex := Q * Q;
  sos := Empty_set;
  butter := λ _ _ _, Raise ValueError;
  sosfilt := λ f _, match f with end;
  detrend := λ M, Ok ((λ row : list Q, (λ _, 0%Q) <$> row) <$> M);
  hilbert_1d := λ x, (λ v, (v, 0%Q)) <$> x;
  complex_abs := λ z, s_abs z.1;
  complex_angle := λ _, 0%Q;
  unwrap_1d := λ x, x;
  resample_poly := λ M up down,
    if Qeq_bool up down then Ok M else Raise ValueError;
|}.

(** The keyword defaults of [preprocess_data]. *)
Definition default_options {A} : options A := {|
  opt_fs := PyInt 1;
  opt_dampen_extreme_peaks := PyNone;
  opt_standardise := true;
  opt_filter := None;
  opt_detrend := false;
  opt_onpower := false;
  opt_onphase := false;
  opt_pca := PyNone;
  opt_exact_pca := true;
  opt_ica := PyNone;
  opt_ica_algorithm := Parallel;
  opt_post_standardise := None;
  opt_downsample := PyNone;
|}.

(** [standardise=False, onpower=True, onphase=True], the rest by default *)
Definition power_phase_options {A} : options A := {|
  opt_fs := PyInt 1;
  opt_dampen_extreme_peaks := PyNone;
  opt_standardise := false;
  opt_filter := None;
  opt_detrend := false;
  opt_onpower := true;
  opt_onphase := true;
  opt_pca := PyNone;
  opt_exact_pca := true;
  opt_ica := PyNone;
  opt_ica_algorithm := Parallel;
  opt_post_standardise := None;
  opt_downsample := PyNone;
|}.

(** A [T x p] array with pairwise distinct entries: entry [(t, c)] is
    [10 * t + c]. *)
Definition ramp (T p : Z) : matrix Q :=
  (λ t, (λ c, inject_Z (10 * t + c)) <$> seqZ 0 p) <$> seqZ 0 T.

(** ** Projections used to compare calls *)

(** The same options with another value for [exact_pca]. *)
Definition with_exact_pca {A} (b : bool) (o : options A) : options A := {|
  opt_fs := opt_fs o;
  opt_dampen_extreme_peaks := opt_dampen_extreme_peaks o;
  opt_standardise := opt_standardise o;
  opt_filter := opt_filter o;
  opt_detrend := opt_detrend o;
  opt_onpower := opt_onpower o;
  opt_onphase := opt_onphase o;
  opt_pca := opt_pca o;
  opt_exact_pca := b;
  opt_ica := opt_ica o;
  opt_ica_algorithm := opt_ica_algorithm o;
  opt_post_standardise := opt_post_standardise o;
  opt_downsample := opt_downsample o;
|}.

(** What [preprocess_data] returns apart from the copy of its arguments kept
    in the log: the data, the SegmentIndex and the fitted models. *)
Definition outputs {A} `{Scalar A} `{Sklearn A} `{Scipy A}
    (r : result (matrix A * list (Z * Z) * transform_log))
  : result (matrix A * list (Z * Z) * option (option pcamodel) * option icamodel) :=
  x ← r; Ok (x.1.1, x.1.2, log_pcamodel x.2, log_icamodel x.2).

(** [standardise=False] and the other arguments by default: no stage runs. *)
Definition all_off_options {A} : options A := {|
  opt_fs := PyInt 1;
  opt_dampen_extreme_peaks := PyNone;
  opt_standardise := false;
  opt_filter := None;
  opt_detrend := false;
  opt_onpower := false;
  opt_onphase := false;
  opt_pca := PyNone;
  opt_exact_pca := true;
  opt_ica := PyNone;
  opt_ica_algorithm := Parallel;
  opt_post_standardise := None;
  opt_downsample := PyNone;
|}.

(** [standardise=False, downsample=0.5], the rest by default. *)
Definition float_downsample_options : options Q := {|
  opt_fs := PyInt 1;
  opt_dampen_extreme_peaks := PyNone;
  opt_standardise := false;
  opt_filter := None;
  opt_detrend := false;
  opt_onpower := false;
  opt_onphase := false;
  opt_pca := PyNone;
  opt_exact_pca := true;
  opt_ica := PyNone;
  opt_ica_algorithm := Parallel;
  opt_post_standardise := None;
  opt_downsample := PyFloat (1 # 2)%Q;
|}.

(** ** SegmentIndex that covers an array

    The segments are contiguous: the first starts at [lo], each one starts
    where the one before ends, and the last ends at [hi]. *)
Fixpoint tiles (lo hi : Z) (segs : list (Z * Z)) : Prop :=
  match segs with
  | [] => lo = hi
  | (s, e) :: rest => s = lo ∧ tiles e hi rest
  end.

(** The same options with another value for [pca]. *)
Definition with_pca {A} (v : pyval A) (o : options A) : options A := {|
  opt_fs := opt_fs o;
  opt_dampen_extreme_peaks := opt_dampen_extreme_peaks o;
  opt_standardise := opt_standardise o;
  opt_filter := opt_filter o;
  opt_detrend := opt_detrend o;
  opt_onpower := opt_onpower o;
  opt_onphase := opt_onphase o;
  opt_pca := v;
  opt_exact_pca := opt_exact_pca o;
  opt_ica := opt_ica o;
  opt_ica_algorithm := opt_ica_algorithm o;
  opt_post_standardise := opt_post_standardise o;
  opt_downsample := opt_downsample o;
|}.

(** [standardise=False, ica=1], the rest by default. *)
Definition ica_options {A} : options A := with_pca PyNone {|
  opt_fs := PyInt 1;
  opt_dampen_extreme_peaks := PyNone;
  opt_standardise := false;
  opt_filter := None;
  opt_detrend := false;
  opt_onpower := false;
  opt_onphase := false;
  opt_pca := PyNone;
  opt_exact_pca := true;
  opt_ica := PyInt 1;
  opt_ica_algorithm := Parallel;
  opt_post_standardise := None;
  opt_downsample := PyNone;
|}.

(** ** load_files

    [load_files] reads [.mat] and [.npz] files and stacks their arrays.  It
    can raise, besides the NumPy exceptions, [KeyError] (a missing entry of
    a file), [UnboundLocalError] (the local name [dat] read before any
    assignment) and whatever the two loaders raise. *)

Inductive load_exn : Type :=
  | KeyError (key : string)
  | UnboundLocalError
  | Builtin (e : pyerr)
  | OSError.

Inductive outcome (B : Type) : Type :=
  | Done (b : B)
  | Throw (e : load_exn).
Arguments Done {B} b.
Arguments Throw {B} e.

#[global] Instance outcome_ret : MRet outcome := λ B b, Done b.
#[global] Instance outcome_bind : MBind outcome := λ B C f m,
  match m with
  | Done b => f b
  | Throw e => Throw e
  end.

(** A NumPy or built-in operation inside [load_files]. *)
Definition lift {B} (r : result B) : outcome B :=
  match r with
  | Ok b => Done b
  | Raise e => Throw (Builtin e)
  end.

(** [for x in l: s = f(s, x)] *)
Fixpoint foldlO {S B} (f : S → B → outcome S) (l : list B) (s : S) : outcome S :=
  match l with
  | [] => Done s
  | x :: l' => s' ← f s x; foldlO f l' s'
  end.

(** An integer index array as stored in a file: one segment as a 1-D array,
    or a 2-D array with one row per segment. *)
Inductive index_array : Type :=
  | Index1 (v : list Z)
  | Index2 (rows : matrix Z).

(** The entries of a file that [load_files] reads; [None] is a key that is
    not in the file. *)
Record datafile (A : Type) := {
  file_X : option (matrix A);
  file_Y : option (matrix A);
  file_indices : option index_array;
  file_T : option (list Z);
}.
Arguments file_X {A} _.
Arguments file_Y {A} _.
Arguments file_indices {A} _.
Arguments file_T {A} _.

(** What is returned as [Y]: the list [[]] the function starts with, or the
    concatenated array. *)
Inductive loaded_Y (A : Type) : Type :=
  | EmptyList
  | Concatenated (Y : matrix A).
Arguments EmptyList {A}.
Arguments Concatenated {A} Y.

(** [s[-4:]] *)
Definition py_last4 (s : string) : string :=
  String.substring (String.length s - 4) 4 s.

(** A SegmentIndex as a 2-D integer array, and [ind + k]. *)
Definition index_rows (segs : list (Z * Z)) : matrix Z :=
  (λ se : Z * Z, [se.1; se.2]) <$> segs.
Definition index_add (ind : matrix Z) (k : Z) : matrix Z :=
  (λ row : list Z, (λ x, x + k) <$> row) <$> ind.

(** [np.concatenate(Ms)] along axis 0: at least one array, all with the
    same number of columns. *)
Definition np_concatenate {B} (Ms : list (matrix B)) : result (matrix B) :=
  match Ms with
  | [] => Raise ValueError
  | M :: _ =>
      if decide (Forall (λ M', ncols M' = ncols M) Ms)
      then Ok (concat Ms)
      else Raise ValueError
  end.

(** [np.concatenate] of index arrays: all 1-D or all 2-D. *)
Definition concatenate_indices (l : list index_array) : result index_array :=
  match l with
  | [] => Raise ValueError
  | Index1 _ :: _ =>
      vs ← mapR (λ ix, match ix with
                       | Index1 v => Ok v
                       | Index2 _ => Raise ValueError
                       end) l;
      Ok (Index1 (concat vs))
  | Index2 _ :: _ =>
      Ms ← mapR (λ ix, match ix with
                       | Index2 M => Ok M
                       | Index1 _ => Raise ValueError
                       end) l;
      M ← np_concatenate Ms;
      Ok (Index2 M)
  end.

(** [I] as passed: [None], an [int], or an integer array; and the array
    the loop runs over. *)
Definition resolve_I (I : option (Z + list Z)) (files : list string) : list Z :=
  match I with
  | None => arange 0 (Z.of_nat (length files))
  | Some (inl i) => [i]
  | Some (inr l) => l
  end.

Section LoadFiles.
Context {A : Type}.
(** [scipy.io.loadmat] and [np.load] *)
Variable loadmat np_load : string → outcome (datafile A).

(** The two [if]/[elif] on the extension: with any other extension [dat]
    keeps the value it had. *)
Definition open_file (fname : string) (dat : option (datafile A))
  : outcome (option (datafile A)) :=
  if decide (py_last4 fname = ".mat") then d ← loadmat fname; Done (Some d)
  else if decide (py_last4 fname = ".npz") then d ← np_load fname; Done (Some d)
  else Done dat.

(** [dat["Y"]] *)
Definition get_Y (d : datafile A) : outcome (matrix A) :=
  match file_Y d with
  | Some Y => Done Y
  | None => Throw (KeyError "Y")
  end.

(** The lists [X], [Y], [indices], the counter [sum_T] and the local
    [dat]. *)
Definition load_state : Type :=
  list (matrix A) * list (matrix A) * list index_array * Z * option (datafile A).

(** Body of [for ij in range(I.shape[0])] with [j = I[ij]]. *)
Definition load_step (files : list string) (do_only_indices : bool)
    (st : load_state) (j : Z) : outcome load_state :=
  let '(X, Y, indices, sum_T, dat) := st in
  fname ← lift (py_get files j);
  dat ← open_file fname dat;
  d ← match dat with
      | Some d => Done d
      | None => Throw UnboundLocalError
      end;
  XY ← (if do_only_indices then Done (X, Y)
        else match file_X d, file_Y d with
             | Some x, None => Done (X, Y ++ [x])
             | ox, _ =>
                 let X := match ox with Some x => X ++ [x] | None => X end in
                 y ← get_Y d;
                 Done (X, Y ++ [y])
             end);
  let '(X, Y) := XY in
  ix ← match file_indices d, file_T d with
       | Some ix, _ => Done ix
       | None, Some T =>
           Done (Index2 (index_add (index_rows (make_indices_from_T T)) sum_T))
       | None, None =>
           y ← lift (py_get Y (-1));
           Done (Index2 (index_add [[0; Z.of_nat (nrows y)]] sum_T))
       end;
  y ← get_Y d;
  Done (X, Y, indices ++ [ix], sum_T + Z.of_nat (nrows y), dat).

Definition load_files (files : list string) (I : option (Z + list Z))
    (do_only_indices : bool)
  : outcome (option (matrix A) * loaded_Y A * matrix Z) :=
  st ← foldlO (load_step files do_only_indices) (resolve_I I files)
              ([], [], [], 0, None);
  let '(X, Y, indices, sum_T, dat) := st in
  XY ← lift (if do_only_indices then Ok (None, EmptyList)
             else
               X ← match X with
                   | [] => Ok None
                   | _ => Xc ← np_concatenate X;
                          (* [if len(X) == 0: X = None] *)
                          Ok (if decide (nrows Xc = 0%nat) then None else Some Xc)
                   end;
               Yc ← np_concatenate Y;
               Ok (X, Concatenated Yc));
  ix ← lift (concatenate_indices indices);
  (* [if len(indices.shape) == 1: indices = np.expand_dims(indices,axis=0)] *)
  let indices := match ix with Index1 v => [v] | Index2 M => M end in
  Done (XY.1, XY.2, indices).
End LoadFiles.

(** Two loaders for the worked examples: [a.npz] holds a 2 x 1 array [Y],
    [b.npz] a 3 x 1 array [Y], [x.npz] only an array [X], [c.npz] a 2 x 1
    array [Y] with its SegmentIndex [[0, 2]]; there are no [.mat] files. *)
Definition example_npz (fname : string) : outcome (datafile Q) :=
  if decide (fname = "a.npz")
  then Done {| file_X := None; file_Y := Some [[1]; [2]]%Q;
               file_indices := None; file_T := None |}
  else if decide (fname = "b.npz")
  then Done {| file_X := None; file_Y := Some [[3]; [4]; [5]]%Q;
               file_indices := None; file_T := None |}
  else if decide (fname = "x.npz")
  then Done {| file_X := Some [[1]; [2]]%Q; file_Y := None;
               file_indices := None; file_T := None |}
  else if decide (fname = "c.npz")
  then Done {| file_X := None; file_Y := Some [[6]; [7]]%Q;
               file_indices := Some (Index2 [[0; 2]]); file_T := None |}
  else Throw OSError.
Definition example_mat (fname : string) : outcome (datafile Q) := Throw OSError.

(** A file that holds the array [Y] and nothing else. *)
Definition Y_file {A} (Y : matrix A) : datafile A :=
  {| file_X := None; file_Y := Some Y; file_indices := None; file_T := None |}.

(** A file that holds the array [Y] and a 2-D SegmentIndex for it. *)
Definition indexed_file {A} (Y : matrix A) (M : matrix Z) : datafile A :=
  {| file_X := None; file_Y := Some Y; file_indices := Some (Index2 M);
     file_T := None |}.

(** ** Active predictors and targets of a connectivity matrix

    [np.sum(connectivity[j,:]==1) > 0] and [np.sum(connectivity[:,j]==1) > 0]
    as functions of the position [j]. *)
Definition row_active {A} `{Scalar A} (conn : matrix A) (j : nat) : bool :=
  match conn !! j with
  | Some row => any_one row
  | None => false
  end.
Definition col_active {A} `{Scalar A} (conn : matrix A) (j : nat) : bool :=
  any_one (col_of conn j).

(** ** The phase of every channel, as the spec words it

    "The unwrapped phase of the same original channel": the angles of the
    analytic signal of a channel, unwrapped along time (axis 0).  It is
    used only to compare with [phase], which follows the call
    [np.unwrap(np.angle(analytical_signal))] of the source. *)
Definition phase_per_channel {A} `{Scipy A} (analytic : list (list complex))
  : matrix A :=
  map_columns unwrap_1d
    ((λ row : list complex, complex_angle <$> row) <$> analytic).

(** ** scipy on segments of four samples, in exact arithmetic

    The discrete Fourier transform of four samples needs the roots of unity
    1, i, -1, -i only, so the analytic signal [x + i H(x)] that
    [signal.hilbert] computes is rational:
    [H(x) = ((x3 - x1)/2, (x0 - x2)/2, (x1 - x3)/2, (x2 - x0)/2)].
    Phases are measured in half-turns (units of pi): [np.angle] of a sample
    on the real or the imaginary axis is 0, 1/2, 1 or -1/2, and [np.unwrap]
    has period 2.  The magnitude is exact for samples on the axes, which is
    all the instance is used for; filtering, detrending and resampling are
    those of [short_segment_scipy]. *)
Definition hilbert_four (x : list Q) : list (Q * Q) :=
  match x with
  | [x0; x1; x2; x3] =>
      [(x0, Qred ((x3 - x1) / 2)); (x1, Qred ((x0 - x2) / 2));
       (x2, Qred ((x1 - x3) / 2)); (x3, Qred ((x2 - x0) / 2))]%Q
  | _ => (λ v, (v, 0%Q)) <$> x
  end.

(** [np.angle(z) / pi] for [z] on an axis *)
Definition angle_half_turns (z : Q * Q) : Q :=
  if Qeq_bool z.2 0 then (if s_ltb z.1 0%Q then 1 else 0)%Q
  else if Qeq_bool z.1 0 then (if s_ltb z.2 0%Q then - (1 # 2) else 1 # 2)%Q
  else 0%Q.

(** [np.mod(a, 2)] *)
Definition Qmod2 (a : Q) : Q :=
  let h := (a / 2)%Q in
  Qred (a - 2 * inject_Z (Qnum h `div` Z.pos (Qden h))).

(** [np.unwrap(ph, period=2)] for a 1-D array:
<<
    dd = diff(ph)
    ddmod = mod(dd + 1, 2) - 1
    ddmod[(ddmod == -1) & (dd > 0)] = 1
    ph_correct = ddmod - dd
    ph_correct[abs(dd) < 1] = 0
    up[1:] = ph[1:] + ph_correct.cumsum()
>> *)
Definition unwrap_half_turns (ph : list Q) : list Q :=
  match ph with
  | [] => []
  | x0 :: rest =>
      let dd := zip_with s_sub rest ph in
      let correct (d : Q) : Q :=
        let ddmod := s_sub (Qmod2 (s_add d 1%Q)) 1%Q in
        let ddmod := if Qeq_bool ddmod (- (1)) && s_ltb 0%Q d
                     then 1%Q else ddmod in
        if s_ltb (s_abs d) 1%Q then 0%Q else s_sub ddmod d in
      x0 :: zip_with s_add rest (np_cumsum (correct <$> dd))
  end.

Definition four_sample_scipy : Scipy Q := {|
  complex := Q * Q;
  sos := Empty_set;
  butter := λ _ _ _, Raise ValueError;
  sosfilt := λ f _, match f with end;
  detrend := @detrend Q short_segment_scipy;
  hilbert_1d := hilbert_four;
  complex_abs := λ z, s_add (s_abs z.1) (s_abs z.2);
  complex_angle := angle_half_turns;
  unwrap_1d := unwrap_half_turns;
  resample_poly := @resample_poly Q short_segment_scipy;
|}.

(** ** NumPy's global random generator

    [apply_ica] constructs
    [FastICA(n_components=ncomp,whiten='unit-variance',algorithm=algorithm)]:
    no [random_state] is passed, so [fit] draws the initial unmixing matrix
    from NumPy's global generator and leaves the generator advanced.  A
    [Sklearn] instance gives the estimators in one state of the process;
    [apply_ica_in estimators g] is [apply_ica] run while the generator is in
    state [g], and returns the transformed data. *)
Definition apply_ica_in {A} `{Scalar A} {G : Type} (estimators : G → Sklearn A)
    (g : G) (X : matrix A) (d : pyval A) (algorithm : ica_algorithm)
  : result (matrix A) :=
  r ← @apply_ica A _ (estimators g) X d algorithm; Ok r.1.

(** The generator as FastICA with one component on one channel sees it:
    the signs of the normal variates it will produce next.  [fit] draws the
    1 x 1 initial weight, the next variate, and the fitted weight is 1 or
    -1 with the sign of that draw (the fixed-point update is odd in the
    weight), so the source is the whitened channel or its negation. *)
Definition generator : Type := list bool.
Definition after_fit (g : generator) : generator := tail g.

Definition generator_sklearn (g : generator) : Sklearn Q := {|
  pcamodel := list Q;
  icamodel := list Q * bool;
  PCA_fit := λ _ _ X, Ok (col_means X);
  PCA_transform := λ m X, Ok (sub_rowvec X m);
  explained_variance_ratio := λ _, [1%Q];
  FastICA_fit := λ _ _ X, Ok (col_means X, default true (head g));
  FastICA_transform := λ m X,
    let Xc := sub_rowvec X m.1 in
    let S := div_rowvec Xc (col_stds Xc) in
    Ok (if m.2 then S else (λ row : list Q, (λ x, s_mul x (-1)%Q) <$> row) <$> S);
|}.
(** * Properties *)

(** ** The NumPy fragment and the builders on small inputs *)

Example arange_ex : arange 2 5 = [2; 3; 4] ∧ arange_step 1 6 2 = [1; 3; 5].
Proof. split; reflexivity. Qed.

Example py_slice_ex :
  py_slice [1; 2; 3; 4; 5] 1 (-1) = [2; 3; 4] ∧
  py_slice [1; 2; 3; 4; 5] (-2) 5 = [4; 5] ∧
  py_slice [1; 2; 3; 4; 5] (- 0) (- 0) = [].
Proof. split_and!; reflexivity. Qed.

Example np_roll_ex :
  np_roll [1; 2; 3; 4; 5] 1 = [5; 1; 2; 3; 4] ∧
  np_roll [1; 2; 3; 4; 5] (-2) = [3; 4; 5; 1; 2].
Proof. split; reflexivity. Qed.

Example py_get_ex :
  py_get [10; 20; 30] (-1) = Ok 30 ∧ py_get [10; 20; 30] 3 = Raise IndexError.
Proof. split; reflexivity. Qed.

Example set_block_ex :
  set_block [[0; 0; 0]; [0; 0; 0]] [1] [0; 2] [[7; 8]] = Ok [[0; 0; 0]; [7; 0; 8]] ∧
  set_block [[0; 0; 0]; [0; 0; 0]] [0; 1] [0; 2] [[7; 8]]
  = Ok [[7; 0; 8]; [7; 0; 8]] ∧
  set_block [[0; 0; 0]; [0; 0; 0]] [0; 1] [0; 2] ([] : list (list Z))
  = Raise ValueError ∧
  set_block [[0; 0; 0]; [0; 0; 0]] [2] [0] [[7]] = Raise IndexError.
Proof. split_and!; reflexivity. Qed.

Example gauss_inv_ex :
  gauss_inv [[2; 1]; [1; 1]]%Q = Ok [[1; -1]; [-1; 2]]%Q ∧
  gauss_inv [[1; 1]; [1; 1]]%Q = Raise LinAlgError.
Proof. split; vm_compute; reflexivity. Qed.

(** Order 2 on two segments of three samples: one row per segment, lag 1
    then lag 2. *)
Example build_data_autoregressive_ex :
  build_data_autoregressive gauss_inv (ramp 6 2) [(0, 3); (3, 6)] 2 None false
  = ([], Ok ([[10; 11; 0; 1]; [40; 41; 30; 31]]%Q, [[20; 21]; [50; 51]]%Q,
             [(0, 1); (1, 2)], None)).
Proof. vm_compute. reflexivity. Qed.

(** With a connectivity the autoregressive builder does drop the inactive
    columns of X and Y. *)
Example build_data_autoregressive_prunes :
  ∃ Y, build_data_autoregressive gauss_inv (ramp 6 2) [(0, 3); (3, 6)] 1
         (Some [[1; 0]; [0; 0]]%Q) false
       = ([], Ok ([[0]; [10]; [30]; [40]]%Q, Y, [(0, 2); (2, 4)], Some [[1%Q]])) ∧
       is_matrix 4 1 Y.
Proof.
  eexists. split; [vm_compute; reflexivity|].
  apply (bool_decide_unpack _). vm_compute. exact I.
Qed.

(** Lags -1, 0, 1 on two segments of four samples: two rows per segment,
    the three lags of channel 0 then the three lags of channel 1. *)
Example tde_embed_ex :
  tde_embed (ramp 8 2) [(0, 4); (4, 8)] [-1; 0; 1]
  = Ok ([[20; 10; 0; 21; 11; 1]; [30; 20; 10; 31; 21; 11];
         [60; 50; 40; 61; 51; 41]; [70; 60; 50; 71; 61; 51]]%Q,
        [(0, 2); (2, 4)]).
Proof. vm_compute. reflexivity. Qed.

(** The defaults of [preprocess_data] standardise every segment on its own. *)
Example preprocess_data_default_ex :
  match preprocess_data (ramp 4 2) [(0, 2); (2, 4)] default_options with
  | Ok (out, indices_new, log) =>
      out = [[-1; -1]; [1; 1]; [-1; -1]; [1; 1]]%Q ∧
      indices_new = [(0, 2); (2, 4)] ∧ log_p log = 2%nat
  | Raise _ => False
  end.
Proof. vm_compute. done. Qed.

(** ** The error monad *)

Lemma mapR_ok {B C} (f : B → result C) (g : B → C) (l : list B) :
  (∀ x, x ∈ l → f x = Ok (g x)) → mapR f l = Ok (g <$> l).
Proof.
  induction l as [|x l IH]; intros Hf; [done|].
  cbn. rewrite Hf by left. cbn.
  rewrite IH; [done|]. intros y Hy. apply Hf. by right.
Qed.

Lemma mapR_id_ok {B} (f : B → result B) (l : list B) :
  (∀ x, x ∈ l → f x = Ok x) → mapR f l = Ok l.
Proof.
  intros Hf. rewrite (mapR_ok f id) by done. by rewrite list_fmap_id.
Qed.

Lemma foldlM_app {S B} (f : S → B → result S) (l1 l2 : list B) (s : S) :
  foldlM f (l1 ++ l2) s = (s' ← foldlM f l1 s; foldlM f l2 s').
Proof.
  revert s. induction l1 as [|x l1 IH]; intros s; [done|].
  cbn. destruct (f s x); cbn; [apply IH|done].
Qed.

(** ** Index arithmetic *)

Lemma norm_index_ok (n : nat) (i : Z) :
  0 ≤ i < Z.of_nat n → norm_index n i = Ok (Z.to_nat i).
Proof. intros Hi. unfold norm_index. by rewrite decide_True. Qed.

Lemma norm_indices_ok (n : nat) (idx : list Z) :
  (∀ i, i ∈ idx → 0 ≤ i < Z.of_nat n) →
  mapR (norm_index n) idx = Ok (Z.to_nat <$> idx).
Proof. intros Hi. apply mapR_ok. intros i Hin. by apply norm_index_ok, Hi. Qed.

Lemma py_get_ok {B} (l : list B) (i : Z) (x : B) :
  0 ≤ i → l !! Z.to_nat i = Some x → py_get l i = Ok x.
Proof.
  intros Hi Hx. unfold py_get.
  rewrite norm_index_ok; [cbn; by rewrite Hx|].
  apply lookup_lt_Some in Hx. lia.
Qed.

Lemma take_idx_seqZ {B} (l : list B) (a n : Z) :
  0 ≤ a → a + n ≤ Z.of_nat (length l) →
  take_idx l (seqZ a n) = Ok (take (Z.to_nat n) (drop (Z.to_nat a) l)).
Proof.
  intros Ha Hn. unfold take_idx.
  destruct (decide (n ≤ 0)) as [Hn0|Hn0].
  { rewrite seqZ_nil by done. by replace (Z.to_nat n) with 0%nat by lia. }
  unfold seqZ.
  assert (∃ m, Z.to_nat n = m ∧ Z.of_nat m = n) as (m & -> & <-)
    by (exists (Z.to_nat n); lia).
  clear Hn0. revert a Ha Hn.
  induction m as [|m IH]; intros a Ha Hn; [done|].
  destruct (drop (Z.to_nat a) l) as [|x l'] eqn:Hd.
  { apply (f_equal length) in Hd. rewrite length_drop in Hd. simpl in Hd. lia. }
  cbn [seq fmap list_fmap mapR take].
  rewrite (py_get_ok l _ x); [|lia|].
  2:{ replace (Z.of_nat 0 + a) with a by lia.
      rewrite <-(Nat.add_0_r (Z.to_nat a)), <-lookup_drop, Hd. done. }
  cbn.
  assert (mapR (py_get l) ((λ i : nat, Z.of_nat i + a) <$> seq 1 m)
          = Ok (take m l')) as ->; [|done].
  rewrite <-fmap_S_seq, <-list_fmap_compose.
  specialize (IH (a + 1) ltac:(lia) ltac:(lia)).
  replace (Z.to_nat (a + 1)) with (S (Z.to_nat a)) in IH by lia.
  assert (drop (S (Z.to_nat a)) l = l') as Hl'.
  { change (S (Z.to_nat a)) with (1 + Z.to_nat a)%nat.
    rewrite Nat.add_comm, <-drop_drop, Hd. done. }
  rewrite Hl' in IH. rewrite <-IH. f_equal.
  apply list_fmap_ext. intros _ i _. simpl. lia.
Qed.

(** ** Block assignment *)

Section BlockAssignment.
Context {A : Type}.
Implicit Types (X V : matrix A) (row vals : list A) (rs cs : list nat).

Lemma set_entries_length row cs vals :
  length (set_entries row cs vals) = length row.
Proof.
  unfold set_entries. revert row vals.
  induction cs as [|c cs IH]; intros row [|v vals]; simpl; try done.
  by rewrite IH, length_insert.
Qed.

Lemma set_entries_other row cs vals c :
  c ∉ cs → set_entries row cs vals !! c = row !! c.
Proof.
  unfold set_entries. revert row vals.
  induction cs as [|c' cs IH]; intros row [|v vals] Hc; simpl; try done.
  apply not_elem_of_cons in Hc as [Hne Hc].
  rewrite IH by done. by rewrite list_lookup_insert_ne.
Qed.

Lemma set_entries_lookup row cs vals k c v :
  NoDup cs → (c < length row)%nat →
  cs !! k = Some c → vals !! k = Some v →
  set_entries row cs vals !! c = Some v.
Proof.
  unfold set_entries. revert row vals k.
  induction cs as [|c' cs IH]; intros row [|v' vals] k Hnd Hlt Hc Hv;
    simpl; try done.
  apply NoDup_cons in Hnd as [Hnin Hnd].
  destruct k as [|k]; simpl in *.
  - simplify_eq. fold (set_entries (<[c:=v]> row) cs vals).
    rewrite set_entries_other by done. by apply list_lookup_insert_eq.
  - eapply IH; eauto. by rewrite length_insert.
Qed.

Lemma write_rows_length X rs cs V :
  length (write_rows X rs cs V) = length X.
Proof.
  unfold write_rows. revert X V.
  induction rs as [|r rs IH]; intros X [|v V]; simpl; try done.
  rewrite IH. destruct (X !! r); [by rewrite length_insert|done].
Qed.

Lemma write_rows_other X rs cs V r :
  r ∉ rs → write_rows X rs cs V !! r = X !! r.
Proof.
  unfold write_rows. revert X V.
  induction rs as [|r' rs IH]; intros X [|v V] Hr; simpl; try done.
  apply not_elem_of_cons in Hr as [Hne Hr].
  rewrite IH by done.
  destruct (X !! r'); [by rewrite list_lookup_insert_ne|done].
Qed.

Lemma write_rows_lookup X rs cs V k r v row :
  NoDup rs → rs !! k = Some r → V !! k = Some v → X !! r = Some row →
  write_rows X rs cs V !! r = Some (set_entries row cs v).
Proof.
  unfold write_rows. revert X V k.
  induction rs as [|r' rs IH]; intros X [|v' V] k Hnd Hr Hv Hrow;
    simpl; try done.
  apply NoDup_cons in Hnd as [Hnin Hnd].
  destruct k as [|k]; simpl in *.
  - simplify_eq. rewrite Hrow.
    fold (write_rows (<[r:=set_entries row cs v]> X) rs cs V).
    rewrite write_rows_other by done.
    apply list_lookup_insert_eq. by apply lookup_lt_Some in Hrow.
  - destruct (decide (r' = r)) as [->|Hne].
    { exfalso. apply Hnin. by eapply list_elem_of_lookup_2. }
    eapply IH; eauto.
    destruct (X !! r'); [by rewrite list_lookup_insert_ne|done].
Qed.

Lemma write_rows_is_matrix n p X rs cs V :
  is_matrix n p X → is_matrix n p (write_rows X rs cs V).
Proof.
  intros [Hn Hp]. split; [by rewrite write_rows_length|].
  clear Hn. unfold write_rows. revert X V Hp.
  induction rs as [|r rs IH]; intros X [|v V] Hp; simpl; try done.
  apply IH. destruct (X !! r) as [row|] eqn:Hrow; [|done].
  apply Forall_insert; [done|].
  rewrite set_entries_length.
  by eapply Forall_lookup_1 in Hp.
Qed.

Lemma broadcast_same {B} (n : nat) (l : list B) :
  length l = n → broadcast n l = Ok l.
Proof. intros Hl. unfold broadcast. by rewrite decide_True. Qed.

Lemma is_matrix_ncols n p X : is_matrix n p X → (0 < n)%nat → ncols X = p.
Proof.
  intros [Hn Hp] Hpos. destruct X as [|row X]; simpl in *; [lia|].
  by apply Forall_cons_1 in Hp as [? _].
Qed.

(** In-range, duplicate-free index arrays and a value of the indexed
    shape: the assignment succeeds, keeps the shape, stores [V[k, c]] at
    [(rows[k], cols[c])] and leaves every other cell alone. *)
Lemma set_block_spec n p X (rows cols : list Z) V :
  is_matrix n p X → (0 < n)%nat →
  (∀ i, i ∈ rows → 0 ≤ i < Z.of_nat n) →
  (∀ i, i ∈ cols → 0 ≤ i < Z.of_nat p) →
  NoDup (Z.to_nat <$> rows) → NoDup (Z.to_nat <$> cols) →
  is_matrix (length rows) (length cols) V →
  ∃ X', set_block X rows cols V = Ok X' ∧ is_matrix n p X' ∧
    (∀ k c r0 c0, rows !! k = Some r0 → cols !! c = Some c0 →
       cell X' (Z.to_nat r0) (Z.to_nat c0) = cell V k c) ∧
    (∀ r, r ∉ (Z.to_nat <$> rows) → X' !! r = X !! r) ∧
    (∀ r c, c ∉ (Z.to_nat <$> cols) → cell X' r c = cell X r c).
Proof.
  intros HX Hn Hrows Hcols Hndr Hndc [HVn HVp].
  unfold set_block, nrows.
  destruct HX as [HXn HXp].
  rewrite HXn, (is_matrix_ncols n p X) by done.
  rewrite !norm_indices_ok by done. cbn.
  rewrite broadcast_same by (by rewrite length_fmap). cbn.
  rewrite mapR_id_ok.
  2:{ intros v Hv. apply broadcast_same. rewrite length_fmap.
      by eapply Forall_forall in HVp. }
  eexists; split; [done|].
  split; [by apply write_rows_is_matrix|].
  split_and!.
  - intros k c r0 c0 Hk Hc.
    assert (is_Some (X !! Z.to_nat r0)) as [row Hrow].
    { apply lookup_lt_is_Some. apply list_elem_of_lookup_2 in Hk.
      apply Hrows in Hk. lia. }
    assert (is_Some (V !! k)) as [v Hv].
    { apply lookup_lt_is_Some. rewrite HVn. by eapply lookup_lt_Some. }
    unfold cell.
    erewrite write_rows_lookup; eauto; [|by rewrite list_lookup_fmap, Hk].
    rewrite Hv. simpl.
    assert (length v = length cols) as Hlv by (by eapply Forall_lookup_1 in HVp).
    destruct (v !! c) as [x|] eqn:Hx.
    + eapply set_entries_lookup; eauto.
      * eapply Forall_lookup_1 in HXp; eauto. rewrite HXp.
        apply list_elem_of_lookup_2 in Hc. apply Hcols in Hc. lia.
      * by rewrite list_lookup_fmap, Hc.
    + apply lookup_ge_None in Hx. apply lookup_lt_Some in Hc. lia.
  - intros r Hr. by apply write_rows_other.
  - intros r c Hc. unfold cell.
    destruct (decide (r ∈ Z.to_nat <$> rows)) as [Hin|Hnin].
    + apply list_elem_of_lookup in Hin as [k Hk].
      assert (is_Some (X !! r)) as [row Hrow].
      { apply lookup_lt_is_Some. apply list_elem_of_lookup_2 in Hk.
        apply list_elem_of_fmap in Hk as (i & -> & Hi). apply Hrows in Hi. lia. }
      assert (is_Some (V !! k)) as [v Hv].
      { apply lookup_lt_is_Some. rewrite HVn.
        apply lookup_lt_Some in Hk. by rewrite length_fmap in Hk. }
      erewrite write_rows_lookup; eauto. rewrite Hrow. simpl.
      by apply set_entries_other.
    + by rewrite write_rows_other.
Qed.
End BlockAssignment.

(** ** Contiguous index ranges *)

Lemma fmap_add_r_seqZ (d a n : Z) : (λ t, t + d) <$> seqZ a n = seqZ (a + d) n.
Proof.
  rewrite (Z.add_comm a d), <-fmap_add_seqZ.
  apply list_fmap_ext. intros _ t _. lia.
Qed.

Lemma fmap_sub_r_seqZ (d a n : Z) : (λ t, t - d) <$> seqZ a n = seqZ (a - d) n.
Proof.
  replace (a - d) with (a + - d) by lia. rewrite <-fmap_add_r_seqZ.
  apply list_fmap_ext. intros _ t _. lia.
Qed.

Lemma to_nat_seqZ (a n : Z) :
  0 ≤ a → Z.to_nat <$> seqZ a n = seq (Z.to_nat a) (Z.to_nat n).
Proof.
  intros Ha. unfold seqZ. rewrite <-list_fmap_compose.
  apply list_eq. intros i. rewrite list_lookup_fmap.
  destruct (decide (i < Z.to_nat n)%nat) as [Hi|Hi].
  - rewrite !lookup_seq_lt by done. simpl. f_equal. lia.
  - rewrite !lookup_seq_ge by lia. done.
Qed.

Lemma NoDup_to_nat_seqZ (a n : Z) : 0 ≤ a → NoDup (Z.to_nat <$> seqZ a n).
Proof. intros Ha. rewrite to_nat_seqZ by done. apply NoDup_seq. Qed.

Lemma elem_of_to_nat_seqZ (a n : Z) (r : nat) :
  0 ≤ a → r ∈ Z.to_nat <$> seqZ a n ↔ a ≤ Z.of_nat r < a + n.
Proof.
  intros Ha. rewrite to_nat_seqZ by done. rewrite elem_of_seq. lia.
Qed.

Section Slices.
Context {A : Type}.

(** [M[r, c]] at integer positions known to be non-negative *)
Definition cellZ (M : matrix A) (r c : Z) : option A :=
  cell M (Z.to_nat r) (Z.to_nat c).

Lemma is_matrix_take_drop T p (M : matrix A) (a m : nat) :
  is_matrix T p M → (a + m ≤ T)%nat → is_matrix m p (take m (drop a M)).
Proof.
  intros [HT Hp] Ham. split.
  - rewrite length_take, length_drop. lia.
  - by apply Forall_take, Forall_drop.
Qed.

Lemma cell_take_drop (M : matrix A) (a m r c : nat) :
  (r < m)%nat → cell (take m (drop a M)) r c = cell M (a + r) c.
Proof.
  intros Hr. unfold cell. by rewrite lookup_take_lt, lookup_drop.
Qed.
End Slices.

(** ** The autoregressive embedding *)

Section AutoregressiveProofs.
Context {A : Type} `{Scalar A}.
Implicit Types (data X Y : matrix A).

Lemma ar_lag_spec data T p n kp s e k a i X :
  is_matrix T p data → is_matrix n kp X → (0 < n)%nat →
  0 ≤ s → 0 < k → s + k ≤ e → e ≤ Z.of_nat T →
  0 ≤ a → a + (e - s - k) ≤ Z.of_nat n →
  0 ≤ i < k → Z.of_nat kp = Z.of_nat p * k →
  ∃ X', ar_lag data s e k p (seqZ a (e - s - k)) X i = Ok X' ∧
    is_matrix n kp X' ∧
    (∀ r c, 0 ≤ r < e - s - k → 0 ≤ c < Z.of_nat p →
       cellZ X' (a + r) (i * Z.of_nat p + c)
       = cellZ data (s + k - (i + 1) + r) c) ∧
    (∀ r, ¬ (a ≤ Z.of_nat r < a + (e - s - k)) → X' !! r = X !! r) ∧
    (∀ r c, ¬ (i * Z.of_nat p ≤ Z.of_nat c < i * Z.of_nat p + Z.of_nat p) →
       cell X' r c = cell X r c).
Proof.
  intros Hdata HX Hn Hs Hk Hse HeT Ha Han Hi Hkp.
  unfold ar_lag, arange.
  replace (e - (i + 1) - (s + k - (i + 1))) with (e - s - k) by lia.
  replace (Z.of_nat p - 0) with (Z.of_nat p) by lia.
  rewrite fmap_add_r_seqZ, Z.add_0_l. simpl.
  pose proof (proj1 Hdata) as HT.
  rewrite take_idx_seqZ by lia. cbn.
  set (m := e - s - k) in *.
  set (V := take (Z.to_nat m) (drop (Z.to_nat (s + k - (i + 1))) data)).
  assert (is_matrix (length (seqZ a m)) (length (seqZ (i * Z.of_nat p) (Z.of_nat p))) V) as HV.
  { rewrite !length_seqZ, Nat2Z.id.
    eapply is_matrix_take_drop; [done|]. lia. }
  destruct (set_block_spec n kp X (seqZ a m) (seqZ (i * Z.of_nat p) (Z.of_nat p)) V)
    as (X' & -> & HX' & Hset & Hrows & Hcols); try done.
  - intros r Hr. apply elem_of_seqZ in Hr. lia.
  - intros c Hc. apply elem_of_seqZ in Hc. nia.
  - apply NoDup_to_nat_seqZ; lia.
  - apply NoDup_to_nat_seqZ; nia.
  - exists X'. split; [done|]. split; [done|]. split_and!.
    + intros r c Hr Hc. unfold cellZ.
      rewrite (Hset (Z.to_nat r) (Z.to_nat c) (a + r) (i * Z.of_nat p + c)).
      * unfold V. rewrite cell_take_drop by lia. f_equal. lia.
      * rewrite lookup_seqZ_lt by lia. f_equal. lia.
      * rewrite lookup_seqZ_lt by lia. f_equal. lia.
    + intros r Hr. apply Hrows. rewrite elem_of_to_nat_seqZ by lia. lia.
    + intros r c Hc. apply Hcols. rewrite elem_of_to_nat_seqZ by nia. lia.
Qed.

Lemma ar_lags_spec data T p n kp s e k a X (k' : nat) :
  is_matrix T p data → is_matrix n kp X → (0 < n)%nat →
  0 ≤ s → 0 < k → s + k ≤ e → e ≤ Z.of_nat T →
  0 ≤ a → a + (e - s - k) ≤ Z.of_nat n →
  Z.of_nat k' ≤ k → Z.of_nat kp = Z.of_nat p * k →
  ∃ X', foldlM (ar_lag data s e k p (seqZ a (e - s - k)))
               (seqZ 0 (Z.of_nat k')) X = Ok X' ∧
    is_matrix n kp X' ∧
    (∀ i r c, 0 ≤ i < Z.of_nat k' → 0 ≤ r < e - s - k → 0 ≤ c < Z.of_nat p →
       cellZ X' (a + r) (i * Z.of_nat p + c)
       = cellZ data (s + k - (i + 1) + r) c) ∧
    (∀ r, ¬ (a ≤ Z.of_nat r < a + (e - s - k)) → X' !! r = X !! r).
Proof.
  intros Hdata HX Hn Hs Hk Hse HeT Ha Han Hk' Hkp.
  induction k' as [|k' IH].
  { exists X. split; [done|]. split; [done|]. split; [|done]. intros; lia. }
  destruct IH as (X1 & Hfold & HX1 & Hcells & Hrows); [lia|].
  rewrite seqZ_S, foldlM_app, Hfold. cbn.
  destruct (ar_lag_spec data T p n kp s e k a (0 + Z.of_nat k') X1)
    as (X2 & -> & HX2 & Hcells2 & Hrows2 & Hcols2); try done; [lia|].
  exists X2. split; [done|]. split; [done|]. split.
  - intros i r c Hi Hr Hc.
    destruct (decide (i = Z.of_nat k')) as [->|Hne].
    + rewrite <-Hcells2 by done. do 2 f_equal.
    + rewrite <-Hcells by lia. unfold cellZ. apply Hcols2. nia.
  - intros r Hr. by rewrite Hrows2, Hrows.
Qed.

Lemma wf_segments_bound w lo T segs :
  0 ≤ w → wf_segments w lo T segs →
  lo + Z.of_nat (length segs) * (w + 1) ≤ T.
Proof.
  intros Hw. revert lo.
  induction segs as [|[s e] segs IH]; intros lo Hwf; simpl in *; [lia|].
  destruct Hwf as (Hlo & Hse & Hwf). apply IH in Hwf. lia.
Qed.

Lemma wf_segments_lookup w lo T segs (j : nat) s e :
  0 ≤ w → wf_segments w lo T segs → segs !! j = Some (s, e) →
  lo ≤ s ∧ s + w < e ∧ e ≤ T.
Proof.
  intros Hw. revert lo j.
  induction segs as [|[s' e'] segs IH]; intros lo j Hwf Hj; [done|].
  simpl in Hwf. destruct Hwf as (Hlo & Hse & Hwf).
  pose proof (wf_segments_bound w e' T segs Hw Hwf) as Hb.
  destruct j as [|j]; simpl in Hj.
  - simplify_eq. lia.
  - destruct (IH e' j Hwf Hj) as (? & ? & ?). lia.
Qed.

Lemma py_get_first_seqZ a m : 0 < m → py_get (seqZ a m) 0 = Ok a.
Proof.
  intros Hm. apply py_get_ok; [done|].
  rewrite lookup_seqZ_lt by lia. f_equal. lia.
Qed.

Lemma py_get_last_seqZ a m : 0 < m → py_get (seqZ a m) (-1) = Ok (a + m - 1).
Proof.
  intros Hm. unfold py_get, norm_index. rewrite length_seqZ.
  rewrite decide_False by lia. rewrite decide_True by lia. cbn.
  rewrite lookup_seqZ_lt by lia. f_equal. lia.
Qed.

Lemma ar_segment_spec data T p n kp k (j : nat) s e X Y inew :
  is_matrix T p data → is_matrix n kp X → is_matrix n p Y → (0 < n)%nat →
  0 < k → 0 ≤ s → s + k < e → e ≤ Z.of_nat T →
  0 ≤ s - Z.of_nat j * k → e - k - Z.of_nat j * k ≤ Z.of_nat n →
  Z.of_nat kp = Z.of_nat p * k →
  let a := s - Z.of_nat j * k in
  ∃ X' Y', ar_segment data k p (X, Y, inew) (j, (s, e))
           = Ok (X', Y', <[j := (a, a + (e - s - k))]> inew) ∧
    is_matrix n kp X' ∧ is_matrix n p Y' ∧
    (∀ r c, 0 ≤ r < e - s - k → 0 ≤ c < Z.of_nat p →
       cellZ Y' (a + r) c = cellZ data (s + k + r) c ∧
       ∀ i, 0 ≤ i < k →
         cellZ X' (a + r) (i * Z.of_nat p + c)
         = cellZ data (s + k + r - (i + 1)) c) ∧
    (∀ r, ¬ (a ≤ Z.of_nat r < a + (e - s - k)) →
       X' !! r = X !! r ∧ Y' !! r = Y !! r).
Proof.
  intros Hdata HX HY Hn Hk Hs Hse HeT Ha Han Hkp a.
  pose proof (proj1 Hdata) as HT.
  unfold ar_segment, arange, set_rows.
  rewrite fmap_sub_r_seqZ. fold a.
  replace (e - k - s) with (e - s - k) by lia.
  replace (e - (s + k)) with (e - s - k) by lia.
  set (m := e - s - k) in *.
  rewrite take_idx_seqZ by lia. cbn.
  rewrite (is_matrix_ncols n p Y) by done. unfold arange.
  replace (Z.of_nat p - 0) with (Z.of_nat p) by lia.
  set (V := take (Z.to_nat m) (drop (Z.to_nat (s + k)) data)).
  destruct (set_block_spec n p Y (seqZ a m) (seqZ 0 (Z.of_nat p)) V)
    as (Y' & -> & HY' & HsetY & HrowsY & _); try done.
  { intros r Hr. apply elem_of_seqZ in Hr. lia. }
  { intros c Hc. apply elem_of_seqZ in Hc. lia. }
  { apply NoDup_to_nat_seqZ; lia. }
  { apply NoDup_to_nat_seqZ; lia. }
  { rewrite !length_seqZ, Nat2Z.id.
    eapply is_matrix_take_drop; [done|]. lia. }
  cbn.
  destruct (ar_lags_spec data T p n kp s e k a X (Z.to_nat k))
    as (X' & HfoldX & HX' & HcellsX & HrowsX); try done; try lia.
  replace (k - 0) with (Z.of_nat (Z.to_nat k)) by lia.
  fold m in HfoldX. rewrite HfoldX. cbn.
  rewrite py_get_first_seqZ by lia. cbn.
  rewrite py_get_last_seqZ by lia. cbn.
  replace (a + m - 1 + 1) with (a + m) by lia.
  exists X', Y'. split; [done|]. split; [done|]. split; [done|]. split.
  - intros r c Hr Hc. split.
    + unfold cellZ.
      rewrite (HsetY (Z.to_nat r) (Z.to_nat c) (a + r) c).
      * unfold V. rewrite cell_take_drop by lia. f_equal. lia.
      * rewrite lookup_seqZ_lt by lia. f_equal. lia.
      * rewrite lookup_seqZ_lt by lia. f_equal. lia.
    + intros i Hi. rewrite HcellsX by lia. f_equal. lia.
  - intros r Hr. split; [by apply HrowsX|].
    apply HrowsY. rewrite elem_of_to_nat_seqZ by lia. lia.
Qed.

(** The loop over the segments [segs], numbered from [j0], starting in a
    state whose rows below [lo - j0 * k] are final. *)
Lemma ar_segments_spec data T p n kp k :
  is_matrix T p data → 0 < k → Z.of_nat kp = Z.of_nat p * k →
  ∀ segs (j0 : nat) lo X Y inew,
    is_matrix n kp X → is_matrix n p Y →
    wf_segments k lo (Z.of_nat T) segs →
    0 ≤ lo → Z.of_nat j0 * k ≤ lo →
    Z.of_nat n = Z.of_nat T - Z.of_nat (j0 + length segs) * k →
    ∃ X' Y' inew',
      foldlM (ar_segment data k p) (imap (λ j x, ((j0 + j)%nat, x)) segs)
             (X, Y, inew) = Ok (X', Y', inew') ∧
      is_matrix n kp X' ∧ is_matrix n p Y' ∧
      length inew' = length inew ∧
      (∀ r, Z.of_nat r < lo - Z.of_nat j0 * k →
         X' !! r = X !! r ∧ Y' !! r = Y !! r) ∧
      (∀ j, (j < j0)%nat → inew' !! j = inew !! j) ∧
      (∀ j s e, segs !! j = Some (s, e) →
         (j0 + j < length inew)%nat →
         let a := s - Z.of_nat (j0 + j) * k in
         inew' !! (j0 + j)%nat = Some (a, a + (e - s - k)) ∧
         ∀ r c, 0 ≤ r < e - s - k → 0 ≤ c < Z.of_nat p →
           cellZ Y' (a + r) c = cellZ data (s + k + r) c ∧
           ∀ i, 0 ≤ i < k →
             cellZ X' (a + r) (i * Z.of_nat p + c)
             = cellZ data (s + k + r - (i + 1)) c).
Proof.
  intros Hdata Hk Hkp segs.
  induction segs as [|[s e] segs IH]; intros j0 lo X Y inew HX HY Hwf Hlo Hj0 Hn.
  { exists X, Y, inew. split; [done|]. split_and!; done. }
  simpl in Hwf. destruct Hwf as (Hlos & Hse & Hwf).
  pose proof (wf_segments_bound k e (Z.of_nat T) segs ltac:(lia) Hwf) as Hbound.
  simpl length in Hn.
  destruct (ar_segment_spec data T p n kp k j0 s e X Y inew)
    as (X1 & Y1 & Hseg & HX1 & HY1 & Hcells1 & Hframe1); try done; try nia.
  cbn [imap foldlM]. rewrite Nat.add_0_r, Hseg. cbn.
  set (a0 := s - Z.of_nat j0 * k) in *.
  destruct (IH (S j0) e X1 Y1 (<[j0:=(a0, a0 + (e - s - k))]> inew))
    as (X2 & Y2 & inew2 & Hfold & HX2 & HY2 & Hlen & Hframe2 & Hinew2 & Hcells2);
    try done; try nia.
  erewrite imap_ext; [rewrite Hfold|].
  2:{ intros j x _. simpl. f_equal. lia. }
  exists X2, Y2, inew2. split; [done|].
  rewrite length_insert in Hlen.
  split_and!; try done.
  - intros r Hr. destruct (Hframe2 r) as [-> ->]; [lia|].
    apply Hframe1. unfold a0. lia.
  - intros j Hj. rewrite Hinew2 by lia. by rewrite list_lookup_insert_ne by lia.
  - intros [|j] s' e' Hj Hjlen; simpl in Hj.
    + assert (s' = s ∧ e' = e) as [-> ->] by (by simplify_eq).
      rewrite Nat.add_0_r. fold a0. split.
      * rewrite Hinew2 by lia. apply list_lookup_insert_eq. lia.
      * intros r c Hr Hc.
        assert (Z.of_nat (Z.to_nat (a0 + r)) < e - Z.of_nat (S j0) * k) as Hlt
          by (unfold a0; lia).
        destruct (Hframe2 _ Hlt) as [HXr HYr].
        destruct (Hcells1 r c Hr Hc) as [HYc HXc].
        unfold cellZ, cell in *. rewrite HXr, HYr. done.
    + replace (j0 + S j)%nat with (S j0 + j)%nat by lia.
      apply Hcells2; [done|]. rewrite length_insert. lia.
Qed.

Lemma transpose_length p (M : matrix A) : length (transpose p M) = p.
Proof. unfold transpose. by rewrite length_fmap, length_seq. Qed.

Lemma center_is_matrix n p (M : matrix A) :
  is_matrix n p M → is_matrix n p (center M).
Proof.
  intros HM. pose proof HM as [Hn Hp].
  unfold center, sub_rowvec. split; [by rewrite length_fmap|].
  destruct (decide (0 < n)%nat) as [Hpos|Hpos].
  - apply Forall_fmap. eapply Forall_impl; [done|].
    intros row Hrow. simpl in *.
    rewrite length_zip_with. unfold col_means, columns.
    rewrite length_fmap, transpose_length, (is_matrix_ncols n p M) by done.
    lia.
  - destruct M; simpl in *; [done|lia].
Qed.

Lemma np_zeros_is_matrix (n p : Z) :
  0 ≤ n → 0 ≤ p →
  ∃ M : matrix A, np_zeros n p = Ok M ∧ is_matrix (Z.to_nat n) (Z.to_nat p) M.
Proof.
  intros Hn Hp. unfold np_zeros. rewrite decide_True by done.
  eexists; split; [done|]. unfold np_full. split.
  - by rewrite length_replicate.
  - apply Forall_replicate. by rewrite length_replicate.
Qed.

(** The embedding built by the autoregressive builder, before centering. *)
Lemma ar_builder_spec (linalg_inv : matrix A → result (matrix A))
    data (T : nat) (indices : list (Z * Z)) (k : Z) (center_data : bool) :
  is_matrix T (ncols data) data → 1 ≤ k →
  wf_segments k 0 (Z.of_nat T) indices →
  let p := Z.of_nat (ncols data) in
  let N := Z.of_nat (length indices) in
  ∃ X0 Y0 inew,
    build_data_autoregressive linalg_inv data indices k None center_data
    = ([], Ok (if center_data then center X0 else X0,
               if center_data then center Y0 else Y0, inew, None)) ∧
    is_matrix (Z.to_nat (Z.of_nat T - N * k)) (Z.to_nat (p * k)) X0 ∧
    is_matrix (Z.to_nat (Z.of_nat T - N * k)) (Z.to_nat p) Y0 ∧
    N * k ≤ Z.of_nat T ∧
    length inew = length indices ∧
    ∀ j s e, indices !! j = Some (s, e) →
      let a := s - Z.of_nat j * k in
      inew !! j = Some (a, a + (e - s - k)) ∧
      ∀ r c, 0 ≤ r < e - s - k → 0 ≤ c < p →
        cellZ Y0 (a + r) c = cellZ data (s + k + r) c ∧
        ∀ i, 0 ≤ i < k →
          cellZ X0 (a + r) (i * p + c) = cellZ data (s + k + r - (i + 1)) c.
Proof.
  intros Hdata Hk Hwf p N.
  pose proof (wf_segments_bound k 0 (Z.of_nat T) indices ltac:(lia) Hwf) as Hb.
  unfold build_data_autoregressive, nrows. rewrite decide_False by lia.
  rewrite (proj1 Hdata). fold p N.
  destruct (np_zeros_is_matrix (Z.of_nat T - N * k) (p * k))
    as (X & -> & HX); [nia|nia|].
  destruct (np_zeros_is_matrix (Z.of_nat T - N * k) p)
    as (Y & -> & HY); [nia|lia|].
  cbn.
  destruct (ar_segments_spec data T (ncols data) (Z.to_nat (Z.of_nat T - N * k))
              (Z.to_nat (p * k)) k Hdata ltac:(lia) ltac:(nia)
              indices 0%nat 0 X Y (replicate (length indices) (0, 0)))
    as (X' & Y' & inew & Hfold & HX' & HY' & Hlen & _ & _ & Hcells);
    try done; try nia.
  { unfold p in HY. by rewrite Nat2Z.id in HY. }
  unfold enumerate.
  erewrite imap_ext; [rewrite Hfold|done]. cbn.
  rewrite length_replicate in Hlen.
  exists X', Y', inew. split; [by destruct center_data|].
  split; [done|]. split; [unfold p; by rewrite Nat2Z.id|].
  split; [nia|]. split; [done|].
  intros j s e Hj. apply (Hcells j s e Hj).
  rewrite length_replicate. by eapply lookup_lt_Some.
Qed.
End AutoregressiveProofs.

(** C6. Order 0 is a no-op that raises nothing: whatever the data, the
    SegmentIndex, the connectivity and the centering flag, the builder
    returns an empty predictor array, the input data as Y, the SegmentIndex
    and the connectivity as they were passed, and issues exactly one
    warning. *)
Theorem build_data_autoregressive_order_zero :
  ∀ (A : Type) (SA : Scalar A) (linalg_inv : matrix A → result (matrix A))
    (data : matrix A) (indices : list (Z * Z))
    (connectivity : option (matrix A)) (center_data : bool),
    build_data_autoregressive linalg_inv data indices 0 connectivity center_data
    = ([UserWarning "autoregressive_order is 0 so nothing to be done"],
       Ok ([], data, indices, connectivity)).
Proof. intros. unfold build_data_autoregressive. by rewrite decide_True. Qed.

(** C5. The autoregressive embedding.  For every 100 x 3 array with
    SegmentIndex [[0,50],[50,100]], order 2, no connectivity and centering,
    X is 96 x 6, Y is 96 x 3 and the new SegmentIndex is [[0,48],[48,96]].
    In general, for order [k >= 1] and a well-formed SegmentIndex whose
    segments are longer than [k], the builder returns; segment [j] with
    bounds [(s, e)] occupies the [e - s - k] output rows starting at
    [a = s - j * k]; output row [a + r] is aligned to source sample
    [t = s + k + r] (that is the row of Y); and column [i * p + c] of X,
    the lag-major position of channel [c] in lag block [i], holds source
    sample [t - (i + 1)] of channel [c].  Centering, when asked, subtracts
    the column means of these arrays. *)
Theorem build_data_autoregressive_embedding :
  ∀ (A : Type) (SA : Scalar A) (linalg_inv : matrix A → result (matrix A)),
    (∀ data : matrix A, is_matrix 100 3 data →
       ∃ X Y,
         build_data_autoregressive linalg_inv data [(0, 50); (50, 100)] 2 None true
         = ([], Ok (X, Y, [(0, 48); (48, 96)], None)) ∧
         is_matrix 96 6 X ∧ is_matrix 96 3 Y)
    ∧
    (∀ (data : matrix A) (T : nat) (indices : list (Z * Z)) (k : Z)
       (center_data : bool),
       is_matrix T (ncols data) data → 1 ≤ k →
       wf_segments k 0 (Z.of_nat T) indices →
       let p := Z.of_nat (ncols data) in
       let N := Z.of_nat (length indices) in
       ∃ X0 Y0 inew,
         build_data_autoregressive linalg_inv data indices k None center_data
         = ([], Ok (if center_data then center X0 else X0,
                    if center_data then center Y0 else Y0, inew, None)) ∧
         is_matrix (Z.to_nat (Z.of_nat T - N * k)) (Z.to_nat (p * k)) X0 ∧
         is_matrix (Z.to_nat (Z.of_nat T - N * k)) (Z.to_nat p) Y0 ∧
         N * k ≤ Z.of_nat T ∧
         length inew = length indices ∧
         ∀ j s e, indices !! j = Some (s, e) →
           let a := s - Z.of_nat j * k in
           inew !! j = Some (a, a + (e - s - k)) ∧
           ∀ r c, 0 ≤ r < e - s - k → 0 ≤ c < p →
             cellZ Y0 (a + r) c = cellZ data (s + k + r) c ∧
             ∀ i, 0 ≤ i < k →
               cellZ X0 (a + r) (i * p + c)
               = cellZ data (s + k + r - (i + 1)) c).
Proof.
  intros A SA linalg_inv. split.
  - intros data Hdata.
    assert (ncols data = 3%nat) as Hp by (by apply (is_matrix_ncols 100 3); [|lia]).
    destruct (ar_builder_spec linalg_inv data 100 [(0, 50); (50, 100)] 2 true)
      as (X0 & Y0 & inew & Heq & HX0 & HY0 & _ & Hlen & Hseg).
    { by rewrite Hp. }
    { lia. }
    { simpl. lia. }
    rewrite Hp in *.
    destruct (Hseg 0%nat 0 50 eq_refl) as [H0 _].
    destruct (Hseg 1%nat 50 100 eq_refl) as [H1 _].
    destruct inew as [|i0 [|i1 [|i2 inew]]]; simpl in *; try done.
    simplify_eq. rewrite Heq.
    exists (center X0), (center Y0). split; [done|].
    split; by apply center_is_matrix.
  - intros data T indices k center_data Hdata Hk Hwf.
    by apply ar_builder_spec.
Qed.

(** The embedding on a 100 x 3 array with the SegmentIndex of the scenario,
    and on a 6 x 2 array with two segments and order 1. *)
Lemma build_data_autoregressive_embedding_witness :
  (is_matrix 100 3 (ramp 100 3) ∧
   ∃ X Y,
     build_data_autoregressive gauss_inv (ramp 100 3) [(0, 50); (50, 100)] 2 None true
     = ([], Ok (X, Y, [(0, 48); (48, 96)], None)) ∧
     is_matrix 96 6 X ∧ is_matrix 96 3 Y)
  ∧
  (is_matrix 6 (ncols (ramp 6 2)) (ramp 6 2) ∧ 1 ≤ 1 ∧
   wf_segments 1 0 (Z.of_nat 6) [(0, 3); (3, 6)] ∧
   ∃ X0 Y0 inew,
     build_data_autoregressive gauss_inv (ramp 6 2) [(0, 3); (3, 6)] 1 None false
     = ([], Ok (X0, Y0, inew, None)) ∧
     inew !! 1%nat = Some (2, 4) ∧
     cellZ X0 2 1 = cellZ (ramp 6 2) 3 1).
Proof.
  pose proof (build_data_autoregressive_embedding Q Q_scalar gauss_inv)
    as [Hscenario Hgeneral].
  assert (is_matrix 100 3 (ramp 100 3)) as H100
    by (apply (bool_decide_unpack _); vm_compute; exact I).
  assert (is_matrix 6 (ncols (ramp 6 2)) (ramp 6 2)) as H6
    by (apply (bool_decide_unpack _); vm_compute; exact I).
  assert (wf_segments 1 0 (Z.of_nat 6) [(0, 3); (3, 6)]) as Hwf
    by (simpl; lia).
  split.
  - split; [exact H100|]. exact (Hscenario (ramp 100 3) H100).
  - split; [exact H6|]. split; [lia|]. split; [exact Hwf|].
    destruct (Hgeneral (ramp 6 2) 6%nat [(0, 3); (3, 6)] 1 false H6 ltac:(lia) Hwf)
      as (X0 & Y0 & inew & Heq & _ & _ & _ & _ & Hseg).
    exists X0, Y0, inew. split; [exact Heq|].
    destruct (Hseg 1%nat 3 6 eq_refl) as [Hinew Hcells].
    split; [exact Hinew|].
    destruct (Hcells 0 1 ltac:(lia) ltac:(simpl; lia)) as [_ HX].
    exact (HX 0 ltac:(lia)).
Defined.

(** ** build_data_partial_connectivity *)

(** Whatever the connectivity, the first returned array is the whole of [X]
    (centred when asked): no predictor column is ever dropped from it. *)
Lemma build_data_partial_connectivity_X_new :
  ∀ (A : Type) (SA : Scalar A) (linalg_inv : matrix A → result (matrix A))
    (X Y : matrix A) (connectivity : option (matrix A)) (center_data : bool)
    (X_new Y_new : matrix A) (connectivity_new : option (matrix A)),
    build_data_partial_connectivity linalg_inv X Y connectivity center_data
    = Ok (X_new, Y_new, connectivity_new) →
    X_new = if center_data then center X else X.
Proof.
  intros A SA linalg_inv X Y connectivity center_data X_new Y_new cn.
  unfold build_data_partial_connectivity.
  destruct connectivity as [conn|]; cbn.
  - destruct (foldlM _ _ _); cbn; [|done].
    destruct (active_predictors _ _); cbn; [|done].
    destruct (active_targets _ _); cbn; [|done].
    destruct (select_cols Y _); cbn; [|done].
    destruct (select_cols X _); cbn; [|done].
    destruct (restrict _ _ _); cbn; [|done].
    by intros [= <- _ _].
  - by intros [= <- _ _].
Qed.

(** C1. With the connectivity [[1,0],[0,0]] only predictor 0 and target 0
    are active and the returned connectivity is the 1 x 1 restriction, but
    the returned X and Y keep both columns: X is returned as passed and Y
    has two columns, column 0 regressed on the disallowed predictor 1. *)
Theorem build_data_partial_connectivity_keeps_inactive_columns :
  active_predictors [[1; 0]; [0; 0]]%Q 2 = Ok [0%nat] ∧
  active_targets [[1; 0]; [0; 0]]%Q 2 = Ok [0%nat] ∧
  build_data_partial_connectivity gauss_inv
    [[1; 2]; [3; 4]]%Q [[5; 6]; [7; 8]]%Q (Some [[1; 0]; [0; 0]]%Q) false
  = Ok ([[1; 2]; [3; 4]]%Q,
        [[24005 # 20001; 62006 # 4030001]; [-11993 # 20001; -25992 # 4030001]]%Q,
        Some [[1%Q]]).
Proof. split_and!; vm_compute; reflexivity. Qed.

(** ** apply_pca, apply_ica: the sign convention *)

(** C4. The scores [3, -5, 2] of a single component have their sample of
    maximal absolute value, [-5], negative; the convention as the spec
    words it flips the column, the loop of [apply_pca] and [apply_ica]
    leaves it as it is, because it looks for the sample whose absolute
    value equals the absolute value of the maximum, [3].  [apply_pca] on
    the single-channel data [3, -5, 2] returns exactly these scores, and
    [apply_ica] returns scores whose largest sample is still negative. *)
Theorem sign_convention_misses_negative_peak :
  argmax_abs [3; -5; 2]%Q = Ok 1%nat ∧
  sign_convention_column_spec [[3]; [-5]; [2]]%Q 0 = Ok [[-3]; [5]; [-2]]%Q ∧
  sign_convention [[3]; [-5]; [2]]%Q [0%nat] = Ok [[3]; [-5]; [2]]%Q ∧
  apply_pca_owned [[3]; [-5]; [2]]%Q (PyInt 1) false true
  = Ok ([[3]; [-5]; [2]]%Q, Some [0%Q]) ∧
  apply_ica [[3]; [-5]; [2]]%Q (PyInt 1) Parallel
  = Ok ([[500000 # 593171]; [-2500000 # 1779513]; [1000000 # 1779513]]%Q, [0%Q]).
Proof. split_and!; vm_compute; reflexivity. Qed.

(** ** apply_pca: the caller's array *)

(** With a projection matrix, the array object passed as [X] holds the
    centred data after the call. *)
Lemma apply_pca_matrix_centres_argument :
  ∀ (A : Type) (SA : Scalar A) (SK : Sklearn A) (X : ref) (D : matrix A)
    (whitening exact : bool) (h : store A),
    (X < length h)%nat →
    st_get (apply_pca X (PyArray D) whitening exact h).2 X = center (st_get h X).
Proof.
  intros A SA SK X D whitening exact h HX.
  unfold apply_pca, st_alloc, st_set.
  destruct (matmul _ D) as [P|e]; cbn.
  - unfold st_get. rewrite list_lookup_insert_ne by (rewrite length_insert; lia).
    rewrite lookup_app_l by (rewrite length_insert; lia).
    by rewrite list_lookup_insert_eq.
  - unfold st_get. by rewrite list_lookup_insert_eq.
Qed.

(** C9. [apply_pca] with the 1 x 1 projection matrix [[1]] on the array
    [[1],[3]]: the call returns a new array, and the array object the
    caller passed, at reference 0, no longer holds [[1],[3]] but the
    centred data [[-1],[1]]. *)
Theorem apply_pca_matrix_mutates_argument :
  apply_pca 0%nat (PyArray [[1%Q]]) false true [[[1]; [3]]%Q]
  = (Ok (1%nat, None), [[[-1]; [1]]%Q; [[-1]; [1]]%Q]) ∧
  st_get (apply_pca 0%nat (PyArray [[1%Q]]) false true [[[1]; [3]]%Q]).2 0%nat
  ≠ [[1]; [3]]%Q.
Proof. split; vm_compute; [reflexivity|discriminate]. Qed.

(** ** preprocess_data: peak dampening *)

(** C3. Passing [True] for [dampen_extreme_peaks]: [True] is an instance
    of [int], so the strength is the value of [True], 1, and the data are
    dampened with logarithms to base 1; the default base 5 is used only
    for a true value that is not an [int], a float for instance. *)
Theorem dampening_strength_of_True :
  ∀ (A : Type) (SA : Scalar A) (indices : list (Z * Z)) (data : matrix A),
    dampening_strength (PyBool true) = Ok (s_of_Z 1) ∧
    stage_dampen (PyBool true) indices data
    = (centred ← per_segment (λ seg, Ok (center seg)) indices data;
       Ok (dampen_peaks centred (s_of_Z 1))) ∧
    ∀ x : A, dampening_strength (PyFloat x) = Ok (s_of_Z 5).
Proof. intros. split_and!; reflexivity. Qed.

(** ** build_data_tde with the single lag 0 *)

Lemma py_slice_0_0 {B} (l : list B) : py_slice l (- 0) (- 0) = [].
Proof. unfold py_slice, clip_bound. simpl. by rewrite Nat.sub_diag. Qed.

Lemma np_full_ncols {B} (z : B) (n p : nat) :
  (0 < n)%nat → ncols (np_full z n p) = p.
Proof.
  intros Hn. unfold np_full. destruct n; [lia|]. simpl. apply length_replicate.
Qed.

Lemma set_block_no_rows_raises {B} (X : matrix B) (rows cols : list Z) :
  rows ≠ [] →
  (∀ i, i ∈ rows → 0 ≤ i < Z.of_nat (nrows X)) →
  (∀ i, i ∈ cols → 0 ≤ i < Z.of_nat (ncols X)) →
  set_block X rows cols [] = Raise ValueError.
Proof.
  intros Hne Hrows Hcols. unfold set_block.
  rewrite !norm_indices_ok by done. cbn.
  unfold broadcast. rewrite length_fmap.
  destruct rows; [done|]. by rewrite decide_False.
Qed.

Lemma tde_segment_lag_zero_raises {A : Type} `{Scalar A}
    (data : matrix A) (n p : nat) (inew : list (Z * Z)) (s e : Z) :
  0 ≤ s → s < e → e ≤ Z.of_nat (nrows data) →
  nrows data = n → (0 < n)%nat →
  tde_segment data [0] 0 0 p
    (np_full s_zero n (Z.to_nat (Z.of_nat p * Z.of_nat 1)), inew) (0%nat, (s, e))
  = Raise ValueError.
Proof.
  intros Hs Hse He Hn Hpos.
  unfold tde_segment.
  cbn [enumerate imap foldlM length].
  unfold tde_lag, arange.
  rewrite take_idx_seqZ by (unfold nrows in *; lia).
  cbn [mbind result_bind].
  rewrite py_slice_0_0.
  rewrite set_block_no_rows_raises; [done|..].
  - replace (e - (0 - 0) - s) with (e - s) by lia.
    rewrite seqZ_cons by lia. done.
  - intros i Hi. apply list_elem_of_fmap in Hi as (t & -> & Ht).
    apply elem_of_seqZ in Ht.
    unfold nrows, np_full in *. rewrite length_replicate. lia.
  - intros i Hi. unfold arange_step in Hi.
    apply list_elem_of_fmap in Hi as (q & -> & Hq).
    apply elem_of_seqZ in Hq.
    rewrite np_full_ncols by done.
    replace (Z.of_nat 1 * Z.of_nat p - Z.of_nat 0 + Z.of_nat 1 - 1)
      with (Z.of_nat p) in Hq by lia.
    rewrite Z.div_1_r in Hq. lia.
Qed.

(** C2. With [lags = [0]] the window is 0 and the clipping slice
    [X_l[-minlag:-maxlag]] is [X_l[0:0]], which is empty; assigning it to
    the rows of a segment that has at least one sample raises
    [ValueError].  So for every array and every SegmentIndex whose first
    segment is a non-empty range of rows of the array, the builder raises
    instead of returning a standardised copy. *)
Theorem build_data_tde_lag_zero_raises :
  ∀ (A : Type) (SA : Scalar A) (SK : Sklearn A) (data : matrix A) (s e : Z)
    (rest : list (Z * Z)) (pca : pyval A) (standardise_pc : bool),
    0 ≤ s → s < e → e ≤ Z.of_nat (nrows data) →
    build_data_tde data ((s, e) :: rest) [0] pca standardise_pc = Raise ValueError.
Proof.
  intros A SA SK data s e rest pca std_pc Hs Hse He.
  unfold build_data_tde, tde_embed. cbn [np_min_Z np_max_Z foldl mbind result_bind].
  unfold np_zeros. rewrite decide_True by (unfold nrows in *; lia).
  cbn [mbind result_bind enumerate imap foldlM].
  replace (Z.to_nat (Z.of_nat (nrows data)
                     - Z.of_nat (length ((s, e) :: rest)) * (0 - 0)))
    with (nrows data) by lia.
  rewrite (tde_segment_lag_zero_raises data (nrows data)); try done.
  unfold nrows in *. lia.
Qed.

(** An 8 x 2 array with two segments of four samples. *)
Lemma build_data_tde_lag_zero_raises_witness :
  0 ≤ 0 ∧ 0 < 4 ∧ 4 ≤ Z.of_nat (nrows (ramp 8 2)) ∧
  build_data_tde (ramp 8 2) [(0, 4); (4, 8)] [0] PyNone true = Raise ValueError.
Proof.
  split; [lia|]. split; [lia|]. split; [vm_compute; discriminate|].
  apply (build_data_tde_lag_zero_raises Q Q_scalar single_channel_sklearn
           (ramp 8 2) 0 4 [(4, 8)] PyNone true); [lia|lia|vm_compute; discriminate].
Defined.

(** ** The delay embedding *)

Lemma np_roll_length {B} (l : list B) (k : Z) : length (np_roll l k) = length l.
Proof. unfold np_roll. apply length_rotate. Qed.

Lemma np_roll_lookup {B} (l : list B) (k : Z) (i : nat) :
  (i < length l)%nat →
  np_roll l k !! i = l !! Z.to_nat ((Z.of_nat i - k) `mod` Z.of_nat (length l)).
Proof.
  intros Hi. unfold np_roll. rewrite lookup_rotate_r by done.
  unfold rotate_nat_add. do 2 f_equal.
  rewrite Z2Nat.id by (apply Z.mod_pos_bound; lia).
  rewrite Zplus_mod_idemp_l. f_equal. lia.
Qed.

Lemma py_slice_window {B} (l : list B) (a b : Z) :
  0 ≤ a → b < 0 → a ≤ Z.of_nat (length l) + b →
  py_slice l a b
  = take (Z.to_nat (Z.of_nat (length l) + b - a)) (drop (Z.to_nat a) l).
Proof.
  intros Ha Hb Hab. unfold py_slice, clip_bound.
  rewrite (decide_False (P := a < 0)) by lia.
  rewrite (decide_True (P := b < 0)) by lia.
  f_equal; [lia|]. f_equal. lia.
Qed.

Lemma arange_step_lag (i L p : Z) :
  0 ≤ i < L → 0 ≤ p →
  arange_step i (L * p) L = (λ q, i + q * L) <$> seqZ 0 p.
Proof.
  intros Hi Hp. unfold arange_step. do 2 f_equal.
  symmetry. apply (Z.div_unique _ _ _ (L - 1 - i)); lia.
Qed.

Lemma NoDup_lag_columns (i L p : Z) :
  0 ≤ i < L → NoDup (Z.to_nat <$> ((λ q, i + q * L) <$> seqZ 0 p)).
Proof.
  intros Hi. rewrite <-list_fmap_compose.
  apply NoDup_fmap_2_strong; [|apply NoDup_seqZ].
  intros x y Hx Hy Hxy. apply elem_of_seqZ in Hx, Hy. simpl in Hxy.
  assert (i + x * L = i + y * L) as Heq by nia. nia.
Qed.

Section DelayEmbeddingProofs.
Context {A : Type} `{Scalar A}.
Implicit Types (data X : matrix A).

Lemma is_matrix_np_roll n p (M : matrix A) (k : Z) :
  is_matrix n p M → is_matrix n p (np_roll M k).
Proof.
  intros [Hn Hp]. split; [by rewrite np_roll_length|].
  apply Forall_forall. intros row Hrow.
  unfold np_roll in Hrow. apply elem_of_rotate in Hrow.
  by eapply Forall_forall in Hp.
Qed.

Lemma tde_lag_spec data T p n s e minlag maxlag (L : nat) a X (i : nat) l :
  is_matrix T p data → is_matrix n (L * p) X → (0 < n)%nat →
  0 ≤ s → e ≤ Z.of_nat T →
  minlag ≤ 0 → 0 < maxlag →
  s + (maxlag - minlag) < e →
  0 ≤ a → a + (e - s - (maxlag - minlag)) ≤ Z.of_nat n →
  (i < L)%nat →
  ∃ X', tde_lag data (seqZ s (e - s)) (seqZ a (e - s - (maxlag - minlag)))
                minlag maxlag L p X (i, l) = Ok X' ∧
    is_matrix n (L * p) X' ∧
    (∀ r c, 0 ≤ r < e - s - (maxlag - minlag) → 0 ≤ c < Z.of_nat p →
       cellZ X' (a + r) (c * Z.of_nat L + Z.of_nat i)
       = cellZ data (s + (r - minlag - l) `mod` (e - s)) c) ∧
    (∀ r, ¬ (a ≤ Z.of_nat r < a + (e - s - (maxlag - minlag))) →
       X' !! r = X !! r) ∧
    (∀ r c, (∀ q, 0 ≤ q < Z.of_nat p → Z.of_nat c ≠ Z.of_nat i + q * Z.of_nat L) →
       cell X' r c = cell X r c).
Proof.
  intros Hdata HX Hn Hs HeT Hmin Hmax Hse Ha Han Hi.
  pose proof (proj1 Hdata) as HT.
  set (w := maxlag - minlag) in *. set (m := e - s - w) in *.
  unfold tde_lag.
  rewrite take_idx_seqZ by lia. cbn.
  set (seg := take (Z.to_nat (e - s)) (drop (Z.to_nat s) data)).
  assert (is_matrix (Z.to_nat (e - s)) p seg) as Hseg
    by (eapply is_matrix_take_drop; [done|lia]).
  pose proof (proj1 Hseg) as Hlen.
  rewrite py_slice_window by (rewrite ?np_roll_length, ?Hlen; lia).
  rewrite np_roll_length, Hlen.
  replace (Z.to_nat (Z.of_nat (Z.to_nat (e - s)) + - maxlag - - minlag))
    with (Z.to_nat m) by lia.
  rewrite arange_step_lag by lia.
  set (V := take (Z.to_nat m) (drop (Z.to_nat (- minlag)) (np_roll seg l))).
  assert (is_matrix (Z.to_nat m) p V) as HV.
  { eapply is_matrix_take_drop; [by apply is_matrix_np_roll|]. lia. }
  destruct (set_block_spec n (L * p) X (seqZ a m)
              ((λ q, Z.of_nat i + q * Z.of_nat L) <$> seqZ 0 (Z.of_nat p)) V)
    as (X' & -> & HX' & Hset & Hrows & Hcols); try done.
  - intros r Hr. apply elem_of_seqZ in Hr. lia.
  - intros c Hc. apply list_elem_of_fmap in Hc as (q & -> & Hq).
    apply elem_of_seqZ in Hq. nia.
  - apply NoDup_to_nat_seqZ; lia.
  - apply NoDup_lag_columns; lia.
  - by rewrite length_fmap, !length_seqZ, Nat2Z.id.
  - exists X'. split; [done|]. split; [done|]. split_and!.
    + intros r c Hr Hc. unfold cellZ.
      rewrite (Hset (Z.to_nat r) (Z.to_nat c) (a + r)
                 (c * Z.of_nat L + Z.of_nat i)).
      * unfold V. rewrite cell_take_drop by lia. unfold cell.
        rewrite np_roll_lookup by lia. rewrite Hlen.
        unfold seg. rewrite lookup_take_lt.
        2:{ pose proof (Z.mod_pos_bound
                          (Z.of_nat (Z.to_nat (- minlag) + Z.to_nat r) - l)
                          (Z.of_nat (Z.to_nat (e - s))) ltac:(lia)). lia. }
        rewrite lookup_drop. do 2 f_equal.
        replace (Z.of_nat (Z.to_nat (e - s))) with (e - s) by lia.
        replace (Z.of_nat (Z.to_nat (- minlag) + Z.to_nat r) - l)
          with (r - minlag - l) by lia.
        pose proof (Z.mod_pos_bound (r - minlag - l) (e - s) ltac:(lia)). lia.
      * rewrite lookup_seqZ_lt by lia. f_equal. lia.
      * rewrite list_lookup_fmap, lookup_seqZ_lt by lia. simpl. f_equal. lia.
    + intros r Hr. apply Hrows. rewrite elem_of_to_nat_seqZ by lia. lia.
    + intros r c Hc. apply Hcols. intros Hin.
      apply list_elem_of_fmap in Hin as (z & Hz & Hin).
      apply list_elem_of_fmap in Hin as (q & -> & Hq).
      apply elem_of_seqZ in Hq. apply (Hc q); [lia|]. nia.
Qed.

Lemma stride_columns_disjoint (L c q i i' : Z) :
  0 ≤ i < L → 0 ≤ i' < L → i ≠ i' → c * L + i' ≠ i + q * L.
Proof.
  intros Hi Hi' Hne Heq.
  assert ((c - q) * L = i - i') as Hd by lia.
  destruct (decide (c - q = 0)) as [Hz|Hz]; [nia|].
  assert (c - q ≤ -1 ∨ 1 ≤ c - q) as [Hlt|Hgt] by lia; nia.
Qed.

Lemma tde_lags_spec data T p n s e minlag maxlag (L : nat) a X (ls : list Z) :
  is_matrix T p data → is_matrix n (L * p) X → (0 < n)%nat →
  0 ≤ s → e ≤ Z.of_nat T →
  minlag ≤ 0 → 0 < maxlag →
  s + (maxlag - minlag) < e →
  0 ≤ a → a + (e - s - (maxlag - minlag)) ≤ Z.of_nat n →
  (length ls ≤ L)%nat →
  ∃ X', foldlM (tde_lag data (seqZ s (e - s))
                        (seqZ a (e - s - (maxlag - minlag))) minlag maxlag L p)
               (enumerate ls) X = Ok X' ∧
    is_matrix n (L * p) X' ∧
    (∀ (i : nat) l r c, ls !! i = Some l →
       0 ≤ r < e - s - (maxlag - minlag) → 0 ≤ c < Z.of_nat p →
       cellZ X' (a + r) (c * Z.of_nat L + Z.of_nat i)
       = cellZ data (s + (r - minlag - l) `mod` (e - s)) c) ∧
    (∀ r, ¬ (a ≤ Z.of_nat r < a + (e - s - (maxlag - minlag))) →
       X' !! r = X !! r).
Proof.
  intros Hdata HX Hn Hs HeT Hmin Hmax Hse Ha Han.
  induction ls as [|l ls IH] using rev_ind; intros HL.
  { exists X. split; [done|]. split; [done|]. split; [|done].
    intros i l r c Hi. by rewrite lookup_nil in Hi. }
  rewrite length_app in HL. simpl in HL.
  destruct IH as (X1 & Hfold & HX1 & Hcells & Hrows); [lia|].
  unfold enumerate in *. rewrite imap_app, foldlM_app, Hfold.
  cbn [imap foldlM mbind result_bind]. rewrite Nat.add_0_r.
  destruct (tde_lag_spec data T p n s e minlag maxlag L a X1 (length ls) l)
    as (X2 & -> & HX2 & Hcells2 & Hrows2 & Hcols2); try done; [lia|].
  exists X2. split; [done|]. split; [done|]. split.
  - intros i l' r c Hi Hr Hc.
    destruct (decide (i = length ls)) as [->|Hne].
    + rewrite lookup_app_r, Nat.sub_diag in Hi by lia.
      simpl in Hi. simplify_eq. by apply Hcells2.
    + assert (i < length ls)%nat as Hlt.
      { apply lookup_lt_Some in Hi. rewrite length_app in Hi. simpl in Hi. lia. }
      rewrite lookup_app_l in Hi by done.
      rewrite <-(Hcells i l' r c) by done.
      unfold cellZ. apply Hcols2. intros q Hq.
      rewrite Z2Nat.id by nia.
      apply stride_columns_disjoint; lia.
  - intros r Hr. by rewrite Hrows2, Hrows.
Qed.

Lemma tde_segment_spec data T p n lags minlag maxlag (j : nat) s e X inew :
  is_matrix T p data → is_matrix n (length lags * p) X → (0 < n)%nat →
  0 ≤ s → e ≤ Z.of_nat T →
  minlag ≤ 0 → 0 < maxlag →
  s + (maxlag - minlag) < e →
  0 ≤ s - Z.of_nat j * (maxlag - minlag) →
  e - (maxlag - minlag) - Z.of_nat j * (maxlag - minlag) ≤ Z.of_nat n →
  let w := maxlag - minlag in
  let a := s - Z.of_nat j * w in
  ∃ X', tde_segment data lags minlag maxlag p (X, inew) (j, (s, e))
        = Ok (X', <[j := (a, a + (e - s - w))]> inew) ∧
    is_matrix n (length lags * p) X' ∧
    (∀ (i : nat) l r c, lags !! i = Some l →
       0 ≤ r < e - s - w → 0 ≤ c < Z.of_nat p →
       cellZ X' (a + r) (c * Z.of_nat (length lags) + Z.of_nat i)
       = cellZ data (s + (r - minlag - l) `mod` (e - s)) c) ∧
    (∀ r, ¬ (a ≤ Z.of_nat r < a + (e - s - w)) → X' !! r = X !! r).
Proof.
  intros Hdata HX Hn Hs HeT Hmin Hmax Hse Ha Han w a.
  unfold tde_segment, arange.
  rewrite fmap_sub_r_seqZ. fold w a.
  replace (e - w - s) with (e - s - w) by lia.
  destruct (tde_lags_spec data T p n s e minlag maxlag (length lags) a X lags)
    as (X' & Hfold & HX' & Hcells & Hrows); try done; try (fold w; lia).
  fold w in Hfold. rewrite Hfold. cbn [mbind result_bind].
  rewrite py_get_first_seqZ by lia. cbn [mbind result_bind].
  rewrite py_get_last_seqZ by lia. cbn [mbind result_bind].
  replace (a + (e - s - w) - 1 + 1) with (a + (e - s - w)) by lia.
  exists X'. done.
Qed.

Lemma tde_segments_spec data T p n lags minlag maxlag :
  is_matrix T p data → minlag ≤ 0 → 0 < maxlag →
  let w := maxlag - minlag in
  ∀ segs (j0 : nat) lo X inew,
    is_matrix n (length lags * p) X →
    wf_segments w lo (Z.of_nat T) segs →
    0 ≤ lo → Z.of_nat j0 * w ≤ lo →
    Z.of_nat n = Z.of_nat T - Z.of_nat (j0 + length segs) * w →
    ∃ X' inew',
      foldlM (tde_segment data lags minlag maxlag p)
             (imap (λ j x, ((j0 + j)%nat, x)) segs) (X, inew) = Ok (X', inew') ∧
      is_matrix n (length lags * p) X' ∧
      length inew' = length inew ∧
      (∀ r, Z.of_nat r < lo - Z.of_nat j0 * w → X' !! r = X !! r) ∧
      (∀ j, (j < j0)%nat → inew' !! j = inew !! j) ∧
      (∀ j s e, segs !! j = Some (s, e) →
         (j0 + j < length inew)%nat →
         let a := s - Z.of_nat (j0 + j) * w in
         inew' !! (j0 + j)%nat = Some (a, a + (e - s - w)) ∧
         ∀ (i : nat) l r c, lags !! i = Some l →
           0 ≤ r < e - s - w → 0 ≤ c < Z.of_nat p →
           cellZ X' (a + r) (c * Z.of_nat (length lags) + Z.of_nat i)
           = cellZ data (s + (r - minlag - l) `mod` (e - s)) c).
Proof.
  intros Hdata Hmin Hmax w segs.
  induction segs as [|[s e] segs IH]; intros j0 lo X inew HX Hwf Hlo Hj0 Hn.
  { exists X, inew. split; [done|]. split_and!; done. }
  simpl in Hwf. destruct Hwf as (Hlos & Hse & Hwf).
  pose proof (wf_segments_bound w e (Z.of_nat T) segs ltac:(lia) Hwf) as Hbound.
  simpl length in Hn.
  destruct (tde_segment_spec data T p n lags minlag maxlag j0 s e X inew)
    as (X1 & Hseg & HX1 & Hcells1 & Hframe1); try done; try (fold w; nia).
  cbn [imap foldlM]. rewrite Nat.add_0_r, Hseg. cbn [mbind result_bind].
  fold w in Hseg, Hcells1, Hframe1 |- *.
  set (a0 := s - Z.of_nat j0 * w) in *.
  destruct (IH (S j0) e X1 (<[j0:=(a0, a0 + (e - s - w))]> inew))
    as (X2 & inew2 & Hfold & HX2 & Hlen & Hframe2 & Hinew2 & Hcells2);
    try done; try nia.
  erewrite imap_ext; [rewrite Hfold|].
  2:{ intros j x _. simpl. f_equal. lia. }
  exists X2, inew2. split; [done|].
  rewrite length_insert in Hlen.
  split_and!; try done.
  - intros r Hr. rewrite Hframe2 by lia. apply Hframe1. unfold a0. lia.
  - intros j Hj. rewrite Hinew2 by lia. by rewrite list_lookup_insert_ne by lia.
  - intros [|j] s' e' Hj Hjlen; simpl in Hj.
    + assert (s' = s ∧ e' = e) as [-> ->] by (by simplify_eq).
      rewrite Nat.add_0_r. fold a0. split.
      * rewrite Hinew2 by lia. apply list_lookup_insert_eq. lia.
      * intros i l r c Hi Hr Hc.
        assert (Z.of_nat (Z.to_nat (a0 + r)) < e - Z.of_nat (S j0) * w) as Hlt
          by (unfold a0; lia).
        pose proof (Hframe2 _ Hlt) as HXr.
        rewrite <-(Hcells1 i l r c) by done.
        unfold cellZ, cell. by rewrite HXr.
    + replace (j0 + S j)%nat with (S j0 + j)%nat by lia.
      apply Hcells2; [done|]. rewrite length_insert. lia.
Qed.
End DelayEmbeddingProofs.

(** C10. Column layout of the delay embedding.  For lags whose minimum is
    at most 0 and whose maximum is positive, and a well-formed SegmentIndex
    whose segments are longer than the window [w = maxlag - minlag], the
    embedding loop returns an array [X0] with [T - N * w] rows and [L * p]
    columns; segment [j] = [(s, e)] occupies the [e - s - w] rows from
    [a = s - j * w]; and in row [a + r] the value of channel [c] for the lag
    at list position [i] is in column [c * L + i]: it is the sample of the
    segment rolled by that lag and clipped, source row
    [s + (r - minlag - lags[i]) mod (e - s)].  The builder returns [X0]
    standardised over all rows (and passed through [apply_pca] when a PCA
    argument is given).  The autoregressive builder on the same data puts
    channel [c] of lag block [i] in column [i * p + c] instead. *)
Theorem build_data_tde_layout :
  ∀ (A : Type) (SA : Scalar A) (SK : Sklearn A)
    (linalg_inv : matrix A → result (matrix A))
    (data : matrix A) (T : nat) (indices : list (Z * Z)) (lags : list Z)
    (minlag maxlag : Z),
    is_matrix T (ncols data) data →
    np_min_Z lags = Ok minlag → np_max_Z lags = Ok maxlag →
    minlag ≤ 0 → 0 < maxlag →
    wf_segments (maxlag - minlag) 0 (Z.of_nat T) indices →
    let p := ncols data in
    let L := length lags in
    let w := maxlag - minlag in
    let N := Z.of_nat (length indices) in
    (∃ X0 inew,
       tde_embed data indices lags = Ok (X0, inew) ∧
       (∀ pca standardise_pc,
          build_data_tde data indices lags pca standardise_pc
          = if py_is_None pca then Ok (standardise X0, inew, None)
            else r ← apply_pca_owned (standardise X0) pca standardise_pc true;
                 Ok (r.1, inew, Some r.2)) ∧
       is_matrix (Z.to_nat (Z.of_nat T - N * w)) (L * p) X0 ∧
       length inew = length indices ∧
       ∀ j s e, indices !! j = Some (s, e) →
         let a := s - Z.of_nat j * w in
         inew !! j = Some (a, a + (e - s - w)) ∧
         ∀ (i : nat) l r c, lags !! i = Some l →
           0 ≤ r < e - s - w → 0 ≤ c < Z.of_nat p →
           cellZ X0 (a + r) (c * Z.of_nat L + Z.of_nat i)
           = cellZ data (s + (r - minlag - l) `mod` (e - s)) c)
    ∧
    (∀ (k : Z) (center_data : bool) (segments : list (Z * Z)),
       1 ≤ k → wf_segments k 0 (Z.of_nat T) segments →
       ∃ X0 Y0 inew,
         build_data_autoregressive linalg_inv data segments k None center_data
         = ([], Ok (if center_data then center X0 else X0,
                    if center_data then center Y0 else Y0, inew, None)) ∧
         ∀ j s e, segments !! j = Some (s, e) →
           ∀ r c i, 0 ≤ r < e - s - k → 0 ≤ c < Z.of_nat p → 0 ≤ i < k →
             cellZ X0 (s - Z.of_nat j * k + r) (i * Z.of_nat p + c)
             = cellZ data (s + k + r - (i + 1)) c).
Proof.
  intros A SA SK linalg_inv data T indices lags minlag maxlag
    Hdata Hminlag Hmaxlag Hmin Hmax Hwf p L w N.
  split.
  - pose proof (wf_segments_bound w 0 (Z.of_nat T) indices ltac:(lia) Hwf) as Hb.
    unfold build_data_tde, tde_embed, nrows.
    rewrite Hminlag, Hmaxlag, (proj1 Hdata). cbn [mbind result_bind].
    fold p L w N.
    destruct (np_zeros_is_matrix (Z.of_nat T - N * w) (Z.of_nat p * Z.of_nat L))
      as (X & -> & HX); [nia|nia|].
    cbn [mbind result_bind].
    replace (Z.to_nat (Z.of_nat p * Z.of_nat L)) with (L * p)%nat in HX by lia.
    destruct (tde_segments_spec data T p (Z.to_nat (Z.of_nat T - N * w))
                lags minlag maxlag Hdata Hmin Hmax
                indices 0%nat 0 X (replicate (length indices) (0, 0)))
      as (X' & inew & Hfold & HX' & Hlen & _ & _ & Hcells);
      try done; try (fold w; nia).
    unfold enumerate.
    erewrite imap_ext; [rewrite Hfold|done]. cbn [mbind result_bind].
    rewrite length_replicate in Hlen.
    exists X', inew. split; [done|]. split; [done|]. split; [done|].
    split; [done|].
    intros j s e Hj. apply (Hcells j s e Hj).
    rewrite length_replicate. by eapply lookup_lt_Some.
  - intros k center_data segments Hk Hwfk.
    destruct (ar_builder_spec linalg_inv data T segments k center_data)
      as (X0 & Y0 & inew & Heq & _ & _ & _ & _ & Hseg); try done.
    exists X0, Y0, inew. split; [done|].
    intros j s e Hj r c i Hr Hc Hi.
    destruct (Hseg j s e Hj) as [_ Hcells].
    destruct (Hcells r c Hr Hc) as [_ HX]. by apply HX.
Qed.

(** Lags -1, 0, 1 on an 8 x 2 array with two segments: the second segment
    starts at output row 2, and column 1 * 3 + 2 (channel 1, lag position 2)
    of that row holds channel 1 of source row 4. *)
Lemma build_data_tde_layout_witness :
  is_matrix 8 (ncols (ramp 8 2)) (ramp 8 2) ∧
  np_min_Z [-1; 0; 1] = Ok (-1) ∧ np_max_Z [-1; 0; 1] = Ok 1 ∧
  -1 ≤ 0 ∧ 0 < 1 ∧
  wf_segments (1 - -1) 0 (Z.of_nat 8) [(0, 4); (4, 8)] ∧
  ∃ X0 inew,
    tde_embed (ramp 8 2) [(0, 4); (4, 8)] [-1; 0; 1] = Ok (X0, inew) ∧
    inew !! 1%nat = Some (2, 4) ∧
    cellZ X0 2 (1 * 3 + 2) = cellZ (ramp 8 2) 4 1.
Proof.
  assert (is_matrix 8 (ncols (ramp 8 2)) (ramp 8 2)) as Hd
    by (apply (bool_decide_unpack _); vm_compute; exact I).
  assert (wf_segments (1 - -1) 0 (Z.of_nat 8) [(0, 4); (4, 8)]) as Hwf
    by (simpl; lia).
  split; [exact Hd|]. split; [reflexivity|]. split; [reflexivity|].
  split; [lia|]. split; [lia|]. split; [exact Hwf|].
  destruct (build_data_tde_layout Q Q_scalar single_channel_sklearn gauss_inv
              (ramp 8 2) 8%nat [(0, 4); (4, 8)] [-1; 0; 1] (-1) 1
              Hd eq_refl eq_refl ltac:(lia) ltac:(lia) Hwf)
    as [(X0 & inew & Hembed & _ & _ & _ & Hseg) _].
  exists X0, inew. split; [exact Hembed|].
  destruct (Hseg 1%nat 4 8 eq_refl) as [Hinew Hcells].
  split; [exact Hinew|].
  exact (Hcells 2%nat 1 0 1 eq_refl ltac:(lia) ltac:(simpl; lia)).
Defined.

(** ** Columns and transposition *)

Lemma col_of_spec {B} n p (M : matrix B) (c : nat) :
  is_matrix n p M → (c < p)%nat →
  length (col_of M c) = n ∧ ∀ r, col_of M c !! r = cell M r c.
Proof.
  intros [Hn Hp] Hc. revert n Hn.
  induction M as [|row M IH]; intros n Hn; simpl in *.
  { split; [done|]. by intros r. }
  apply Forall_cons_1 in Hp as [Hrow Hp].
  destruct (IH Hp (length M) eq_refl) as [IHlen IHcell].
  destruct (lookup_lt_is_Some_2 row c ltac:(lia)) as [x Hx].
  unfold col_of in *. simpl. rewrite Hx. simpl. split; [lia|].
  intros [|r]; unfold cell; simpl; [by rewrite Hx|]. apply IHcell.
Qed.

Lemma transpose_lookup {B} p (M : matrix B) (c : nat) :
  (c < p)%nat → transpose p M !! c = Some (col_of M c).
Proof.
  intros Hc. unfold transpose.
  by rewrite list_lookup_fmap, lookup_seq_lt.
Qed.

Lemma transpose_is_matrix {B} n p (M : matrix B) :
  is_matrix n p M → is_matrix p n (transpose p M).
Proof.
  intros HM. split; [apply transpose_length|].
  apply Forall_forall. intros col Hcol.
  apply list_elem_of_lookup in Hcol as [c Hc].
  assert (c < p)%nat as Hlt.
  { apply lookup_lt_Some in Hc. by rewrite transpose_length in Hc. }
  rewrite transpose_lookup in Hc by done. injection Hc as <-.
  by apply (col_of_spec n p).
Qed.

Lemma cell_transpose {B} n p (M : matrix B) (r c : nat) :
  is_matrix n p M → (c < p)%nat → cell (transpose p M) c r = cell M r c.
Proof.
  intros HM Hc. unfold cell at 1. rewrite transpose_lookup by done. simpl.
  by apply (col_of_spec n p).
Qed.

(** A length-preserving routine applied to every column keeps the shape,
    and column [c] of the result is the routine applied to column [c]. *)
Lemma map_columns_spec {B C} (f : list B → list C) n p (M : matrix B) :
  (∀ l, length (f l) = length l) → is_matrix n p M →
  is_matrix n p (map_columns f M) ∧
  ∀ r c, (r < n)%nat → (c < p)%nat →
    cell (map_columns f M) r c = f (col_of M c) !! r.
Proof.
  intros Hf HM. pose proof HM as [Hn Hp]. unfold map_columns, nrows.
  destruct (decide (0 < n)%nat) as [Hpos|Hpos].
  - rewrite (is_matrix_ncols n p M) by done. rewrite Hn.
    assert (is_matrix p n (f <$> transpose p M)) as HN.
    { destruct (transpose_is_matrix n p M HM) as [Hlen Hcols].
      split; [by rewrite length_fmap|].
      apply Forall_fmap. eapply Forall_impl; [done|].
      intros col Hcol. simpl in *. by rewrite Hf. }
    split; [by apply transpose_is_matrix|].
    intros r c Hr Hc. rewrite (cell_transpose p n) by done.
    unfold cell. rewrite list_lookup_fmap, transpose_lookup by done. done.
  - destruct M; simpl in *; [|lia]. subst n. split; [done|]. intros; lia.
Qed.

(** ** preprocess_data: amplitude and phase *)

Section PowerPhaseProofs.
Context {A : Type} `{Scalar A} `{Scipy A}.
Implicit Types (data pre D : matrix A).

Hypothesis hilbert_1d_length : ∀ x : list A, length (hilbert_1d x) = length x.
Hypothesis unwrap_1d_length : ∀ x : list A, length (unwrap_1d x) = length x.

Lemma hconcat_self_is_matrix T p pre :
  is_matrix T p pre →
  hconcat pre pre = Ok (zip_with app pre pre) ∧
  is_matrix T (p + p) (zip_with app pre pre).
Proof.
  intros [HT Hp]. unfold hconcat. rewrite decide_True by done.
  split; [done|]. split.
  - rewrite length_zip_with. lia.
  - apply Forall_forall. intros row Hrow.
    apply list_elem_of_lookup in Hrow as [i Hi].
    apply lookup_zip_with_Some in Hi as (r1 & r2 & -> & Hr1 & Hr2).
    rewrite length_app.
    eapply Forall_lookup_1 in Hr1; [|done]. eapply Forall_lookup_1 in Hr2; [|done].
    simpl in *. lia.
Qed.

(** The first [p] columns of the rows [s, e) of the duplicated array are
    the rows [s, e) of the array itself. *)
Lemma segment_of_duplicated T p pre D (s e : Z) :
  is_matrix T p pre → 0 ≤ s → s ≤ e → e ≤ Z.of_nat T →
  (∀ r, s ≤ Z.of_nat r → D !! r = zip_with app pre pre !! r) →
  take p <$> take (Z.to_nat (e - s)) (drop (Z.to_nat s) D) = segment pre s e.
Proof.
  intros [HT Hp] Hs Hse He HD. unfold segment.
  apply list_eq. intros i. rewrite list_lookup_fmap.
  destruct (decide (i < Z.to_nat (e - s))%nat) as [Hi|Hi].
  - rewrite !lookup_take_lt, !lookup_drop by done.
    rewrite HD by lia. rewrite lookup_zip_with.
    destruct (pre !! (Z.to_nat s + i)%nat) as [row|] eqn:Hrow; simpl; [|done].
    f_equal. eapply Forall_lookup_1 in Hp; [|done]. simpl in Hp.
    by rewrite take_app_length' by done.
  - by rewrite !lookup_take_ge by lia.
Qed.

Lemma hilbert_is_matrix n p (M : matrix A) :
  is_matrix n p M → is_matrix n p (hilbert M).
Proof. intros HM. by apply map_columns_spec. Qed.

Lemma amplitude_is_matrix n p (C : list (list complex)) :
  is_matrix n p C → is_matrix n p (amplitude C).
Proof.
  intros [Hn Hp]. unfold amplitude. split; [by rewrite length_fmap|].
  apply Forall_fmap. eapply Forall_impl; [done|].
  intros row Hrow. simpl in *. by rewrite length_fmap.
Qed.

Lemma phase_is_matrix n p (C : list (list complex)) :
  is_matrix n p C → is_matrix n p (phase C).
Proof.
  intros [Hn Hp]. unfold phase, np_unwrap.
  split; [by rewrite !length_fmap|].
  rewrite <-list_fmap_compose.
  apply Forall_fmap. eapply Forall_impl; [done|].
  intros row Hrow. simpl in *. by rewrite unwrap_1d_length, length_fmap.
Qed.

Lemma power_phase_segment_spec T p pre D (s e : Z) :
  is_matrix T p pre → is_matrix T (p + p) D →
  0 ≤ s → s < e → e ≤ Z.of_nat T →
  (∀ r, s ≤ Z.of_nat r → D !! r = zip_with app pre pre !! r) →
  let C := hilbert (segment pre s e) in
  ∃ D', power_phase_segment p D (s, e) = Ok D' ∧
    is_matrix T (p + p) D' ∧
    (∀ r c, 0 ≤ r < e - s → 0 ≤ c < Z.of_nat p →
       cellZ D' (s + r) c = cellZ (amplitude C) r c ∧
       cellZ D' (s + r) (Z.of_nat p + c) = cellZ (phase C) r c) ∧
    (∀ r, ¬ (s ≤ Z.of_nat r < e) → D' !! r = D !! r).
Proof.
  intros Hpre HD Hs Hse He Hrest C.
  pose proof (proj1 HD) as HT.
  assert (is_matrix (Z.to_nat (e - s)) p C) as HC.
  { apply hilbert_is_matrix. unfold segment.
    eapply is_matrix_take_drop; [done|lia]. }
  unfold power_phase_segment, arange. cbn [fst snd].
  rewrite take_idx_seqZ by lia. cbn [mbind result_bind].
  rewrite (segment_of_duplicated T p pre D s e) by (try done; lia).
  fold C.
  replace (Z.of_nat p - 0) with (Z.of_nat p) by lia.
  destruct (set_block_spec T (p + p) D (seqZ s (e - s)) (seqZ 0 (Z.of_nat p))
              (amplitude C))
    as (D1 & -> & HD1 & Hset1 & Hrows1 & _); try done.
  { lia. }
  { intros r Hr. apply elem_of_seqZ in Hr. lia. }
  { intros c Hc. apply elem_of_seqZ in Hc. lia. }
  { apply NoDup_to_nat_seqZ; lia. }
  { apply NoDup_to_nat_seqZ; lia. }
  { rewrite !length_seqZ, Nat2Z.id. by apply amplitude_is_matrix. }
  cbn [mbind result_bind].
  rewrite (is_matrix_ncols T (p + p) D1) by (done || lia).
  replace (Z.of_nat (p + p) - Z.of_nat p) with (Z.of_nat p) by lia.
  destruct (set_block_spec T (p + p) D1 (seqZ s (e - s))
              (seqZ (Z.of_nat p) (Z.of_nat p)) (phase C))
    as (D2 & -> & HD2 & Hset2 & Hrows2 & Hcols2); try done.
  { lia. }
  { intros r Hr. apply elem_of_seqZ in Hr. lia. }
  { intros c Hc. apply elem_of_seqZ in Hc. lia. }
  { apply NoDup_to_nat_seqZ; lia. }
  { apply NoDup_to_nat_seqZ; lia. }
  { rewrite !length_seqZ, Nat2Z.id. by apply phase_is_matrix. }
  exists D2. split; [done|]. split; [done|]. split.
  - intros r c Hr Hc. unfold cellZ. split.
    + rewrite Hcols2 by (rewrite elem_of_to_nat_seqZ by lia; lia).
      apply (Hset1 (Z.to_nat r) (Z.to_nat c) (s + r) c).
      * rewrite lookup_seqZ_lt by lia. f_equal. lia.
      * rewrite lookup_seqZ_lt by lia. f_equal. lia.
    + apply (Hset2 (Z.to_nat r) (Z.to_nat c) (s + r) (Z.of_nat p + c)).
      * rewrite lookup_seqZ_lt by lia. f_equal. lia.
      * rewrite lookup_seqZ_lt by lia. f_equal. lia.
  - intros r Hr.
    rewrite Hrows2, Hrows1; [done|..]; rewrite elem_of_to_nat_seqZ by lia; lia.
Qed.

Lemma power_phase_loop_spec T p pre :
  is_matrix T p pre →
  ∀ segs lo D,
    is_matrix T (p + p) D →
    wf_segments 0 lo (Z.of_nat T) segs → 0 ≤ lo →
    (∀ r, lo ≤ Z.of_nat r → D !! r = zip_with app pre pre !! r) →
    ∃ D', foldlM (power_phase_segment p) segs D = Ok D' ∧
      is_matrix T (p + p) D' ∧
      (∀ r, Z.of_nat r < lo → D' !! r = D !! r) ∧
      (∀ j s e, segs !! j = Some (s, e) →
         ∀ r c, 0 ≤ r < e - s → 0 ≤ c < Z.of_nat p →
           cellZ D' (s + r) c = cellZ (amplitude (hilbert (segment pre s e))) r c ∧
           cellZ D' (s + r) (Z.of_nat p + c)
           = cellZ (phase (hilbert (segment pre s e))) r c).
Proof.
  intros Hpre segs.
  induction segs as [|[s e] segs IH]; intros lo D HD Hwf Hlo Hrest.
  { exists D. split; [done|]. split_and!; done. }
  simpl in Hwf. destruct Hwf as (Hlos & Hse & Hwf).
  pose proof (wf_segments_bound 0 e (Z.of_nat T) segs ltac:(lia) Hwf) as Hb.
  destruct (power_phase_segment_spec T p pre D s e)
    as (D1 & Hseg & HD1 & Hcells1 & Hframe1); try done; try lia.
  { intros r Hr. apply Hrest. lia. }
  cbn [foldlM]. rewrite Hseg. cbn [mbind result_bind].
  destruct (IH e D1) as (D2 & Hfold & HD2 & Hframe2 & Hcells2); try done; try lia.
  { intros r Hr. rewrite Hframe1 by lia. apply Hrest. lia. }
  exists D2. split; [done|]. split; [done|]. split.
  - intros r Hr. rewrite Hframe2 by lia. apply Hframe1. lia.
  - intros [|j] s' e' Hj r c Hr Hc; simpl in Hj.
    + assert (s' = s ∧ e' = e) as [-> ->] by (by simplify_eq).
      assert (Z.of_nat (Z.to_nat (s + r)) < e) as Hlt by lia.
      pose proof (Hframe2 _ Hlt) as Hrow.
      destruct (Hcells1 r c Hr Hc) as [<- <-].
      unfold cellZ, cell. by rewrite Hrow.
    + by apply (Hcells2 j s' e').
Qed.
End PowerPhaseProofs.

Lemma col_of_fmap {B C} (g : B → C) (M : matrix B) (c : nat) :
  col_of ((λ row : list B, g <$> row) <$> M) c = g <$> col_of M c.
Proof.
  unfold col_of. induction M as [|row M IH]; [done|].
  csimpl. rewrite list_lookup_fmap.
  destruct (row !! c) as [x|]; csimpl; by rewrite IH.
Qed.

(** C7. Amplitude and phase together: the phase block is not the unwrapped
    phase of each channel.  Let [pre] be the data after the conditioning
    stages (dampening, standardisation, filtering, detrending), a [T x p]
    array, let the SegmentIndex be well formed, and let the 1-D Hilbert
    transform and the 1-D unwrapping keep the length of their argument.
    With both [onpower] and [onphase] set the extraction stage returns an
    array with [2 * p] columns.  For every segment [(s, e)], with
    [C = hilbert(pre[s:e], axis=0)] the analytic signal of the segment,
    whose column [c] is the analytic signal of channel [c] of the segment,
    row [s + r] of the output holds the magnitude of [C] at [(r, c)] in
    column [c] and entry [(r, c)] of [np.unwrap(np.angle(C))], computed
    from the same [C], in column [p + c].  [np.unwrap] is called without
    [axis] and works along the last axis: that entry is entry [c] of the
    angles of all channels at sample [r], unwrapped from channel to
    channel.  The unwrapped phase of channel [c], as the spec words it, is
    entry [r] of the angles of channel [c] unwrapped along time
    ([phase_per_channel]).  For data with one channel the difference is
    plain: a row holds one angle and unwrapping one angle changes nothing,
    so the phase column is the wrapped angle [np.angle(C)] itself.  When no
    reduction and no resampling are configured the array described is the
    output of [preprocess_data], with the SegmentIndex unchanged. *)
Theorem preprocess_data_power_and_phase :
  ∀ (A : Type) (SA : Scalar A) (SK : Sklearn A) (SP : Scipy A)
    (data pre : matrix A) (T : nat) (indices : list (Z * Z)) (o : options A),
    (∀ x : list A, length (hilbert_1d x) = length x) →
    (∀ x : list A, length (unwrap_1d x) = length x) →
    opt_onpower o = true → opt_onphase o = true →
    opt_pca o = PyNone → opt_ica o = PyNone → opt_downsample o = PyNone →
    conditioning o indices data = Ok pre →
    is_matrix T (ncols data) pre →
    wf_segments 0 0 (Z.of_nat T) indices →
    let p := ncols data in
    ∃ out log,
      stage_power_phase true true p indices pre = Ok out ∧
      preprocess_data data indices o = Ok (out, indices, log) ∧
      is_matrix T (p + p) out ∧
      ∀ j s e, indices !! j = Some (s, e) →
        let C := hilbert (segment pre s e) in
        ∀ r c, 0 ≤ r < e - s → 0 ≤ c < Z.of_nat p →
          cellZ C r c = hilbert_1d (col_of (segment pre s e) (Z.to_nat c)) !! Z.to_nat r ∧
          cellZ out (s + r) c = complex_abs <$> cellZ C r c ∧
          cellZ out (s + r) (Z.of_nat p + c) = cellZ (phase C) r c ∧
          cellZ (phase C) r c
          = (row ← C !! Z.to_nat r; unwrap_1d (complex_angle <$> row) !! Z.to_nat c) ∧
          cellZ (phase_per_channel C) r c
          = unwrap_1d (complex_angle <$> col_of C (Z.to_nat c)) !! Z.to_nat r ∧
          (p = 1%nat → (∀ x : A, unwrap_1d [x] = [x]) →
           cellZ out (s + r) (Z.of_nat p + c) = complex_angle <$> cellZ C r c).
Proof.
  intros A SA SK SP data pre T indices o Hhl Hul Hpow Hpha Hpca Hica Hds
    Hcond Hpre Hwf p.
  destruct (hconcat_self_is_matrix T p pre Hpre) as [Hcat Hdup].
  destruct (power_phase_loop_spec Hhl Hul T p pre Hpre indices 0 (zip_with app pre pre))
    as (out & Hfold & Hout & _ & Hcells); try done.
  assert (stage_power_phase true true p indices pre = Ok out) as Hstage.
  { unfold stage_power_phase. cbn [andb negb mbind result_bind].
    rewrite Hcat. cbn [mbind result_bind]. done. }
  eexists out, _. split; [done|].
  split; [|split; [done|]].
  - unfold preprocess_data. fold p. rewrite Hcond. cbn [mbind result_bind].
    rewrite Hpow, Hpha, Hstage. cbn [mbind result_bind andb].
    unfold stage_reduce, stage_post_standardise, stage_downsample.
    rewrite Hpca, Hica, Hds.
    cbn [py_ne_None py_is_None py_truthy mbind result_bind andb].
    destruct (opt_post_standardise o) as [b|];
      cbn [py_truthy mbind result_bind andb stage_standardise fst snd];
      reflexivity.
  - intros j s e Hj C r c Hr Hc.
    destruct (Hcells j s e Hj r c Hr Hc) as [Hamp Hph].
    destruct (wf_segments_lookup 0 0 (Z.of_nat T) indices j s e) as (Hs & Hse & He);
      [lia|done..|].
    assert (is_matrix (Z.to_nat (e - s)) p (segment pre s e)) as Hseg.
    { unfold segment. eapply is_matrix_take_drop; [done|lia]. }
    assert (is_matrix (Z.to_nat (e - s)) p C) as HC
      by (by apply (map_columns_spec hilbert_1d)).
    assert (cellZ (phase C) r c
            = (row ← C !! Z.to_nat r;
               unwrap_1d (complex_angle <$> row) !! Z.to_nat c)) as Hrow.
    { unfold cellZ, cell, phase, np_unwrap.
      rewrite !list_lookup_fmap.
      by destruct (C !! Z.to_nat r) as [row|]. }
    split_and!.
    + unfold cellZ, C, hilbert.
      apply (map_columns_spec hilbert_1d _ _ _ Hhl Hseg); lia.
    + rewrite Hamp. unfold cellZ, cell, amplitude.
      rewrite list_lookup_fmap. fold C.
      destruct (C !! Z.to_nat r) as [row|]; simpl; [|done].
      by rewrite list_lookup_fmap.
    + exact Hph.
    + exact Hrow.
    + unfold cellZ, phase_per_channel.
      rewrite <-(col_of_fmap complex_angle).
      apply (map_columns_spec unwrap_1d (Z.to_nat (e - s)) p); [done| |lia|lia].
      destruct HC as [HCn HCp]. split; [by rewrite length_fmap|].
      apply Forall_fmap. eapply Forall_impl; [exact HCp|].
      intros row Hlen. simpl in *. by rewrite length_fmap.
    + intros Hp1 Hone. rewrite Hph. fold C. rewrite Hrow. unfold cellZ, cell.
      destruct HC as [HCn HCp].
      destruct (C !! Z.to_nat r) as [row|] eqn:Hr'; simpl; [|done].
      pose proof (Forall_lookup_1 _ _ _ _ HCp Hr') as Hlen. simpl in Hlen.
      rewrite Hp1 in Hlen. destruct row as [|z [|z' row]]; try done.
      simpl. rewrite Hone. by destruct (Z.to_nat c).
Qed.

(** One channel with the four samples [1, 0, -1, 0] of a cosine, one
    segment, phases in half-turns.  The analytic signal is
    [1, i, -1, -i]; the output holds the amplitude 1 in column 0 and the
    wrapped angles [0, 1/2, 1, -1/2] in column 1, where the unwrapped phase
    of the channel is [0, 1/2, 1, 3/2]. *)
Lemma preprocess_data_power_and_phase_witness :
  (∀ x : list Q, length (@hilbert_1d Q four_sample_scipy x) = length x) ∧
  (∀ x : list Q, length (@unwrap_1d Q four_sample_scipy x) = length x) ∧
  (∀ x : Q, @unwrap_1d Q four_sample_scipy [x] = [x]) ∧
  @conditioning Q Q_scalar four_sample_scipy power_phase_options [(0, 4)]
    [[1]; [0]; [-1]; [0]]%Q = Ok [[1]; [0]; [-1]; [0]]%Q ∧
  is_matrix 4 (ncols [[1]; [0]; [-1]; [0]]%Q) [[1]; [0]; [-1]; [0]]%Q ∧
  wf_segments 0 0 (Z.of_nat 4) [(0, 4)] ∧
  ∃ out log,
    @preprocess_data Q Q_scalar single_channel_sklearn four_sample_scipy
      [[1]; [0]; [-1]; [0]]%Q [(0, 4)] power_phase_options
    = Ok (out, [(0, 4)], log) ∧
    is_matrix 4 2 out ∧
    cellZ out 3 0 = Some 1%Q ∧
    cellZ out 3 1 = Some (- (1 # 2))%Q ∧
    cellZ (@phase_per_channel Q four_sample_scipy
             (@hilbert Q four_sample_scipy
                (segment [[1]; [0]; [-1]; [0]]%Q 0 4))) 3 0
    = Some (3 # 2)%Q.
Proof.
  assert (∀ x : list Q, length (@hilbert_1d Q four_sample_scipy x) = length x)
    as Hhl.
  { intros x. simpl. unfold hilbert_four.
    destruct x as [|x0 [|x1 [|x2 [|x3 [|x4 x]]]]]; try done.
    by rewrite length_fmap. }
  assert (∀ x : list Q, length (@unwrap_1d Q four_sample_scipy x) = length x)
    as Hul.
  { intros x. simpl. unfold unwrap_half_turns. destruct x as [|x0 rest]; [done|].
    cbn [length]. f_equal. rewrite length_zip_with. unfold np_cumsum.
    rewrite length_fmap, length_seq, length_fmap, length_zip_with.
    cbn [length]. lia. }
  assert (∀ x : Q, @unwrap_1d Q four_sample_scipy [x] = [x]) as Hone
    by (intros x; reflexivity).
  assert (@conditioning Q Q_scalar four_sample_scipy power_phase_options [(0, 4)]
            [[1]; [0]; [-1]; [0]]%Q = Ok [[1]; [0]; [-1]; [0]]%Q) as Hcond
    by (vm_compute; reflexivity).
  assert (is_matrix 4 (ncols [[1]; [0]; [-1]; [0]]%Q) [[1]; [0]; [-1]; [0]]%Q)
    as Hd by (apply (bool_decide_unpack _); vm_compute; exact I).
  assert (wf_segments 0 0 (Z.of_nat 4) [(0, 4)]) as Hwf by (simpl; lia).
  split; [exact Hhl|]. split; [exact Hul|]. split; [exact Hone|].
  split; [exact Hcond|]. split; [exact Hd|]. split; [exact Hwf|].
  destruct (preprocess_data_power_and_phase Q Q_scalar single_channel_sklearn
              four_sample_scipy [[1]; [0]; [-1]; [0]]%Q [[1]; [0]; [-1]; [0]]%Q
              4%nat [(0, 4)] power_phase_options Hhl Hul
              eq_refl eq_refl eq_refl eq_refl eq_refl Hcond Hd Hwf)
    as (out & log & _ & Hrun & Hout & Hcells).
  exists out, log. split; [exact Hrun|]. split; [exact Hout|].
  destruct (Hcells 0%nat 0 4 eq_refl 3 0 ltac:(lia) ltac:(simpl; lia))
    as (_ & Hamp & _ & _ & Hspec & Hwrapped).
  split; [refine (eq_trans Hamp _); vm_compute; reflexivity|].
  split; [refine (eq_trans (Hwrapped eq_refl Hone) _); vm_compute; reflexivity|].
  refine (eq_trans Hspec _). vm_compute. reflexivity.
Defined.

(** ** apply_ica: the random generator *)

(** Whatever the estimator does: for a component count, the data returned
    by [apply_ica] in a state of the generator are the sources FastICA
    yields in that state, passed through the sign-convention loop. *)
Lemma apply_ica_in_count {A} `{Scalar A} {G : Type}
    (estimators : G → Sklearn A) (g : G) (X : matrix A) (n : Z)
    (algorithm : ica_algorithm) :
  s_ltb (s_of_Z n) (s_of_Z 1) = false →
  apply_ica_in estimators g X (PyInt n) algorithm
  = (model ← @FastICA_fit A (estimators g) (PyInt n) algorithm X;
     S ← @FastICA_transform A (estimators g) model X;
     sign_convention S (seq 0 (Z.to_nat n))).
Proof.
  intros Hn. unfold apply_ica_in, apply_ica, py_lt_1, py_range.
  cbn [py_num py_int mbind result_bind]. rewrite Hn. cbn [mbind result_bind].
  destruct (FastICA_fit _ _ X) as [model|e]; cbn [mbind result_bind]; [|done].
  destruct (FastICA_transform model X) as [S|e]; cbn [mbind result_bind]; [|done].
  cbn [py_int mbind result_bind].
  by destruct (sign_convention S _).
Qed.

(** C8. [apply_ica] is not a function of its arguments alone.  FastICA is
    constructed without [random_state], so the sign of a component follows
    NumPy's global generator, and the sign-convention loop does not make up
    for it: it leaves the column [3, -5, 2] and its negation [-3, 5, -2] as
    they are.  On the single-channel data [3, -5, 2] with one component, a
    call made while the next normal variate of the generator is positive
    and the call after it, made while the next one is negative, return
    columns of opposite sign. *)
Theorem apply_ica_depends_on_random_state :
  sign_convention [[3]; [-5]; [2]]%Q [0%nat] = Ok [[3]; [-5]; [2]]%Q ∧
  sign_convention [[-3]; [5]; [-2]]%Q [0%nat] = Ok [[-3]; [5]; [-2]]%Q ∧
  apply_ica_in generator_sklearn [true; false]
    [[3]; [-5]; [2]]%Q (PyInt 1) Parallel
  = Ok [[500000 # 593171]; [-2500000 # 1779513]; [1000000 # 1779513]]%Q ∧
  apply_ica_in generator_sklearn (after_fit [true; false])
    [[3]; [-5]; [2]]%Q (PyInt 1) Parallel
  = Ok [[-500000 # 593171]; [2500000 # 1779513]; [-1000000 # 1779513]]%Q ∧
  apply_ica_in generator_sklearn [true; false]
    [[3]; [-5]; [2]]%Q (PyInt 1) Parallel
  ≠ apply_ica_in generator_sklearn (after_fit [true; false])
      [[3]; [-5]; [2]]%Q (PyInt 1) Parallel.
Proof. split_and!; vm_compute; try reflexivity; discriminate. Qed.

(** * Further properties of the code *)

(** ** apply_pca: the whitening argument and the store *)

Lemma apply_pca_whitening {A} `{Scalar A} `{Sklearn A}
    (X : ref) (d : pyval A) (w1 w2 exact : bool) (h : store A) :
  apply_pca X d w1 exact h = apply_pca X d w2 exact h.
Proof. by destruct d. Qed.

Lemma apply_pca_owned_whitening {A} `{Scalar A} `{Sklearn A}
    (X : matrix A) (d : pyval A) (w1 w2 exact : bool) :
  apply_pca_owned X d w1 exact = apply_pca_owned X d w2 exact.
Proof. unfold apply_pca_owned. by rewrite (apply_pca_whitening _ d w1 w2). Qed.

(** X1. The [whitening] argument of [apply_pca] has no effect: with a
    projection matrix the result is always whitened, whatever is passed,
    and with a component count or a fraction the argument is not read.
    Returned reference, model and the whole store are the same for both
    values. *)
Theorem apply_pca_ignores_whitening :
  ∀ (A : Type) (SA : Scalar A) (SK : Sklearn A) (X : ref) (d : pyval A)
    (exact : bool) (h : store A),
    apply_pca X d false exact h = apply_pca X d true exact h ∧
    ∀ (D P : matrix A),
      d = PyArray D → matmul (center (st_get h X)) D = Ok P →
      (X < length h)%nat →
      ∃ X' h', apply_pca X d false exact h = (Ok (X', None), h') ∧
        st_get h' X' = div_rowvec P (col_stds P).
Proof.
  intros A SA SK X d exact h. split; [apply apply_pca_whitening|].
  intros D P -> HP HX. unfold apply_pca, st_alloc, st_set.
  assert (st_get (<[X:=center (st_get h X)]> h) X = center (st_get h X)) as Hget.
  { unfold st_get at 1. by rewrite list_lookup_insert_eq. }
  rewrite Hget, HP. eexists _, _. split; [done|].
  unfold st_get at 1.
  rewrite list_lookup_insert_eq by (rewrite length_app; simpl; lia).
  simpl. unfold st_get. by rewrite lookup_app_r, Nat.sub_diag.
Qed.

(** The projection matrix [[1]] on the single channel [1, 3]: the centred
    data [-1, 1] have standard deviation 1. *)
Lemma apply_pca_ignores_whitening_witness :
  matmul (center (st_get [[[1]; [3]]%Q] 0%nat)) [[1%Q]] = Ok [[-1]; [1]]%Q ∧
  (0 < length [[[1]; [3]]%Q])%nat ∧
  ∃ X' h', apply_pca 0%nat (PyArray [[1%Q]]) false true [[[1]; [3]]%Q]
           = (Ok (X', None), h') ∧
    st_get h' X' = [[-1]; [1]]%Q.
Proof.
  split; [vm_compute; reflexivity|]. split; [simpl; lia|].
  destruct (proj2 (apply_pca_ignores_whitening Q Q_scalar single_channel_sklearn
                     0%nat (PyArray [[1%Q]]) true [[[1]; [3]]%Q])
              [[1%Q]] [[-1]; [1]]%Q eq_refl)
    as (X' & h' & Hrun & Hget); [vm_compute; reflexivity|simpl; lia|].
  exists X', h'. split; [exact Hrun|]. rewrite Hget. vm_compute. reflexivity.
Defined.

(** X2. The [standardise_pc] argument of [build_data_tde] has no effect: it
    is passed to [apply_pca] as [whitening], which [apply_pca] does not
    use. *)
Theorem build_data_tde_ignores_standardise_pc :
  ∀ (A : Type) (SA : Scalar A) (SK : Sklearn A) (data : matrix A)
    (indices : list (Z * Z)) (lags : list Z) (pca : pyval A),
    build_data_tde data indices lags pca false
    = build_data_tde data indices lags pca true.
Proof.
  intros. unfold build_data_tde.
  destruct (tde_embed data indices lags) as [[X inew]|e]; cbn; [|done].
  destruct (py_is_None pca); [done|].
  by rewrite (apply_pca_owned_whitening _ pca false true).
Qed.

(** X3. The [exact_pca] argument of [preprocess_data] has no effect on the
    data, the SegmentIndex or the fitted models: the call
    [apply_pca(data,pca,exact_pca)] binds it to [whitening], so PCA always
    runs with the full solver. *)
Theorem preprocess_data_ignores_exact_pca :
  ∀ (A : Type) (SA : Scalar A) (SK : Sklearn A) (SP : Scipy A)
    (data : matrix A) (indices : list (Z * Z)) (o : options A) (b : bool),
    outputs (preprocess_data data indices (with_exact_pca b o))
    = outputs (preprocess_data data indices o).
Proof.
  intros. unfold preprocess_data, outputs.
  change (conditioning (with_exact_pca b o) indices data)
    with (conditioning o indices data).
  destruct (conditioning o indices data) as [data1|e]; cbn [mbind result_bind]; [|done].
  cbn [with_exact_pca opt_onpower opt_onphase].
  destruct (stage_power_phase _ _ _ _ _) as [data2|e]; cbn [mbind result_bind]; [|done].
  assert (stage_reduce (with_exact_pca b o) data2 = stage_reduce o data2) as ->.
  { unfold stage_reduce. cbn [with_exact_pca opt_pca opt_ica opt_exact_pca
                              opt_ica_algorithm].
    by rewrite (apply_pca_owned_whitening _ _ b (opt_exact_pca o)). }
  destruct (stage_reduce o data2) as [[[data3 pm] im]|e];
    cbn [mbind result_bind]; [|done].
  change (stage_post_standardise (with_exact_pca b o))
    with (stage_post_standardise o).
  destruct (stage_post_standardise o indices data3) as [data4|e];
    cbn [mbind result_bind]; [|done].
  change (stage_downsample (with_exact_pca b o)) with (stage_downsample o).
  by destruct (stage_downsample o _ indices data4) as [[data5 inew]|e].
Qed.

(** X4. With a component count or a fraction of variance, [apply_pca]
    changes no array that existed before the call, the caller's [X]
    included: on success the result is a new array object appended to the
    store, on an exception the store is as it was. *)
Theorem apply_pca_count_preserves_store :
  ∀ (A : Type) (SA : Scalar A) (SK : Sklearn A) (X : ref) (d : pyval A)
    (whitening exact : bool) (h : store A),
    (∀ D, d ≠ PyArray D) →
    (∀ l, (l < length h)%nat →
       st_get (apply_pca X d whitening exact h).2 l = st_get h l) ∧
    (∀ X' m, (apply_pca X d whitening exact h).1 = Ok (X', m) →
       X' = length h ∧
       length (apply_pca X d whitening exact h).2 = S (length h) ∧
       ∃ model, m = Some model ∧
         pca_scores (st_get h X) d exact
         = Ok (st_get (apply_pca X d whitening exact h).2 X', model)) ∧
    (∀ e, (apply_pca X d whitening exact h).1 = Raise e →
       (apply_pca X d whitening exact h).2 = h).
Proof.
  intros A SA SK X d whitening exact h Hd.
  assert (apply_pca X d whitening exact h
          = match pca_scores (st_get h X) d exact with
            | Raise e => (Raise e, h)
            | Ok (Xt, model) => (Ok (length h, Some model), h ++ [Xt])
            end) as ->.
  { destruct d; try done. by destruct (Hd M). }
  destruct (pca_scores (st_get h X) d exact) as [[Xt model]|e]; simpl.
  - split_and!.
    + intros l Hl. unfold st_get. by rewrite lookup_app_l.
    + intros X' m [= <- <-]. split; [done|].
      split; [rewrite length_app; simpl; lia|].
      exists model. split; [done|].
      unfold st_get. by rewrite lookup_app_r, Nat.sub_diag.
    + done.
  - split_and!; done.
Qed.

(** One component of the single channel [3, -5, 2]. *)
Lemma apply_pca_count_preserves_store_witness :
  (∀ D : matrix Q, PyInt 1 ≠ PyArray D) ∧
  st_get (apply_pca 0%nat (PyInt 1) false true [[[3]; [-5]; [2]]%Q]).2 0%nat
  = [[3]; [-5]; [2]]%Q.
Proof.
  assert (∀ D : matrix Q, PyInt 1 ≠ PyArray D) as Hd by (intros D; discriminate).
  split; [exact Hd|].
  exact (proj1 (apply_pca_count_preserves_store Q Q_scalar single_channel_sklearn
                  0%nat (PyInt 1) false true [[[3]; [-5]; [2]]%Q] Hd)
           0%nat ltac:(simpl; lia)).
Defined.

(** ** dampen_peaks *)

(** X5. [dampen_peaks] keeps the shape of the array, and when no sample
    exceeds twice the standard deviation of all samples in absolute value
    it returns the array unchanged, whatever the strength. *)
Theorem dampen_peaks_in_range :
  ∀ (A : Type) (SA : Scalar A) (X : matrix A) (strength : A) (n p : nat),
    is_matrix n p X →
    is_matrix n p (dampen_peaks X strength) ∧
    ((∀ row x, row ∈ X → x ∈ row →
        s_ltb (s_mul (s_of_Z 2) (std (concat X))) (s_abs x) = false) →
     dampen_peaks X strength = X).
Proof.
  intros A SA X strength n p [Hn Hp]. unfold dampen_peaks. split.
  - split; [by rewrite length_fmap|].
    apply Forall_fmap. eapply Forall_impl; [done|].
    intros row Hrow. simpl in *. by rewrite length_fmap.
  - intros Hin.
    rewrite <-(list_fmap_id X) at 2.
    apply list_fmap_ext. intros i row Hrow. simpl.
    rewrite <-(list_fmap_id row) at 2.
    apply list_fmap_ext. intros j x Hx. simpl.
    rewrite (Hin row x); [done|..].
    + by eapply list_elem_of_lookup_2.
    + by eapply list_elem_of_lookup_2.
Qed.

(** Two samples [1] and [-1]: the standard deviation is 1 and no sample
    exceeds 2. *)
Lemma dampen_peaks_in_range_witness :
  is_matrix 2 1 [[1]; [-1]]%Q ∧
  (∀ row x, row ∈ [[1]; [-1]]%Q → x ∈ row →
     s_ltb (s_mul (s_of_Z 2) (std (concat [[1]; [-1]]%Q))) (s_abs x) = false) ∧
  dampen_peaks [[1]; [-1]]%Q 5%Q = [[1]; [-1]]%Q.
Proof.
  assert (is_matrix 2 1 [[1]; [-1]]%Q) as Hm
    by (apply (bool_decide_unpack _); vm_compute; exact I).
  assert (∀ row x, row ∈ [[1]; [-1]]%Q → x ∈ row →
     s_ltb (s_mul (s_of_Z 2) (std (concat [[1]; [-1]]%Q))) (s_abs x) = false)
    as Hin.
  { intros row x Hrow Hx.
    apply list_elem_of_In in Hrow. simpl in Hrow.
    destruct Hrow as [<-|[<-|[]]]; apply list_elem_of_In in Hx; simpl in Hx;
      destruct Hx as [<-|[]]; vm_compute; reflexivity. }
  split; [exact Hm|]. split; [exact Hin|].
  exact (proj2 (dampen_peaks_in_range Q Q_scalar [[1]; [-1]]%Q 5%Q 2 1 Hm) Hin).
Defined.

(** ** preprocess_data: configurations *)

(** X6. With every stage switched off ([dampen_extreme_peaks], [pca],
    [ica] and [downsample] are [None], [standardise], [detrend], [onpower]
    and [onphase] are false, no filter) [preprocess_data] returns the data
    and the SegmentIndex as passed, for every array and every SegmentIndex,
    well formed or not, and raises nothing; the log records the channel
    count, the number of segments, the arguments and no model. *)
Theorem preprocess_data_all_stages_off :
  ∀ (A : Type) (SA : Scalar A) (SK : Sklearn A) (SP : Scipy A)
    (data : matrix A) (indices : list (Z * Z)) (o : options A),
    opt_dampen_extreme_peaks o = PyNone → opt_standardise o = false →
    opt_filter o = None → opt_detrend o = false →
    opt_onpower o = false → opt_onphase o = false →
    opt_pca o = PyNone → opt_ica o = PyNone → opt_downsample o = PyNone →
    preprocess_data data indices o
    = Ok (data, indices,
          {| log_p := ncols data; log_N := length indices; log_options := o;
             log_pcamodel := None; log_icamodel := None |}).
Proof.
  intros A SA SK SP data indices o Hd Hs Hf Hdt Hpow Hpha Hpca Hica Hds.
  unfold preprocess_data, conditioning, stage_dampen, stage_standardise,
    stage_filter, stage_detrend, stage_power_phase, stage_reduce,
    stage_post_standardise, stage_downsample.
  rewrite Hd, Hs, Hf, Hdt, Hpow, Hpha, Hpca, Hica, Hds.
  cbn [py_truthy py_ne_None py_is_None mbind result_bind andb negb].
  destruct (opt_post_standardise o);
    cbn [py_truthy mbind result_bind andb stage_standardise fst snd];
    reflexivity.
Qed.

Lemma preprocess_data_all_stages_off_witness :
  ∃ log,
    preprocess_data (ramp 4 2) [(0, 2); (2, 4)] all_off_options
    = Ok (ramp 4 2, [(0, 2); (2, 4)], log).
Proof.
  eexists.
  exact (preprocess_data_all_stages_off Q Q_scalar single_channel_sklearn
           short_segment_scipy (ramp 4 2) [(0, 2); (2, 4)] all_off_options
           eq_refl eq_refl eq_refl eq_refl eq_refl eq_refl eq_refl eq_refl eq_refl).
Defined.

Lemma stage_downsample_needs_ints {A} `{Scalar A} `{Sklearn A} `{Scipy A}
    (o : options A) (p : nat) (indices : list (Z * Z)) (data : matrix A) :
  py_ne_None (opt_downsample o) = Ok true →
  (∃ x, opt_downsample o = PyFloat x) ∨ (∃ y, opt_fs o = PyFloat y) →
  ∃ e, stage_downsample o p indices data = Raise e.
Proof.
  intros Hne Hfloat. unfold stage_downsample. rewrite Hne.
  cbn [mbind result_bind].
  destruct (py_num (opt_downsample o)) as [ds|e]; cbn [mbind result_bind]; [|eauto].
  destruct (py_num (opt_fs o)) as [fs|e]; cbn [mbind result_bind]; [|eauto].
  destruct (s_eqb fs s_zero); cbn [mbind result_bind]; [eauto|].
  destruct (np_zeros _ _) as [Z0|e]; cbn [mbind result_bind]; [|eauto].
  destruct Hfloat as [[x Hx]|[y Hy]].
  - rewrite Hx. cbn. eauto.
  - rewrite Hy. destruct (py_int (opt_downsample o)); cbn; eauto.
Qed.

(** X7. Resampling needs integer rates: when [downsample] is a float, or
    [downsample] is given and [fs] is a float, [preprocess_data] never
    returns a result ([math.gcd] raises [TypeError] unless an earlier stage
    has raised already). *)
Theorem preprocess_data_float_rate_raises :
  ∀ (A : Type) (SA : Scalar A) (SK : Sklearn A) (SP : Scipy A)
    (data : matrix A) (indices : list (Z * Z)) (o : options A),
    py_ne_None (opt_downsample o) = Ok true →
    (∃ x, opt_downsample o = PyFloat x) ∨ (∃ y, opt_fs o = PyFloat y) →
    ∃ e, preprocess_data data indices o = Raise e.
Proof.
  intros A SA SK SP data indices o Hne Hfloat. unfold preprocess_data.
  destruct (conditioning o indices data) as [d1|e]; cbn [mbind result_bind]; [|eauto].
  destruct (stage_power_phase _ _ _ _ _) as [d2|e]; cbn [mbind result_bind]; [|eauto].
  destruct (stage_reduce o d2) as [[[d3 pm] im]|e]; cbn [mbind result_bind]; [|eauto].
  destruct (stage_post_standardise o indices d3) as [d4|e];
    cbn [mbind result_bind]; [|eauto].
  match goal with
  | |- context [stage_downsample o ?p indices d4] =>
      destruct (stage_downsample_needs_ints o p indices d4 Hne Hfloat) as [e ->]
  end.
  cbn. eauto.
Qed.

Lemma preprocess_data_float_rate_raises_witness :
  py_ne_None (opt_downsample float_downsample_options) = Ok true ∧
  ∃ e, preprocess_data (ramp 4 2) [(0, 2); (2, 4)] float_downsample_options
       = Raise e.
Proof.
  split; [reflexivity|].
  apply (preprocess_data_float_rate_raises Q Q_scalar single_channel_sklearn
           short_segment_scipy (ramp 4 2) [(0, 2); (2, 4)]
           float_downsample_options eq_refl).
  left. exists (1 # 2)%Q. reflexivity.
Defined.

(** ** preprocess_data: the per-segment stages *)

Lemma matrix_eq_cells {B} n p (M N : matrix B) :
  is_matrix n p M → is_matrix n p N →
  (∀ r c, (r < n)%nat → (c < p)%nat → cell M r c = cell N r c) → M = N.
Proof.
  intros [HMn HMp] [HNn HNp] Hcells.
  apply list_eq. intros r.
  destruct (decide (r < n)%nat) as [Hr|Hr].
  - destruct (lookup_lt_is_Some_2 M r ltac:(lia)) as [rowM HrowM].
    destruct (lookup_lt_is_Some_2 N r ltac:(lia)) as [rowN HrowN].
    rewrite HrowM, HrowN. f_equal.
    pose proof (Forall_lookup_1 _ _ _ _ HMp HrowM) as HlM.
    pose proof (Forall_lookup_1 _ _ _ _ HNp HrowN) as HlN.
    simpl in *. apply list_eq. intros c.
    destruct (decide (c < p)%nat) as [Hc|Hc].
    + specialize (Hcells r c Hr Hc). unfold cell in Hcells.
      by rewrite HrowM, HrowN in Hcells.
    + by rewrite !lookup_ge_None_2 by lia.
  - by rewrite !lookup_ge_None_2 by lia.
Qed.

(** [X[a:a+m, :] = V] for in-range rows: the rows are replaced by [V] and
    the other rows are kept. *)
Lemma set_rows_spec {B} n p (X V : matrix B) (a m : Z) :
  is_matrix n p X → (0 < n)%nat → 0 ≤ a → 0 ≤ m → a + m ≤ Z.of_nat n →
  is_matrix (Z.to_nat m) p V →
  ∃ X', set_rows X (seqZ a m) V = Ok X' ∧ is_matrix n p X' ∧
    take (Z.to_nat m) (drop (Z.to_nat a) X') = V ∧
    (∀ r, ¬ (a ≤ Z.of_nat r < a + m) → X' !! r = X !! r).
Proof.
  intros HX Hn Ha Hm Ham HV. unfold set_rows, arange.
  rewrite (is_matrix_ncols n p X) by done.
  replace (Z.of_nat p - 0) with (Z.of_nat p) by lia.
  destruct (set_block_spec n p X (seqZ a m) (seqZ 0 (Z.of_nat p)) V)
    as (X' & -> & HX' & Hset & Hrows & _); try done.
  { intros r Hr. apply elem_of_seqZ in Hr. lia. }
  { intros c Hc. apply elem_of_seqZ in Hc. lia. }
  { apply NoDup_to_nat_seqZ; lia. }
  { apply NoDup_to_nat_seqZ; lia. }
  { by rewrite !length_seqZ, Nat2Z.id. }
  exists X'. split; [done|]. split; [done|]. split.
  - apply (matrix_eq_cells (Z.to_nat m) p); [|done|].
    { eapply is_matrix_take_drop; [done|lia]. }
    intros r c Hr Hc. rewrite cell_take_drop by done.
    rewrite <-(Hset r c (a + Z.of_nat r) (Z.of_nat c)).
    + f_equal; lia.
    + rewrite lookup_seqZ_lt by lia. done.
    + rewrite lookup_seqZ_lt by lia. done.
  - intros r Hr. apply Hrows. rewrite elem_of_to_nat_seqZ by lia. lia.
Qed.

Lemma segment_ext {B} (D data : matrix B) (s e : Z) :
  0 ≤ s →
  (∀ r, s ≤ Z.of_nat r → D !! r = data !! r) →
  segment D s e = segment data s e.
Proof.
  intros Hs HD. unfold segment. apply list_eq. intros i.
  destruct (decide (i < Z.to_nat (e - s))%nat) as [Hi|Hi].
  - rewrite !lookup_take_lt, !lookup_drop by done. apply HD. lia.
  - by rewrite !lookup_take_ge by lia.
Qed.

Lemma per_segment_spec {B} (f : matrix B → result (matrix B)) T p
    (data : matrix B) :
  is_matrix T p data →
  ∀ segs lo D,
    is_matrix T p D →
    wf_segments 0 lo (Z.of_nat T) segs → 0 ≤ lo →
    (∀ r, lo ≤ Z.of_nat r → D !! r = data !! r) →
    (∀ j s e, segs !! j = Some (s, e) →
       ∃ V, f (segment data s e) = Ok V ∧ is_matrix (Z.to_nat (e - s)) p V) →
    ∃ D', foldlM (λ data se,
                    let t := arange se.1 se.2 in
                    seg ← take_idx data t; V ← f seg; set_rows data t V)
                 segs D = Ok D' ∧
      is_matrix T p D' ∧
      (∀ r, Z.of_nat r < lo → D' !! r = D !! r) ∧
      (∀ j s e, segs !! j = Some (s, e) →
         f (segment data s e) = Ok (segment D' s e)) ∧
      (∀ r, lo ≤ Z.of_nat r →
         (∀ j s e, segs !! j = Some (s, e) → ¬ (s ≤ Z.of_nat r < e)) →
         D' !! r = D !! r).
Proof.
  intros Hdata segs.
  induction segs as [|[s e] segs IH]; intros lo D HD Hwf Hlo Hrest Hf.
  { exists D. split; [done|]. split_and!; done. }
  simpl in Hwf. destruct Hwf as (Hlos & Hse & Hwf).
  pose proof (wf_segments_bound 0 e (Z.of_nat T) segs ltac:(lia) Hwf) as Hb.
  pose proof (proj1 HD) as HT.
  destruct (Hf 0%nat s e eq_refl) as (V & HfV & HV).
  cbn [foldlM fst snd]. unfold arange.
  rewrite take_idx_seqZ by lia. cbn [mbind result_bind].
  change (take (Z.to_nat (e - s)) (drop (Z.to_nat s) D)) with (segment D s e).
  rewrite (segment_ext D data s e) by (try lia; intros r Hr; apply Hrest; lia).
  rewrite HfV. cbn [mbind result_bind].
  destruct (set_rows_spec T p D V s (e - s)) as (D1 & -> & HD1 & Hseg1 & Hframe1);
    try done; try lia.
  cbn [mbind result_bind].
  destruct (IH e D1) as (D2 & Hfold & HD2 & Hframe2 & Hsegs2 & Hout2);
    try done; try lia.
  { intros r Hr. rewrite Hframe1 by lia. apply Hrest. lia. }
  { intros j s' e' Hj. by apply (Hf (S j)). }
  unfold arange in Hfold. rewrite Hfold.
  exists D2. split; [done|]. split; [done|]. split_and!.
  - intros r Hr. rewrite Hframe2 by lia. apply Hframe1. lia.
  - intros [|j] s' e' Hj; simpl in Hj.
    + assert (s' = s ∧ e' = e) as [-> ->] by (by simplify_eq).
      rewrite HfV. f_equal. rewrite <-Hseg1. unfold segment.
      apply list_eq. intros i.
      destruct (decide (i < Z.to_nat (e - s))%nat) as [Hi|Hi].
      * rewrite !lookup_take_lt, !lookup_drop by done.
        symmetry. apply Hframe2. lia.
      * by rewrite !lookup_take_ge by lia.
    + by apply (Hsegs2 j).
  - intros r Hr Hnot.
    pose proof (Hnot 0%nat s e eq_refl) as Hhead.
    assert (D2 !! r = D1 !! r) as ->.
    { destruct (decide (e ≤ Z.of_nat r)) as [Hge|Hlt].
      - apply Hout2; [done|]. intros j s' e' Hj. by apply (Hnot (S j)).
      - apply Hframe2. lia. }
    apply Hframe1. lia.
Qed.

Lemma standardise_is_matrix {A} `{Scalar A} n p (M : matrix A) :
  is_matrix n p M → is_matrix n p (standardise M).
Proof.
  intros HM. unfold standardise.
  pose proof (center_is_matrix n p M HM) as HC.
  set (C := center M) in *. pose proof HC as [Hn Hp].
  unfold div_rowvec. split; [by rewrite length_fmap|].
  destruct (decide (0 < n)%nat) as [Hpos|Hpos].
  - apply Forall_fmap. eapply Forall_impl; [done|].
    intros row Hrow. simpl in *.
    rewrite length_zip_with. unfold col_stds, columns.
    rewrite length_fmap, transpose_length, (is_matrix_ncols n p C) by done.
    lia.
  - destruct C; simpl in *; [done|lia].
Qed.

(** X8. The per-segment loop shared by the conditioning stages: for a
    well-formed SegmentIndex and a transform that returns an array of the
    shape of each segment, the loop returns an array of the same shape in
    which every segment is the transform of the same segment of the input
    (the transform never sees rows of another segment or rows already
    transformed), and every row outside the segments is the input row. *)
Theorem per_segment_no_leak :
  ∀ (A : Type) (f : matrix A → result (matrix A)) (data : matrix A) (T : nat)
    (indices : list (Z * Z)),
    is_matrix T (ncols data) data →
    wf_segments 0 0 (Z.of_nat T) indices →
    (∀ j s e, indices !! j = Some (s, e) →
       ∃ V, f (segment data s e) = Ok V ∧
            is_matrix (Z.to_nat (e - s)) (ncols data) V) →
    ∃ out, per_segment f indices data = Ok out ∧
      is_matrix T (ncols data) out ∧
      (∀ j s e, indices !! j = Some (s, e) →
         f (segment data s e) = Ok (segment out s e)) ∧
      (∀ r, (∀ j s e, indices !! j = Some (s, e) → ¬ (s ≤ Z.of_nat r < e)) →
         out !! r = data !! r).
Proof.
  intros A f data T indices Hdata Hwf Hf.
  destruct (per_segment_spec f T (ncols data) data Hdata indices 0 data)
    as (out & Hfold & Hout & _ & Hsegs & Hrest); try done.
  exists out. split; [exact Hfold|]. split; [done|]. split; [done|].
  intros r Hnot. apply Hrest; [lia|done].
Qed.

(** Per-segment centring of a 4 x 2 array in two segments. *)
Lemma per_segment_no_leak_witness :
  is_matrix 4 (ncols (ramp 4 2)) (ramp 4 2) ∧
  wf_segments 0 0 (Z.of_nat 4) [(0, 2); (2, 4)] ∧
  ∃ out, per_segment (λ seg, Ok (center seg)) [(0, 2); (2, 4)] (ramp 4 2) = Ok out ∧
    segment out 2 4 = center (segment (ramp 4 2) 2 4).
Proof.
  assert (is_matrix 4 (ncols (ramp 4 2)) (ramp 4 2)) as Hd
    by (apply (bool_decide_unpack _); vm_compute; exact I).
  assert (wf_segments 0 0 (Z.of_nat 4) [(0, 2); (2, 4)]) as Hwf by (simpl; lia).
  split; [exact Hd|]. split; [exact Hwf|].
  destruct (per_segment_no_leak Q (λ seg, Ok (center seg)) (ramp 4 2) 4%nat
              [(0, 2); (2, 4)] Hd Hwf)
    as (out & Hrun & _ & Hsegs & _).
  { intros [|[|j]] s e Hj; simpl in Hj; [| |done];
      injection Hj as <- <-; eexists; (split; [reflexivity|]);
      apply (bool_decide_unpack _); vm_compute; exact I. }
  exists out. split; [exact Hrun|].
  pose proof (Hsegs 1%nat 2 4 eq_refl) as Heq.
  injection Heq as Heq. symmetry. exact Heq.
Defined.

(** X9. With the default arguments ([standardise=True], every other stage
    off) and a well-formed SegmentIndex, [preprocess_data] returns an array
    of the shape of the data in which every segment is the standardised
    segment of the input, with statistics of that segment alone; rows
    outside the segments and the SegmentIndex are returned as passed. *)
Theorem preprocess_data_standardises_segments :
  ∀ (A : Type) (SA : Scalar A) (SK : Sklearn A) (SP : Scipy A)
    (data : matrix A) (T : nat) (indices : list (Z * Z)) (o : options A),
    opt_dampen_extreme_peaks o = PyNone → opt_standardise o = true →
    opt_filter o = None → opt_detrend o = false →
    opt_onpower o = false → opt_onphase o = false →
    opt_pca o = PyNone → opt_ica o = PyNone → opt_downsample o = PyNone →
    is_matrix T (ncols data) data →
    wf_segments 0 0 (Z.of_nat T) indices →
    ∃ out log,
      preprocess_data data indices o = Ok (out, indices, log) ∧
      is_matrix T (ncols data) out ∧
      (∀ j s e, indices !! j = Some (s, e) →
         segment out s e = standardise (segment data s e)) ∧
      (∀ r, (∀ j s e, indices !! j = Some (s, e) → ¬ (s ≤ Z.of_nat r < e)) →
         out !! r = data !! r).
Proof.
  intros A SA SK SP data T indices o Hd Hs Hf Hdt Hpow Hpha Hpca Hica Hds
    Hdata Hwf.
  destruct (per_segment_spec (λ seg, Ok (standardise seg)) T (ncols data) data
              Hdata indices 0 data)
    as (out & Hfold & Hout & _ & Hsegs & Hrest); try done.
  { intros j s e Hj. eexists. split; [done|].
    apply standardise_is_matrix.
    destruct (wf_segments_lookup 0 0 (Z.of_nat T) indices j s e) as (? & ? & ?);
      [lia|done..|].
    unfold segment. eapply is_matrix_take_drop; [done|lia]. }
  eexists out, _. split; [|split; [done|split]].
  - unfold preprocess_data, conditioning, stage_dampen, stage_standardise,
      stage_filter, stage_detrend, stage_power_phase, stage_reduce,
      stage_post_standardise, stage_downsample.
    rewrite Hd, Hs, Hf, Hdt, Hpow, Hpha, Hpca, Hica, Hds.
    cbn [py_truthy py_ne_None py_is_None mbind result_bind andb negb].
    change (per_segment (λ seg, Ok (standardise seg)) indices data = Ok out)
      in Hfold.
    rewrite Hfold.
    cbn [py_truthy py_ne_None py_is_None mbind result_bind andb negb].
    destruct (opt_post_standardise o);
      cbn [py_truthy mbind result_bind andb stage_standardise fst snd];
      reflexivity.
  - intros j s e Hj. pose proof (Hsegs j s e Hj) as Heq. by injection Heq.
  - intros r Hnot. apply Hrest; [lia|done].
Qed.

Lemma preprocess_data_standardises_segments_witness :
  is_matrix 4 (ncols (ramp 4 2)) (ramp 4 2) ∧
  wf_segments 0 0 (Z.of_nat 4) [(0, 2); (2, 4)] ∧
  ∃ out log,
    preprocess_data (ramp 4 2) [(0, 2); (2, 4)] default_options
    = Ok (out, [(0, 2); (2, 4)], log) ∧
    segment out 2 4 = standardise (segment (ramp 4 2) 2 4).
Proof.
  assert (is_matrix 4 (ncols (ramp 4 2)) (ramp 4 2)) as Hd
    by (apply (bool_decide_unpack _); vm_compute; exact I).
  assert (wf_segments 0 0 (Z.of_nat 4) [(0, 2); (2, 4)]) as Hwf by (simpl; lia).
  split; [exact Hd|]. split; [exact Hwf|].
  destruct (preprocess_data_standardises_segments Q Q_scalar
              single_channel_sklearn short_segment_scipy (ramp 4 2) 4%nat
              [(0, 2); (2, 4)] default_options
              eq_refl eq_refl eq_refl eq_refl eq_refl eq_refl eq_refl eq_refl
              eq_refl Hd Hwf)
    as (out & log & Hrun & _ & Hsegs & _).
  exists out, log. split; [exact Hrun|]. exact (Hsegs 1%nat 2 4 eq_refl).
Defined.

(** ** build_data_autoregressive: segments that are too short *)

Lemma norm_indices_Ok_or_IndexError (n : nat) (idx : list Z) :
  (∃ l, mapR (norm_index n) idx = Ok l) ∨
  mapR (norm_index n) idx = Raise IndexError.
Proof.
  induction idx as [|i idx IH]; [left; by eexists|].
  cbn [mapR].
  assert ((∃ j, norm_index n i = Ok j) ∨ norm_index n i = Raise IndexError)
    as [[j ->]| ->].
  { unfold norm_index. repeat case_decide; eauto. }
  - cbn [mbind result_bind].
    destruct IH as [[l ->]| ->]; cbn; [left; by eexists|by right].
  - by right.
Qed.

Lemma set_block_no_rows {B} (X : matrix B) (cols : list Z) :
  set_block X [] cols [] = Ok X ∨ set_block X [] cols [] = Raise IndexError.
Proof.
  unfold set_block. cbn [mapR mbind result_bind].
  destruct (norm_indices_Ok_or_IndexError (ncols X) cols) as [[cs ->]| ->];
    cbn; [by left|by right].
Qed.

Lemma ar_lags_no_rows {A} `{Scalar A} (data : matrix A) (s e k : Z) (p : nat)
    (lags : list Z) (X : matrix A) :
  e - s ≤ k →
  foldlM (ar_lag data s e k p []) lags X = Ok X ∨
  foldlM (ar_lag data s e k p []) lags X = Raise IndexError.
Proof.
  intros Hshort. induction lags as [|i lags IH]; [by left|].
  cbn [foldlM].
  assert (ar_lag data s e k p [] X i = Ok X ∨
          ar_lag data s e k p [] X i = Raise IndexError) as [-> | ->].
  { unfold ar_lag, arange. rewrite (seqZ_nil (s + k - (i + 1))) by lia.
    cbn [take_idx mapR mbind result_bind]. apply set_block_no_rows. }
  - exact IH.
  - by right.
Qed.

Lemma ar_segment_short {A} `{Scalar A} (data : matrix A) (k : Z) (p j : nat)
    (s e : Z) (X Y : matrix A) (inew : list (Z * Z)) :
  e - s ≤ k →
  ar_segment data k p (X, Y, inew) (j, (s, e)) = Raise IndexError.
Proof.
  intros Hshort. unfold ar_segment, arange.
  rewrite (seqZ_nil (s + k)), (seqZ_nil s) by lia.
  cbn [fmap list_fmap take_idx mapR mbind result_bind].
  unfold set_rows.
  destruct (set_block_no_rows Y (arange 0 (Z.of_nat (ncols Y)))) as [-> | ->];
    cbn [mbind result_bind]; [|done].
  destruct (ar_lags_no_rows data s e k p (seqZ 0 (k - 0)) X Hshort) as [-> | ->];
    cbn [mbind result_bind]; done.
Qed.

(** X10. A first segment that is not longer than the order makes the
    autoregressive builder raise, whatever the data, the connectivity and
    the other segments; no partial result is returned.  When the data have
    fewer than [N * order] rows it is [np.zeros] that raises [ValueError]
    (a negative dimension); otherwise [ind_2] is empty and [IndexError] is
    raised (at [ind_2[0]], or earlier in the assignments). *)
Theorem build_data_autoregressive_short_segment :
  ∀ (A : Type) (SA : Scalar A) (linalg_inv : matrix A → result (matrix A))
    (data : matrix A) (s e : Z) (rest : list (Z * Z)) (k : Z)
    (connectivity : option (matrix A)) (center_data : bool),
    1 ≤ k → e - s ≤ k →
    build_data_autoregressive linalg_inv data ((s, e) :: rest) k
      connectivity center_data
    = ([], Raise (if decide (Z.of_nat (S (length rest)) * k
                             ≤ Z.of_nat (nrows data))
                  then IndexError else ValueError)).
Proof.
  intros A SA linalg_inv data s e rest k connectivity center_data Hk Hshort.
  unfold build_data_autoregressive. rewrite decide_False by lia. f_equal.
  unfold np_zeros. simpl length.
  destruct (decide (Z.of_nat (S (length rest)) * k ≤ Z.of_nat (nrows data)))
    as [HT|HT].
  - rewrite !decide_True by lia.
    cbn [mbind result_bind enumerate imap foldlM].
    by rewrite ar_segment_short.
  - by rewrite !decide_False by lia.
Qed.

(** Order 2 on a first segment of two samples, in an array of six rows; and
    order 3 on the only segment of an array of two rows. *)
Lemma build_data_autoregressive_short_segment_witness :
  (1 ≤ 2 ∧ 2 - 0 ≤ 2 ∧
   build_data_autoregressive gauss_inv (ramp 6 2) [(0, 2); (2, 6)] 2 None true
   = ([], Raise IndexError)) ∧
  (1 ≤ 3 ∧ 2 - 0 ≤ 3 ∧
   build_data_autoregressive gauss_inv (ramp 2 2) [(0, 2)] 3 None true
   = ([], Raise ValueError)).
Proof.
  split; (split; [lia|]); (split; [lia|]).
  - exact (build_data_autoregressive_short_segment Q Q_scalar gauss_inv
             (ramp 6 2) 0 2 [(2, 6)] 2 None true ltac:(lia) ltac:(lia)).
  - exact (build_data_autoregressive_short_segment Q Q_scalar gauss_inv
             (ramp 2 2) 0 2 [] 3 None true ltac:(lia) ltac:(lia)).
Defined.

(** ** The SegmentIndex returned by the builders *)

(** Segments shortened by [w] each and moved up by the rows removed before
    them stay ordered, and stay contiguous when they were. *)
Lemma shortened_segments (w : Z) (T : Z) :
  0 ≤ w →
  ∀ segs (j0 : nat) lo inew,
    length inew = length segs →
    (∀ j s e, segs !! j = Some (s, e) →
       inew !! j = Some (s - Z.of_nat (j0 + j) * w,
                         s - Z.of_nat (j0 + j) * w + (e - s - w))) →
    wf_segments w lo T segs →
    wf_segments 0 (lo - Z.of_nat j0 * w)
                (T - Z.of_nat (j0 + length segs) * w) inew ∧
    ∀ hi, tiles lo hi segs →
      tiles (lo - Z.of_nat j0 * w) (hi - Z.of_nat (j0 + length segs) * w) inew.
Proof.
  intros Hw segs.
  induction segs as [|[s e] segs IH]; intros j0 lo inew Hlen Hinew Hwf.
  { destruct inew; [|done]. simpl in *. split; [lia|]. intros hi ->.
    f_equal. lia. }
  destruct inew as [|[a b] inew]; [done|].
  simpl in Hlen, Hwf. destruct Hwf as (Hlos & Hse & Hwf).
  pose proof (Hinew 0%nat s e eq_refl) as H0. simpl in H0.
  rewrite Nat.add_0_r in H0. injection H0 as -> ->.
  destruct (IH (S j0) e inew) as [IHwf IHtiles]; [lia| |done|].
  { intros j s' e' Hj. specialize (Hinew (S j) s' e' Hj). simpl in Hinew.
    rewrite Hinew. do 4 f_equal; lia. }
  replace (e - Z.of_nat (S j0) * w)
    with (s - Z.of_nat j0 * w + (e - s - w)) in IHwf, IHtiles by lia.
  replace (Z.of_nat (S j0 + length segs))
    with (Z.of_nat (j0 + length ((s, e) :: segs))) in IHwf, IHtiles
    by (simpl; lia).
  split.
  - simpl. split; [lia|]. split; [lia|]. exact IHwf.
  - intros hi [-> Htiles]. simpl. split; [done|]. by apply IHtiles.
Qed.

(** X11. The SegmentIndex returned by the autoregressive builder fits the
    arrays it returns: for order [k >= 1] and an ordered SegmentIndex with
    segments longer than [k], X and Y have [T - N * k] rows, the new
    segments are non-empty, ordered and within these rows, and when the
    input segments cover the data without gaps the new ones cover all rows
    of X and Y without gaps. *)
Theorem build_data_autoregressive_indices_fit :
  ∀ (A : Type) (SA : Scalar A) (linalg_inv : matrix A → result (matrix A))
    (data : matrix A) (T : nat) (indices : list (Z * Z)) (k : Z)
    (center_data : bool),
    is_matrix T (ncols data) data → 1 ≤ k →
    wf_segments k 0 (Z.of_nat T) indices →
    let n := Z.of_nat T - Z.of_nat (length indices) * k in
    ∃ X Y inew,
      build_data_autoregressive linalg_inv data indices k None center_data
      = ([], Ok (X, Y, inew, None)) ∧
      Z.of_nat (nrows X) = n ∧ Z.of_nat (nrows Y) = n ∧
      length inew = length indices ∧
      wf_segments 0 0 n inew ∧
      (tiles 0 (Z.of_nat T) indices → tiles 0 n inew).
Proof.
  intros A SA linalg_inv data T indices k center_data Hdata Hk Hwf n.
  destruct (ar_builder_spec linalg_inv data T indices k center_data Hdata Hk Hwf)
    as (X0 & Y0 & inew & Heq & HX0 & HY0 & Hb & Hlen & Hseg).
  destruct (shortened_segments k (Z.of_nat T) ltac:(lia) indices 0%nat 0 inew Hlen)
    as [Hwf' Htiles']; [|done|].
  { intros j s e Hj. by destruct (Hseg j s e Hj) as [-> _]. }
  simpl in Hwf', Htiles'.
  eexists _, _, inew. split; [exact Heq|].
  assert (∀ n p (M : matrix A), is_matrix n p M →
            nrows (if center_data then center M else M) = n) as Hrows.
  { intros n' p' M HM. destruct center_data; [|exact (proj1 HM)].
    exact (proj1 (center_is_matrix n' p' M HM)). }
  rewrite (Hrows _ _ _ HX0), (Hrows _ _ _ HY0).
  split; [unfold n; lia|]. split; [unfold n; lia|]. split; [done|].
  split; [exact Hwf'|]. intros Ht. by apply (Htiles' (Z.of_nat T)).
Qed.

(** Two segments of three samples, order 1: four rows, segments [0, 2) and
    [2, 4). *)
Lemma build_data_autoregressive_indices_fit_witness :
  is_matrix 6 (ncols (ramp 6 2)) (ramp 6 2) ∧ 1 ≤ 1 ∧
  wf_segments 1 0 (Z.of_nat 6) [(0, 3); (3, 6)] ∧
  tiles 0 (Z.of_nat 6) [(0, 3); (3, 6)] ∧
  ∃ X Y inew,
    build_data_autoregressive gauss_inv (ramp 6 2) [(0, 3); (3, 6)] 1 None true
    = ([], Ok (X, Y, inew, None)) ∧
    Z.of_nat (nrows X) = 4 ∧ tiles 0 4 inew.
Proof.
  assert (is_matrix 6 (ncols (ramp 6 2)) (ramp 6 2)) as Hd
    by (apply (bool_decide_unpack _); vm_compute; exact I).
  assert (wf_segments 1 0 (Z.of_nat 6) [(0, 3); (3, 6)]) as Hwf by (simpl; lia).
  assert (tiles 0 (Z.of_nat 6) [(0, 3); (3, 6)]) as Ht by (simpl; lia).
  split; [exact Hd|]. split; [lia|]. split; [exact Hwf|]. split; [exact Ht|].
  destruct (build_data_autoregressive_indices_fit Q Q_scalar gauss_inv (ramp 6 2)
              6%nat [(0, 3); (3, 6)] 1 true Hd ltac:(lia) Hwf)
    as (X & Y & inew & Hrun & HX & _ & _ & _ & Htiles).
  exists X, Y, inew. split; [exact Hrun|]. split; [exact HX|]. exact (Htiles Ht).
Defined.

(** ** build_data_tde: the embedding for a window around zero *)

Lemma foldl_min_le (x : Z) (l : list Z) :
  foldl Z.min x l ≤ x ∧ ∀ y, y ∈ l → foldl Z.min x l ≤ y.
Proof.
  revert x. induction l as [|z l IH]; intros x; simpl.
  { split; [lia|]. intros y Hy. by apply elem_of_nil in Hy. }
  destruct (IH (Z.min x z)) as [Hx Hl]. split; [lia|].
  intros y Hy. apply elem_of_cons in Hy as [->|Hy]; [lia|by apply Hl].
Qed.

Lemma foldl_max_ge (x : Z) (l : list Z) :
  x ≤ foldl Z.max x l ∧ ∀ y, y ∈ l → y ≤ foldl Z.max x l.
Proof.
  revert x. induction l as [|z l IH]; intros x; simpl.
  { split; [lia|]. intros y Hy. by apply elem_of_nil in Hy. }
  destruct (IH (Z.max x z)) as [Hx Hl]. split; [lia|].
  intros y Hy. apply elem_of_cons in Hy as [->|Hy]; [lia|by apply Hl].
Qed.

Lemma np_min_Z_le (lags : list Z) (minlag l : Z) :
  np_min_Z lags = Ok minlag → l ∈ lags → minlag ≤ l.
Proof.
  destruct lags as [|x lags]; [done|]. intros [= <-] Hl.
  destruct (foldl_min_le x lags) as [Hx Hrest].
  apply elem_of_cons in Hl as [->|Hl]; [done|by apply Hrest].
Qed.

Lemma np_max_Z_ge (lags : list Z) (maxlag l : Z) :
  np_max_Z lags = Ok maxlag → l ∈ lags → l ≤ maxlag.
Proof.
  destruct lags as [|x lags]; [done|]. intros [= <-] Hl.
  destruct (foldl_max_ge x lags) as [Hx Hrest].
  apply elem_of_cons in Hl as [->|Hl]; [done|by apply Hrest].
Qed.

(** The embedding loop for lags with [minlag <= 0 < maxlag]. *)
Lemma tde_embed_spec {A} `{Scalar A} (data : matrix A) (T : nat)
    (indices : list (Z * Z)) (lags : list Z) (minlag maxlag : Z) :
  is_matrix T (ncols data) data →
  np_min_Z lags = Ok minlag → np_max_Z lags = Ok maxlag →
  minlag ≤ 0 → 0 < maxlag →
  wf_segments (maxlag - minlag) 0 (Z.of_nat T) indices →
  let p := ncols data in
  let L := length lags in
  let w := maxlag - minlag in
  let N := Z.of_nat (length indices) in
  ∃ X0 inew,
    tde_embed data indices lags = Ok (X0, inew) ∧
    is_matrix (Z.to_nat (Z.of_nat T - N * w)) (L * p) X0 ∧
    N * w ≤ Z.of_nat T ∧
    length inew = length indices ∧
    ∀ j s e, indices !! j = Some (s, e) →
      let a := s - Z.of_nat j * w in
      inew !! j = Some (a, a + (e - s - w)) ∧
      ∀ (i : nat) l r c, lags !! i = Some l →
        0 ≤ r < e - s - w → 0 ≤ c < Z.of_nat p →
        cellZ X0 (a + r) (c * Z.of_nat L + Z.of_nat i)
        = cellZ data (s + (r - minlag - l) `mod` (e - s)) c.
Proof.
  intros Hdata Hminlag Hmaxlag Hmin Hmax Hwf p L w N.
  pose proof (wf_segments_bound w 0 (Z.of_nat T) indices ltac:(lia) Hwf) as Hb.
  unfold tde_embed, nrows.
  rewrite Hminlag, Hmaxlag, (proj1 Hdata). cbn [mbind result_bind].
  fold p L w N.
  destruct (np_zeros_is_matrix (A := A) (Z.of_nat T - N * w)
              (Z.of_nat p * Z.of_nat L))
    as (X & -> & HX); [nia|nia|].
  cbn [mbind result_bind].
  replace (Z.to_nat (Z.of_nat p * Z.of_nat L)) with (L * p)%nat in HX by lia.
  destruct (tde_segments_spec data T p (Z.to_nat (Z.of_nat T - N * w))
              lags minlag maxlag Hdata Hmin Hmax
              indices 0%nat 0 X (replicate (length indices) (0, 0)))
    as (X' & inew & Hfold & HX' & Hlen & _ & _ & Hcells);
    try done; try (fold w; nia).
  unfold enumerate.
  erewrite imap_ext; [rewrite Hfold|done].
  rewrite length_replicate in Hlen.
  exists X', inew. split; [done|]. split; [done|]. split; [nia|].
  split; [done|].
  intros j s e Hj. apply (Hcells j s e Hj).
  rewrite length_replicate. by eapply lookup_lt_Some.
Qed.

(** X12. The SegmentIndex returned by [build_data_tde] fits the array it
    returns: for lags with [minlag <= 0 < maxlag], window
    [w = maxlag - minlag] and an ordered SegmentIndex with segments longer
    than [w], the call without PCA returns an array with [T - N * w] rows
    and [L * p] columns; the new segments are non-empty, ordered and within
    these rows, and cover them without gaps when the input segments cover
    the data without gaps. *)
Theorem build_data_tde_indices_fit :
  ∀ (A : Type) (SA : Scalar A) (SK : Sklearn A) (data : matrix A) (T : nat)
    (indices : list (Z * Z)) (lags : list Z) (minlag maxlag : Z)
    (standardise_pc : bool),
    is_matrix T (ncols data) data →
    np_min_Z lags = Ok minlag → np_max_Z lags = Ok maxlag →
    minlag ≤ 0 → 0 < maxlag →
    wf_segments (maxlag - minlag) 0 (Z.of_nat T) indices →
    let n := Z.of_nat T - Z.of_nat (length indices) * (maxlag - minlag) in
    ∃ X inew,
      build_data_tde data indices lags PyNone standardise_pc
      = Ok (X, inew, None) ∧
      is_matrix (Z.to_nat n) (length lags * ncols data) X ∧
      0 ≤ n ∧
      length inew = length indices ∧
      wf_segments 0 0 n inew ∧
      (tiles 0 (Z.of_nat T) indices → tiles 0 n inew).
Proof.
  intros A SA SK data T indices lags minlag maxlag standardise_pc
    Hdata Hminlag Hmaxlag Hmin Hmax Hwf n.
  destruct (tde_embed_spec data T indices lags minlag maxlag
              Hdata Hminlag Hmaxlag Hmin Hmax Hwf)
    as (X0 & inew & Hembed & HX0 & Hb & Hlen & Hseg).
  destruct (shortened_segments (maxlag - minlag) (Z.of_nat T) ltac:(lia)
              indices 0%nat 0 inew Hlen)
    as [Hwf' Htiles']; [|done|].
  { intros j s e Hj. by destruct (Hseg j s e Hj) as [-> _]. }
  simpl in Hwf', Htiles'.
  exists (standardise X0), inew. split.
  { unfold build_data_tde. rewrite Hembed. done. }
  split; [by apply standardise_is_matrix|].
  split; [unfold n; lia|]. split; [done|]. split; [exact Hwf'|].
  intros Ht. by apply (Htiles' (Z.of_nat T)).
Qed.

(** Lags -1, 0, 1 on two segments of four samples: four rows, segments
    [0, 2) and [2, 4). *)
Lemma build_data_tde_indices_fit_witness :
  is_matrix 8 (ncols (ramp 8 2)) (ramp 8 2) ∧
  np_min_Z [-1; 0; 1] = Ok (-1) ∧ np_max_Z [-1; 0; 1] = Ok 1 ∧
  wf_segments (1 - -1) 0 (Z.of_nat 8) [(0, 4); (4, 8)] ∧
  tiles 0 (Z.of_nat 8) [(0, 4); (4, 8)] ∧
  ∃ X inew,
    build_data_tde (ramp 8 2) [(0, 4); (4, 8)] [-1; 0; 1] PyNone true
    = Ok (X, inew, None) ∧
    is_matrix 4 6 X ∧ tiles 0 4 inew.
Proof.
  assert (is_matrix 8 (ncols (ramp 8 2)) (ramp 8 2)) as Hd
    by (apply (bool_decide_unpack _); vm_compute; exact I).
  assert (wf_segments (1 - -1) 0 (Z.of_nat 8) [(0, 4); (4, 8)]) as Hwf
    by (simpl; lia).
  assert (tiles 0 (Z.of_nat 8) [(0, 4); (4, 8)]) as Ht by (simpl; lia).
  split; [exact Hd|]. split; [reflexivity|]. split; [reflexivity|].
  split; [exact Hwf|]. split; [exact Ht|].
  destruct (build_data_tde_indices_fit Q Q_scalar single_channel_sklearn
              (ramp 8 2) 8%nat [(0, 4); (4, 8)] [-1; 0; 1] (-1) 1 true
              Hd eq_refl eq_refl ltac:(lia) ltac:(lia) Hwf)
    as (X & inew & Hrun & HX & _ & _ & _ & Htiles).
  exists X, inew. split; [exact Hrun|]. split; [exact HX|]. exact (Htiles Ht).
Defined.

(** X13. With a window that is symmetric around zero ([minlag = -m],
    [maxlag = m]) the embedding never wraps around: in the output row
    aligned to source sample [t = s + m + r] of a segment, the column of
    channel [c] and lag [l] holds sample [t - l] of that channel, which lies
    in the same segment. *)
Theorem tde_embed_symmetric_window :
  ∀ (A : Type) (SA : Scalar A) (data : matrix A) (T : nat)
    (indices : list (Z * Z)) (lags : list Z) (m : Z),
    is_matrix T (ncols data) data →
    np_min_Z lags = Ok (- m) → np_max_Z lags = Ok m → 0 < m →
    wf_segments (2 * m) 0 (Z.of_nat T) indices →
    ∃ X0 inew,
      tde_embed data indices lags = Ok (X0, inew) ∧
      ∀ j s e (i : nat) l r c,
        indices !! j = Some (s, e) → lags !! i = Some l →
        0 ≤ r < e - s - 2 * m → 0 ≤ c < Z.of_nat (ncols data) →
        s ≤ s + m + r - l < e ∧
        cellZ X0 (s - Z.of_nat j * (2 * m) + r)
                 (c * Z.of_nat (length lags) + Z.of_nat i)
        = cellZ data (s + m + r - l) c.
Proof.
  intros A SA data T indices lags m Hdata Hminlag Hmaxlag Hm Hwf.
  replace (2 * m) with (m - - m) in * by lia.
  destruct (tde_embed_spec data T indices lags (- m) m
              Hdata Hminlag Hmaxlag ltac:(lia) Hm Hwf)
    as (X0 & inew & Hembed & _ & _ & _ & Hseg).
  exists X0, inew. split; [done|].
  intros j s e i l r c Hj Hi Hr Hc.
  pose proof (list_elem_of_lookup_2 _ _ _ Hi) as Hl.
  pose proof (np_min_Z_le _ _ _ Hminlag Hl).
  pose proof (np_max_Z_ge _ _ _ Hmaxlag Hl).
  split; [lia|].
  destruct (Hseg j s e Hj) as [_ Hcells].
  rewrite (Hcells i l r c Hi Hr Hc). f_equal.
  replace (r - - m - l) with (m + r - l) by lia.
  rewrite Z.mod_small by lia. lia.
Qed.

(** Lags -1, 0, 1: output row 2 is aligned to source sample 5 of the second
    segment, and its column for channel 1 and lag 1 holds sample 4. *)
Lemma tde_embed_symmetric_window_witness :
  is_matrix 8 (ncols (ramp 8 2)) (ramp 8 2) ∧
  np_min_Z [-1; 0; 1] = Ok (- 1) ∧ np_max_Z [-1; 0; 1] = Ok 1 ∧ 0 < 1 ∧
  wf_segments (2 * 1) 0 (Z.of_nat 8) [(0, 4); (4, 8)] ∧
  ∃ X0 inew,
    tde_embed (ramp 8 2) [(0, 4); (4, 8)] [-1; 0; 1] = Ok (X0, inew) ∧
    cellZ X0 2 5 = cellZ (ramp 8 2) 4 1.
Proof.
  assert (is_matrix 8 (ncols (ramp 8 2)) (ramp 8 2)) as Hd
    by (apply (bool_decide_unpack _); vm_compute; exact I).
  assert (wf_segments (2 * 1) 0 (Z.of_nat 8) [(0, 4); (4, 8)]) as Hwf
    by (simpl; lia).
  split; [exact Hd|]. split; [reflexivity|]. split; [reflexivity|].
  split; [lia|]. split; [exact Hwf|].
  destruct (tde_embed_symmetric_window Q Q_scalar (ramp 8 2) 8%nat
              [(0, 4); (4, 8)] [-1; 0; 1] 1 Hd eq_refl eq_refl ltac:(lia) Hwf)
    as (X0 & inew & Hembed & Hcells).
  exists X0, inew. split; [exact Hembed|].
  exact (proj2 (Hcells 1%nat 4 8 2%nat 1 0 1 eq_refl eq_refl
                  ltac:(lia) ltac:(simpl; lia))).
Defined.

(** X14. With a window that is not symmetric the clipping
    [X_l[-minlag:-maxlag]] keeps rows that [np.roll] has wrapped around: an
    entry whose lag reaches before the kept rows ([r - minlag - l < 0])
    holds a sample from the end of the segment, row [e + (r - minlag - l)],
    and one whose lag reaches past the segment holds a sample from its
    start. *)
Theorem tde_embed_wraps_around :
  ∀ (A : Type) (SA : Scalar A) (data : matrix A) (T : nat)
    (indices : list (Z * Z)) (lags : list Z) (minlag maxlag : Z),
    is_matrix T (ncols data) data →
    np_min_Z lags = Ok minlag → np_max_Z lags = Ok maxlag →
    minlag ≤ 0 → 0 < maxlag →
    wf_segments (maxlag - minlag) 0 (Z.of_nat T) indices →
    ∃ X0 inew,
      tde_embed data indices lags = Ok (X0, inew) ∧
      ∀ j s e (i : nat) l r c,
        indices !! j = Some (s, e) → lags !! i = Some l →
        0 ≤ r < e - s - (maxlag - minlag) → 0 ≤ c < Z.of_nat (ncols data) →
        let col := c * Z.of_nat (length lags) + Z.of_nat i in
        let row := s - Z.of_nat j * (maxlag - minlag) + r in
        (r - minlag - l < 0 →
           cellZ X0 row col = cellZ data (e + (r - minlag - l)) c) ∧
        (e - s ≤ r - minlag - l →
           cellZ X0 row col = cellZ data (s + (r - minlag - l) - (e - s)) c).
Proof.
  intros A SA data T indices lags minlag maxlag
    Hdata Hminlag Hmaxlag Hmin Hmax Hwf.
  destruct (tde_embed_spec data T indices lags minlag maxlag
              Hdata Hminlag Hmaxlag Hmin Hmax Hwf)
    as (X0 & inew & Hembed & _ & _ & _ & Hseg).
  exists X0, inew. split; [done|].
  intros j s e i l r c Hj Hi Hr Hc col row.
  pose proof (list_elem_of_lookup_2 _ _ _ Hi) as Hl.
  pose proof (np_min_Z_le _ _ _ Hminlag Hl).
  pose proof (np_max_Z_ge _ _ _ Hmaxlag Hl).
  destruct (Hseg j s e Hj) as [_ Hcells].
  unfold row, col. rewrite (Hcells i l r c Hi Hr Hc).
  split; intros Hwrap; f_equal.
  - replace ((r - minlag - l) `mod` (e - s)) with (r - minlag - l + (e - s));
      [lia|].
    apply (Z.mod_unique _ _ (-1)); lia.
  - replace ((r - minlag - l) `mod` (e - s)) with (r - minlag - l - (e - s));
      [lia|].
    apply (Z.mod_unique _ _ 1); lia.
Qed.

(** Lags 0, 1 on two segments of four samples: the first output row of the
    second segment holds, for lag 1, the last sample of that segment. *)
Lemma tde_embed_wraps_around_witness :
  is_matrix 8 (ncols (ramp 8 2)) (ramp 8 2) ∧
  np_min_Z [0; 1] = Ok 0 ∧ np_max_Z [0; 1] = Ok 1 ∧ 0 ≤ 0 ∧ 0 < 1 ∧
  wf_segments (1 - 0) 0 (Z.of_nat 8) [(0, 4); (4, 8)] ∧
  ∃ X0 inew,
    tde_embed (ramp 8 2) [(0, 4); (4, 8)] [0; 1] = Ok (X0, inew) ∧
    cellZ X0 3 1 = cellZ (ramp 8 2) 7 0.
Proof.
  assert (is_matrix 8 (ncols (ramp 8 2)) (ramp 8 2)) as Hd
    by (apply (bool_decide_unpack _); vm_compute; exact I).
  assert (wf_segments (1 - 0) 0 (Z.of_nat 8) [(0, 4); (4, 8)]) as Hwf
    by (simpl; lia).
  split; [exact Hd|]. split; [reflexivity|]. split; [reflexivity|].
  split; [lia|]. split; [lia|]. split; [exact Hwf|].
  destruct (tde_embed_wraps_around Q Q_scalar (ramp 8 2) 8%nat
              [(0, 4); (4, 8)] [0; 1] 0 1 Hd eq_refl eq_refl
              ltac:(lia) ltac:(lia) Hwf)
    as (X0 & inew & Hembed & Hcells).
  exists X0, inew. split; [exact Hembed|].
  exact (proj1 (Hcells 1%nat 4 8 1%nat 1 0 0 eq_refl eq_refl
                  ltac:(lia) ltac:(simpl; lia)) ltac:(lia)).
Defined.

(** ** build_data_tde: lags on one side of zero *)

Lemma py_slice_one_sided {B} (l : list B) (minlag maxlag : Z) :
  minlag ≤ maxlag → maxlag ≤ 0 ∨ 0 < minlag →
  py_slice l (- minlag) (- maxlag) = [].
Proof.
  intros Hle Hside. unfold py_slice, clip_bound.
  replace (_ - _)%nat with 0%nat; [done|].
  repeat case_decide; lia.
Qed.

Lemma tde_segment_one_sided {A : Type} `{Scalar A}
    (data : matrix A) (n p : nat) (lags : list Z) (minlag maxlag : Z)
    (inew : list (Z * Z)) (s e : Z) :
  lags ≠ [] → minlag ≤ maxlag → maxlag ≤ 0 ∨ 0 < minlag →
  0 ≤ s → s + (maxlag - minlag) < e → e ≤ Z.of_nat (nrows data) →
  e - (maxlag - minlag) ≤ Z.of_nat n →
  tde_segment data lags minlag maxlag p
    (np_full s_zero n (Z.to_nat (Z.of_nat p * Z.of_nat (length lags))), inew)
    (0%nat, (s, e))
  = Raise ValueError.
Proof.
  intros Hne Hle Hside Hs Hse He Hn.
  destruct lags as [|l0 lags]; [done|].
  unfold tde_segment.
  cbn [enumerate imap foldlM].
  unfold tde_lag, arange.
  rewrite take_idx_seqZ by (unfold nrows in *; lia).
  cbn [mbind result_bind].
  rewrite py_slice_one_sided by done.
  rewrite set_block_no_rows_raises; [done|..].
  - rewrite seqZ_cons by lia. done.
  - intros i Hi. apply list_elem_of_fmap in Hi as (t & -> & Ht).
    apply elem_of_seqZ in Ht.
    unfold nrows, np_full. rewrite length_replicate. lia.
  - intros i Hi. unfold arange_step in Hi.
    apply list_elem_of_fmap in Hi as (q & -> & Hq).
    apply elem_of_seqZ in Hq.
    rewrite np_full_ncols by lia.
    set (L := Z.of_nat (length (l0 :: lags))) in *.
    assert (0 < L) as HL by (unfold L; simpl; lia).
    replace (L * Z.of_nat p - Z.of_nat 0 + L - 1)
      with (L - 1 + Z.of_nat p * L) in Hq by lia.
    rewrite Z.div_add, Z.div_small in Hq by lia. nia.
Qed.

(** X15. [build_data_tde] needs lags on both sides of zero: when all lags
    are positive, or none is, the clipping slice [X_l[-minlag:-maxlag]] is
    empty and the first assignment raises [ValueError], for every array and
    every ordered SegmentIndex with a first segment longer than the window,
    with or without PCA. *)
Theorem build_data_tde_one_sided_lags_raise :
  ∀ (A : Type) (SA : Scalar A) (SK : Sklearn A) (data : matrix A)
    (indices : list (Z * Z)) (lags : list Z) (minlag maxlag : Z)
    (pca : pyval A) (standardise_pc : bool),
    np_min_Z lags = Ok minlag → np_max_Z lags = Ok maxlag →
    maxlag ≤ 0 ∨ 0 < minlag →
    indices ≠ [] →
    wf_segments (maxlag - minlag) 0 (Z.of_nat (nrows data)) indices →
    build_data_tde data indices lags pca standardise_pc = Raise ValueError.
Proof.
  intros A SA SK data indices lags minlag maxlag pca standardise_pc
    Hminlag Hmaxlag Hside Hne Hwf.
  assert (lags ≠ []) as Hlags by (by destruct lags).
  assert (minlag ≤ maxlag) as Hle.
  { destruct lags as [|l0 lags]; [done|].
    pose proof (np_min_Z_le _ _ l0 Hminlag ltac:(left)).
    pose proof (np_max_Z_ge _ _ l0 Hmaxlag ltac:(left)). lia. }
  destruct indices as [|[s e] rest]; [done|].
  assert (0 ≤ maxlag - minlag) as Hw by lia.
  pose proof (wf_segments_bound _ _ _ _ Hw Hwf) as Hb.
  simpl in Hwf. destruct Hwf as (Hs & Hse & Hwf).
  pose proof (wf_segments_bound _ _ _ _ Hw Hwf) as Hb'.
  unfold build_data_tde, tde_embed. rewrite Hminlag, Hmaxlag.
  cbn [mbind result_bind].
  unfold np_zeros. rewrite decide_True by (simpl length in *; nia).
  cbn [mbind result_bind enumerate imap foldlM].
  simpl length in *.
  rewrite (tde_segment_one_sided data); try done; nia.
Qed.

(** Lags 1, 2 on an 8 x 2 array with two segments of four samples. *)
Lemma build_data_tde_one_sided_lags_raise_witness :
  np_min_Z [1; 2] = Ok 1 ∧ np_max_Z [1; 2] = Ok 2 ∧
  wf_segments (2 - 1) 0 (Z.of_nat (nrows (ramp 8 2))) [(0, 4); (4, 8)] ∧
  build_data_tde (ramp 8 2) [(0, 4); (4, 8)] [1; 2] PyNone true
  = Raise ValueError.
Proof.
  assert (wf_segments (2 - 1) 0 (Z.of_nat (nrows (ramp 8 2))) [(0, 4); (4, 8)])
    as Hwf by (vm_compute; intuition discriminate).
  split; [reflexivity|]. split; [reflexivity|]. split; [exact Hwf|].
  apply (build_data_tde_one_sided_lags_raise Q Q_scalar single_channel_sklearn
           (ramp 8 2) [(0, 4); (4, 8)] [1; 2] 1 2 PyNone true eq_refl eq_refl);
    [right; lia|discriminate|exact Hwf].
Defined.

(** ** The connectivity blocks of the two regression builders *)

Lemma bind_Ok {B C} (m : result B) (f : B → result C) (c : C) :
  m ≫= f = Ok c → ∃ b, m = Ok b ∧ f b = Ok c.
Proof. destruct m as [b|e]; [eauto|done]. Qed.

Lemma mapR_length {B C} (f : B → result C) (l : list B) (l' : list C) :
  mapR f l = Ok l' → length l' = length l.
Proof.
  revert l'. induction l as [|x l IH]; intros l' Hl; simpl in Hl.
  { by injection Hl as <-. }
  apply bind_Ok in Hl as (y & _ & Hl). apply bind_Ok in Hl as (ys & Hys & Hl).
  injection Hl as <-. simpl. f_equal. by apply IH.
Qed.

Lemma mapR_Forall {B C} (f : B → result C) (P : C → Prop) (l : list B)
    (l' : list C) :
  (∀ x y, f x = Ok y → P y) → mapR f l = Ok l' → Forall P l'.
Proof.
  intros Hf. revert l'. induction l as [|x l IH]; intros l' Hl; simpl in Hl.
  { injection Hl as <-. constructor. }
  apply bind_Ok in Hl as (y & Hy & Hl). apply bind_Ok in Hl as (ys & Hys & Hl).
  injection Hl as <-. constructor; [by eapply Hf|by apply IH].
Qed.

Lemma select_cols_shape {A} (M M' : matrix A) (idx : list nat) :
  select_cols M idx = Ok M' →
  length M' = length M ∧ Forall (λ row, length row = length idx) M'.
Proof.
  intros HM. split; [by eapply mapR_length|].
  eapply mapR_Forall; [|exact HM].
  intros row row' Hrow. simpl in Hrow. by eapply mapR_length.
Qed.

Lemma restrict_shape {A} (conn R : matrix A) (rows cols : list nat) :
  restrict conn rows cols = Ok R → is_matrix (length rows) (length cols) R.
Proof.
  intros HR. split; [by eapply mapR_length|].
  eapply mapR_Forall; [|exact HR].
  intros r row Hrow. simpl in Hrow.
  destruct (conn !! r); [|done]. by eapply mapR_length.
Qed.

Lemma omap_length_le {B C} (f : B → option C) (l : list B) :
  (length (omap f l) ≤ length l)%nat.
Proof.
  induction l as [|x l IH]; csimpl; [done|]. destruct (f x); csimpl; lia.
Qed.

Lemma np_where_length_le (mask : list bool) :
  (length (np_where mask) ≤ length mask)%nat.
Proof.
  unfold np_where, enumerate.
  rewrite <-(length_imap (λ j x, (j, x)) mask). apply omap_length_le.
Qed.

Lemma mapR_fmap {B C D} (f : B → result C) (g : C → D) (h : B → D)
    (l : list B) (l' : list C) :
  (∀ x y, f x = Ok y → g y = h x) → mapR f l = Ok l' → g <$> l' = h <$> l.
Proof.
  intros Hf. revert l'. induction l as [|x l IH]; intros l' Hl; simpl in Hl.
  { by injection Hl as <-. }
  apply bind_Ok in Hl as (y & Hy & Hl). apply bind_Ok in Hl as (ys & Hys & Hl).
  injection Hl as <-. cbn [fmap list_fmap]. f_equal; [by apply Hf|by apply IH].
Qed.

Lemma mapR_lookup {B C} (f : B → result C) (l : list B) (l' : list C)
    (i : nat) (x : B) :
  mapR f l = Ok l' → l !! i = Some x → ∃ y, f x = Ok y ∧ l' !! i = Some y.
Proof.
  revert l' i. induction l as [|x0 l IH]; intros l' i Hl Hi; [done|].
  simpl in Hl.
  apply bind_Ok in Hl as (y & Hy & Hl). apply bind_Ok in Hl as (ys & Hys & Hl).
  injection Hl as <-. destruct i as [|i]; simpl in Hi.
  - injection Hi as <-. eauto.
  - by apply (IH ys i).
Qed.

Lemma column_col_of {B} (M : matrix B) (j : nat) (col : list B) :
  column M j = Ok col → col_of M j = col.
Proof.
  unfold column, col_of. revert col.
  induction M as [|row M IH]; intros col Hcol; simpl in Hcol.
  { by injection Hcol as <-. }
  apply bind_Ok in Hcol as (x & Hx & Hcol).
  apply bind_Ok in Hcol as (col' & Hcol' & Hcol). injection Hcol as <-.
  csimpl. destruct (row !! j) as [y|]; [|done].
  injection Hx as ->. csimpl. f_equal. by apply IH.
Qed.

Lemma join_replicate_mod {B} (h : nat → B) (k p : nat) :
  mjoin (replicate k (h <$> seq 0 p))
  = (λ c, h (c `mod` p)%nat) <$> seq 0 (k * p).
Proof.
  induction k as [|k IH]; [done|].
  csimpl. rewrite IH, seq_app, fmap_app. f_equal.
  - apply list_fmap_ext. intros i c Hc. apply lookup_seq in Hc as [-> Hc].
    simpl. by rewrite Nat.mod_small.
  - assert (seq (0 + p) (k * p) = Nat.add p <$> seq 0 (k * p)) as ->
      by (rewrite fmap_add_seq; f_equal; lia).
    rewrite <-list_fmap_compose.
    apply list_fmap_ext. intros i c _. simpl.
    replace (p + c)%nat with (c + 1 * p)%nat by lia.
    by rewrite Nat.Div0.mod_add.
Qed.

Lemma restrict_cell {A} (cn R : matrix A) (rows cols : list nat)
    (a b ra cb : nat) :
  restrict cn rows cols = Ok R →
  rows !! a = Some ra → cols !! b = Some cb →
  cell R a b = cell cn ra cb.
Proof.
  intros HR Ha Hb. unfold restrict in HR.
  destruct (mapR_lookup _ _ _ _ _ HR Ha) as (row' & Hrow' & HRa).
  simpl in Hrow'. unfold cell. rewrite HRa. simpl.
  destruct (cn !! ra) as [row|]; [|done]. simpl.
  destruct (mapR_lookup _ _ _ _ _ Hrow' Hb) as (x & Hx & Hrb).
  simpl in Hx. rewrite Hrb. by destruct (row !! cb); simplify_eq.
Qed.

(** The loop that stacks one copy of the connectivity per lag. *)
Lemma replicate_connectivity {A} `{Scalar A} (p : nat) (conn : matrix A)
    (k : nat) (cn0 : matrix A) :
  is_matrix p p conn → (0 < p)%nat → (0 < k)%nat →
  is_matrix (k * p) p cn0 →
  ∀ k' : nat, (k' ≤ k)%nat →
    ∃ cn,
      foldlM (λ cn i,
                set_rows cn ((λ c, c + i * Z.of_nat p) <$> arange 0 (Z.of_nat p))
                         conn)
             (seqZ 0 (Z.of_nat k')) cn0 = Ok cn ∧
      is_matrix (k * p) p cn ∧
      ∀ i c, (i < k')%nat → (c < p)%nat → cn !! (i * p + c)%nat = conn !! c.
Proof.
  intros Hconn Hp Hk Hcn0.
  induction k' as [|k' IH]; intros Hk'.
  { exists cn0. split; [done|]. split; [done|]. intros i c Hi. lia. }
  destruct IH as (cn1 & Hfold & Hcn1 & Hrows); [lia|].
  rewrite seqZ_S, foldlM_app, Hfold. cbn [foldlM mbind result_bind].
  unfold arange. rewrite fmap_add_r_seqZ.
  replace (Z.of_nat p - 0) with (Z.of_nat p) by lia.
  destruct (set_rows_spec (k * p) p cn1 conn
              (0 + (0 + Z.of_nat k') * Z.of_nat p) (Z.of_nat p))
    as (cn2 & -> & Hcn2 & Htake & Hframe); try done; try nia.
  { by rewrite Nat2Z.id. }
  exists cn2. split; [done|]. split; [done|].
  intros i c Hi Hc.
  destruct (decide (i = k')) as [->|Hne].
  - rewrite <-Htake. rewrite lookup_take_lt, lookup_drop by lia.
    f_equal. lia.
  - rewrite Hframe by nia. apply Hrows; lia.
Qed.

(** The [if connectivity is not None] block: which columns it keeps. *)
Lemma ar_connectivity_spec {A} `{Scalar A}
    (linalg_inv : matrix A → result (matrix A))
    (X Y conn X' Y' cn' : matrix A) (k : Z) (p : nat) :
  1 ≤ k → is_matrix p p conn →
  ar_connectivity linalg_inv X Y conn k p = Ok (X', Y', cn') →
  let active_X :=
    np_where ((λ c, row_active conn (c `mod` p)%nat) <$> seq 0 (Z.to_nat k * p)) in
  let active_Y := np_where (col_active conn <$> seq 0 p) in
  select_cols X active_X = Ok X' ∧
  Forall (λ row, length row = length active_Y) Y' ∧
  is_matrix (length active_X) (length active_Y) cn' ∧
  (∀ a b ca cb, active_X !! a = Some ca → active_Y !! b = Some cb →
     cell cn' a b = cell conn (ca `mod` p)%nat cb) ∧
  (length active_X ≤ Z.to_nat k * p)%nat ∧ (length active_Y ≤ p)%nat.
Proof.
  intros Hk Hconn Hrun active_X active_Y. unfold ar_connectivity in Hrun.
  apply bind_Ok in Hrun as (cn0 & Hcn0 & Hrun).
  apply bind_Ok in Hrun as (cn & Hcn & Hrun).
  apply bind_Ok in Hrun as (Y1 & _ & Hrun).
  apply bind_Ok in Hrun as (act & Hact & Hrun).
  assert (act.*1 = row_active conn <$> seq 0 p) as Hact1.
  { eapply mapR_fmap; [|exact Hact]. intros j [b1 b2] Hj. simpl in *.
    apply bind_Ok in Hj as (row & Hrow & Hj).
    apply bind_Ok in Hj as (col & _ & Hj). injection Hj as <- _.
    unfold row_active, get_row in *. by destruct (conn !! j); simplify_eq. }
  assert (act.*2 = col_active conn <$> seq 0 p) as Hact2.
  { eapply mapR_fmap; [|exact Hact]. intros j [b1 b2] Hj. simpl in *.
    apply bind_Ok in Hj as (row & _ & Hj).
    apply bind_Ok in Hj as (col & Hcol & Hj). injection Hj as _ <-.
    unfold col_active. by rewrite (column_col_of _ _ _ Hcol). }
  rewrite Hact1, Hact2, join_replicate_mod in Hrun. fold active_X active_Y in Hrun.
  apply bind_Ok in Hrun as (Y2 & HY2 & Hrun).
  apply bind_Ok in Hrun as (X2 & HX2 & Hrun).
  apply bind_Ok in Hrun as (cn2 & Hcn2 & Hrun).
  injection Hrun as <- <- <-.
  split; [done|]. split; [by apply (select_cols_shape Y1)|].
  split; [by eapply restrict_shape|]. split; [|split].
  - intros a b ca cb Ha Hb. rewrite (restrict_cell _ _ _ _ _ _ _ _ Hcn2 Ha Hb).
    assert (ca < Z.to_nat k * p)%nat as Hca.
    { pose proof (np_where_length_le
                    ((λ c, row_active conn (c `mod` p)%nat)
                       <$> seq 0 (Z.to_nat k * p))) as Hle.
      apply list_elem_of_lookup_2 in Ha. unfold active_X, np_where in Ha.
      apply list_elem_of_omap in Ha as ([j bj] & Hin & Hsome).
      unfold enumerate in Hin. apply elem_of_lookup_imap in Hin
        as (i & y & [= -> ->] & Hi).
      simpl in Hsome. destruct y; [|done]. injection Hsome as <-.
      apply lookup_lt_Some in Hi. by rewrite length_fmap, length_seq in Hi. }
    assert (0 < p)%nat as Hp by (destruct p; lia).
    unfold np_zeros in Hcn0. rewrite decide_True in Hcn0 by lia.
    injection Hcn0 as <-.
    assert (is_matrix (Z.to_nat k * p) p
              (np_full (s_zero : A) (Z.to_nat (k * Z.of_nat p))
                       (Z.to_nat (Z.of_nat p)))) as Hfull.
    { unfold np_full. split.
      - rewrite length_replicate. lia.
      - apply Forall_replicate. rewrite length_replicate. lia. }
    destruct (replicate_connectivity p conn (Z.to_nat k) _
                Hconn Hp ltac:(lia) Hfull (Z.to_nat k) (le_n _))
      as (cn3 & Hfold & _ & Hrows).
    change (arange 0 k) with (seqZ 0 (k - 0)) in Hcn.
    rewrite Z.sub_0_r in Hcn.
    rewrite Z2Nat.id in Hfold by lia.
    assert (cn3 = cn) as -> by congruence.
    unfold cell.
    rewrite (Nat.div_mod_eq ca p) at 1.
    replace (p * (ca `div` p) + ca `mod` p)%nat
      with ((ca `div` p) * p + ca `mod` p)%nat by lia.
    rewrite Hrows; [done| |by apply Nat.mod_upper_bound; lia].
    apply Nat.Div0.div_lt_upper_bound. lia.
  - etrans; [apply np_where_length_le|]. by rewrite length_fmap, length_seq.
  - etrans; [apply np_where_length_le|]. by rewrite length_fmap, length_seq.
Qed.



Lemma np_where_none (mask : list bool) :
  Forall (λ b, b = false) mask → np_where mask = [].
Proof.
  unfold np_where, enumerate. generalize 0%nat as j0.
  assert (∀ (g : nat → nat → nat) j0,
            Forall (λ b, b = false) mask →
            omap (λ jb : nat * bool, if jb.2 then Some jb.1 else None)
                 (imap (λ j x, (g j0 j, x)) mask) = []) as Hgen.
  { induction mask as [|b mask IH]; intros g j0 Hall; [done|].
    apply Forall_cons in Hall as [-> Hall]. csimpl.
    exact (IH (λ a j, g a (S j)) j0 Hall). }
  intros j0 Hall. exact (Hgen (λ _ j, j) j0 Hall).
Qed.

Lemma cell_set_column_ne {A} (M : matrix A) (j c r : nat) (col : list A) :
  length col = length M → c ≠ j →
  cell (set_column M j col) r c = cell M r c.
Proof.
  intros Hlen Hc. unfold cell, set_column. rewrite lookup_zip_with.
  destruct (M !! r) as [row|] eqn:Hrow; simpl; [|done].
  destruct (lookup_lt_is_Some_2 col r) as [x ->].
  { rewrite Hlen. by eapply lookup_lt_Some. }
  simpl. by apply list_lookup_insert_ne.
Qed.

(** One pass of the regression loop changes column [j] of the updated
    array at most, and nothing when column [j] of the connectivity has no
    zero. *)
Lemma regress_out_column_frame {A} `{Scalar A}
    (linalg_inv : matrix A → result (matrix A))
    (conn X Y Ynew Y1 : matrix A) (j : nat) :
  nrows X = nrows Y → nrows Ynew = nrows Y →
  regress_out_column linalg_inv conn X Y Ynew j = Ok Y1 →
  nrows Y1 = nrows Y ∧
  (∀ c r, c ≠ j → cell Y1 r c = cell Ynew r c) ∧
  (∀ cj, column conn j = Ok cj →
     Forall (λ x, s_eqb x (s_of_Z 0) = false) cj → Y1 = Ynew).
Proof.
  intros HXY HYnew Hrun. unfold regress_out_column in Hrun.
  apply bind_Ok in Hrun as (cj & Hcj & Hrun).
  case_decide as Hjj.
  { injection Hrun as <-. done. }
  apply bind_Ok in Hrun as (Xjj & HXjj & Hrun).
  apply bind_Ok in Hrun as (G & _ & Hrun).
  apply bind_Ok in Hrun as (Ginv & _ & Hrun).
  apply bind_Ok in Hrun as (yj & _ & Hrun).
  apply bind_Ok in Hrun as (Xty & _ & Hrun).
  apply bind_Ok in Hrun as (b & _ & Hrun).
  apply bind_Ok in Hrun as (fit & Hfit & Hrun).
  apply bind_Ok in Hrun as (ynew & Hynew & Hrun).
  injection Hrun as <-.
  apply mapR_length in Hfit, Hynew.
  apply select_cols_shape in HXjj as [HXjj _].
  assert (length (zip_with s_sub ynew fit) = length Ynew) as Hlen.
  { rewrite length_zip_with. unfold nrows in *. lia. }
  split_and!.
  - unfold set_column, nrows in *. rewrite length_zip_with. lia.
  - intros c r Hc. by apply cell_set_column_ne.
  - intros cj' Hcj' Hall. exfalso. apply Hjj.
    assert (cj' = cj) as -> by congruence.
    rewrite np_where_none; [done|].
    apply Forall_fmap. eapply Forall_impl; [exact Hall|done].
Qed.

Lemma regress_loop_frame {A} `{Scalar A}
    (linalg_inv : matrix A → result (matrix A)) (conn X Y : matrix A) :
  nrows X = nrows Y →
  ∀ (js : list nat) (Ynew Y' : matrix A),
    nrows Ynew = nrows Y →
    foldlM (λ Ynew j, regress_out_column linalg_inv conn X Y Ynew j) js Ynew
    = Ok Y' →
    nrows Y' = nrows Y ∧
    ∀ c r,
      (c ∉ js ∨
       ∃ cj, column conn c = Ok cj ∧
             Forall (λ x, s_eqb x (s_of_Z 0) = false) cj) →
      cell Y' r c = cell Ynew r c.
Proof.
  intros HXY js.
  induction js as [|j js IH]; intros Ynew Y' HYnew Hrun; simpl in Hrun.
  { injection Hrun as <-. done. }
  apply bind_Ok in Hrun as (Y1 & Hstep & Hrun).
  destruct (regress_out_column_frame _ _ _ _ _ _ _ HXY HYnew Hstep)
    as (HY1 & Hother & Hfull).
  destruct (IH Y1 Y' HY1 Hrun) as (HY' & Hrest).
  split; [done|]. intros c r Hc.
  destruct Hc as [Hc|(cj & Hcj & Hall)].
  - apply not_elem_of_cons in Hc as [Hne Hc].
    rewrite Hrest by (by left). by apply Hother.
  - rewrite Hrest by (right; eauto).
    destruct (decide (c = j)) as [->|Hne]; [|by apply Hother].
    by rewrite (Hfull cj Hcj Hall).
Qed.

(** X17. The regression of [build_data_partial_connectivity] touches only
    the targets it is asked to: whenever the call (without centering, on X
    and Y with the same number of rows) returns, Y has as many rows as
    before, and every column of Y whose column in the connectivity matrix
    contains no zero is returned as it was passed. *)
Theorem build_data_partial_connectivity_keeps_unrestricted_targets :
  ∀ (A : Type) (SA : Scalar A) (linalg_inv : matrix A → result (matrix A))
    (X Y conn X' Y' : matrix A) (cn : option (matrix A)),
    nrows X = nrows Y →
    build_data_partial_connectivity linalg_inv X Y (Some conn) false
    = Ok (X', Y', cn) →
    nrows Y' = nrows Y ∧
    ∀ j cj, column conn j = Ok cj →
      Forall (λ x, s_eqb x (s_of_Z 0) = false) cj →
      ∀ r, cell Y' r j = cell Y r j.
Proof.
  intros A SA linalg_inv X Y conn X' Y' cn HXY Hrun.
  unfold build_data_partial_connectivity in Hrun.
  apply bind_Ok in Hrun as ([Y1 cn1] & Hbody & Hrun).
  injection Hrun as <- <- <-.
  apply bind_Ok in Hbody as (Y2 & Hloop & Hbody).
  apply bind_Ok in Hbody as (aX & _ & Hbody).
  apply bind_Ok in Hbody as (aY & _ & Hbody).
  apply bind_Ok in Hbody as (Yp & _ & Hbody).
  apply bind_Ok in Hbody as (Xp & _ & Hbody).
  apply bind_Ok in Hbody as (cn2 & _ & Hbody).
  injection Hbody as <- <-.
  destruct (regress_loop_frame linalg_inv conn X Y HXY _ Y Y2 eq_refl Hloop)
    as [Hrows Hcols].
  split; [done|]. intros j cj Hcj Hall r. apply Hcols. right. eauto.
Qed.

(** Connectivity [[1, 1], [0, 1]]: predictor 1 is regressed out of target 0,
    and target 1, whose column has no zero, is returned as passed. *)
Lemma build_data_partial_connectivity_keeps_unrestricted_targets_witness :
  nrows [[1; 2]; [3; 5]; [4; 1]]%Q = nrows [[5; 6]; [7; 8]; [1; 1]]%Q ∧
  build_data_partial_connectivity gauss_inv [[1; 2]; [3; 5]; [4; 1]]%Q
    [[5; 6]; [7; 8]; [1; 1]]%Q (Some [[1; 1]; [0; 1]]%Q) false
  = Ok ([[1; 2]; [3; 5]; [4; 1]]%Q,
        [[58005 # 30001; 6]; [-19993 # 30001; 8]; [-15999 # 30001; 1]]%Q,
        Some [[1; 1]; [0; 1]]%Q) ∧
  column [[1; 1]; [0; 1]]%Q 1 = Ok [1; 1]%Q ∧
  cell [[58005 # 30001; 6]; [-19993 # 30001; 8]; [-15999 # 30001; 1]]%Q 2 1
  = cell [[5; 6]; [7; 8]; [1; 1]]%Q 2 1.
Proof.
  assert (build_data_partial_connectivity gauss_inv [[1; 2]; [3; 5]; [4; 1]]%Q
            [[5; 6]; [7; 8]; [1; 1]]%Q (Some [[1; 1]; [0; 1]]%Q) false
          = Ok ([[1; 2]; [3; 5]; [4; 1]]%Q,
                [[58005 # 30001; 6]; [-19993 # 30001; 8]; [-15999 # 30001; 1]]%Q,
                Some [[1; 1]; [0; 1]]%Q)) as Hrun by (vm_compute; reflexivity).
  split; [reflexivity|]. split; [exact Hrun|]. split; [reflexivity|].
  refine (proj2 (build_data_partial_connectivity_keeps_unrestricted_targets
                   Q Q_scalar gauss_inv [[1; 2]; [3; 5]; [4; 1]]%Q
                   [[5; 6]; [7; 8]; [1; 1]]%Q _ _ _ _ eq_refl Hrun)
            1%nat [1; 1]%Q eq_refl _ 2%nat).
  repeat constructor.
Defined.

(** ** preprocess_data: the [pca] and [ica] arguments *)

Lemma stage_reduce_pca_array {A} `{Scalar A} `{Sklearn A} `{Scipy A}
    (o : options A) (M : matrix A) (data : matrix A) :
  opt_pca o = PyArray M → (1 < length (mjoin M))%nat →
  stage_reduce o data = Raise ValueError.
Proof.
  intros Hpca Hlen. unfold stage_reduce. rewrite Hpca. cbn [py_ne_None].
  destruct (mjoin M) as [|x [|y l]]; simpl in Hlen; [lia|lia|done].
Qed.

(** X18. [preprocess_data] does not accept the projection matrix that
    [apply_pca] accepts: with an array of more than one entry as [pca] the
    test [pca != None] is element-wise and has no truth value, so the
    reduction stage raises [ValueError] on every input and the call never
    returns a result. *)
Theorem preprocess_data_projection_matrix_raises :
  ∀ (A : Type) (SA : Scalar A) (SK : Sklearn A) (SP : Scipy A)
    (data : matrix A) (indices : list (Z * Z)) (o : options A) (M : matrix A),
    opt_pca o = PyArray M → (1 < length (mjoin M))%nat →
    (∀ d, stage_reduce o d = Raise ValueError) ∧
    (∃ e, preprocess_data data indices o = Raise e) ∧
    (∀ d1 d2, conditioning o indices data = Ok d1 →
       stage_power_phase (opt_onpower o) (opt_onphase o) (ncols data) indices d1
       = Ok d2 →
       preprocess_data data indices o = Raise ValueError).
Proof.
  intros A SA SK SP data indices o M Hpca Hlen.
  pose proof (λ d, stage_reduce_pca_array o M d Hpca Hlen) as Hred.
  split; [exact Hred|]. unfold preprocess_data. split.
  - destruct (conditioning o indices data) as [d1|e]; cbn [mbind result_bind];
      [|eauto].
    destruct (stage_power_phase _ _ _ _ _) as [d2|e]; cbn [mbind result_bind];
      [|eauto].
    rewrite Hred. cbn. eauto.
  - intros d1 d2 -> Hpp. cbn [mbind result_bind]. rewrite Hpp.
    cbn [mbind result_bind]. by rewrite Hred.
Qed.

(** The 2 x 1 projection [[1], [1]] on a two-channel array. *)
Lemma preprocess_data_projection_matrix_raises_witness :
  (1 < length (mjoin [[1]; [1]]%Q))%nat ∧
  preprocess_data (ramp 4 2) [(0, 2); (2, 4)]
    (with_pca (PyArray [[1]; [1]]%Q) all_off_options)
  = Raise ValueError.
Proof.
  split; [simpl; lia|].
  exact (proj2 (proj2 (preprocess_data_projection_matrix_raises Q Q_scalar
                         single_channel_sklearn short_segment_scipy
                         (ramp 4 2) [(0, 2); (2, 4)]
                         (with_pca (PyArray [[1]; [1]]%Q) all_off_options)
                         [[1]; [1]]%Q eq_refl ltac:(simpl; lia)))
           (ramp 4 2) (ramp 4 2) eq_refl eq_refl).
Defined.

Lemma stage_reduce_ica_overrides {A} `{Scalar A} `{Sklearn A} `{Scipy A}
    (o : options A) (v : pyval A) (data : matrix A) :
  py_truthy (opt_ica o) = Ok true → (∀ M, v ≠ PyArray M) →
  stage_reduce (with_pca v o) data
  = (r ← apply_ica data (opt_ica o) (opt_ica_algorithm o);
     Ok (r.1, None, Some r.2)).
Proof.
  intros Hica Hv. unfold stage_reduce.
  cbn [with_pca opt_pca opt_ica opt_exact_pca opt_ica_algorithm].
  assert (py_is_None (opt_ica o) = false ∧ py_ne_None (opt_ica o) = Ok true)
    as [-> ->].
  { destruct (opt_ica o) as [| | | |N]; try done.
    simpl in *. by destruct (mjoin N) as [|x [|y l]]. }
  destruct v as [| | | |M]; try done. by destruct (Hv M).
Qed.

Lemma stage_post_standardise_ica_overrides {A} `{Scalar A} `{Sklearn A}
    `{Scipy A} (o : options A) (v : pyval A) (indices : list (Z * Z))
    (data : matrix A) :
  py_truthy (opt_ica o) = Ok true → (∀ M, v ≠ PyArray M) →
  stage_post_standardise (with_pca v o) indices data
  = stage_post_standardise (with_pca PyNone o) indices data.
Proof.
  intros Hica Hv. unfold stage_post_standardise.
  cbn [with_pca opt_pca opt_ica opt_post_standardise]. rewrite Hica.
  destruct (opt_post_standardise o) as [b|]; cbn [mbind result_bind];
    (destruct v as [|[]|z|x|M]; [..|by destruct (Hv M)];
     cbn [py_truthy mbind result_bind]; try done;
     match goal with |- context [if ?c then _ else _] => by destruct c end).
Qed.

(** X19. When [ica] is given (and is not zero) the [pca] argument is not
    used: for every [pca] that is [None], a flag or a number, the data, the
    SegmentIndex and the fitted models are those of the call without
    [pca], and no PCA model is recorded. *)
Theorem preprocess_data_ica_overrides_pca :
  ∀ (A : Type) (SA : Scalar A) (SK : Sklearn A) (SP : Scipy A)
    (data : matrix A) (indices : list (Z * Z)) (o : options A) (v : pyval A),
    py_truthy (opt_ica o) = Ok true → (∀ M, v ≠ PyArray M) →
    outputs (preprocess_data data indices (with_pca v o))
    = outputs (preprocess_data data indices (with_pca PyNone o)) ∧
    ∀ out inew log,
      preprocess_data data indices (with_pca v o) = Ok (out, inew, log) →
      log_pcamodel log = None.
Proof.
  intros A SA SK SP data indices o v Hica Hv.
  assert (∀ M : matrix A, PyNone ≠ PyArray M) as HNone by done.
  unfold preprocess_data, outputs.
  change (conditioning (with_pca v o) indices data)
    with (conditioning o indices data).
  change (conditioning (with_pca PyNone o) indices data)
    with (conditioning o indices data).
  destruct (conditioning o indices data) as [d1|e]; cbn [mbind result_bind];
    [|done].
  cbn [with_pca opt_onpower opt_onphase].
  destruct (stage_power_phase _ _ _ _ _) as [d2|e]; cbn [mbind result_bind];
    [|done].
  rewrite !stage_reduce_ica_overrides by done.
  destruct (apply_ica d2 (opt_ica o) (opt_ica_algorithm o)) as [[d3 im]|e];
    cbn [mbind result_bind fst snd]; [|done].
  rewrite (stage_post_standardise_ica_overrides o v) by done.
  destruct (stage_post_standardise (with_pca PyNone o) indices d3) as [d4|e];
    cbn [mbind result_bind]; [|done].
  change (stage_downsample (with_pca v o)) with (stage_downsample o).
  change (stage_downsample (with_pca PyNone o)) with (stage_downsample o).
  destruct (stage_downsample o _ indices d4) as [[d5 inew]|e];
    cbn [mbind result_bind fst snd]; [|done].
  split; [done|]. intros out inew' log [= <- <- <-]. done.
Qed.

(** [pca=2] next to [ica=1]. *)
Lemma preprocess_data_ica_overrides_pca_witness :
  py_truthy (opt_ica (ica_options (A := Q))) = Ok true ∧
  outputs (preprocess_data [[3]; [-5]; [2]]%Q [(0, 3)]
             (with_pca (PyInt 2) ica_options))
  = outputs (preprocess_data [[3]; [-5]; [2]]%Q [(0, 3)]
               (with_pca PyNone ica_options)).
Proof.
  split; [reflexivity|].
  apply (preprocess_data_ica_overrides_pca Q Q_scalar single_channel_sklearn
           short_segment_scipy [[3]; [-5]; [2]]%Q [(0, 3)] ica_options (PyInt 2)
           eq_refl).
  intros M. discriminate.
Defined.

(** ** load_files *)

Lemma foldlO_app {S B} (f : S → B → outcome S) (l1 l2 : list B) (s : S) :
  foldlO f (l1 ++ l2) s = foldlO f l1 s ≫= foldlO f l2.
Proof.
  revert s. induction l1 as [|x l1 IH]; intros s; simpl; [done|].
  destruct (f s x) as [s'|e]; simpl; [apply IH|done].
Qed.

Lemma load_step_no_Y {A} (loadmat np_load : string → outcome (datafile A))
    (files : list string) (do_only_indices : bool) (j : Z) (fname : string)
    (d : datafile A) :
  py_get files j = Ok fname →
  open_file loadmat np_load fname None = Done (Some d) →
  file_Y d = None →
  load_step loadmat np_load files do_only_indices ([], [], [], 0, None) j
  = Throw (match do_only_indices, file_indices d, file_T d with
           | true, None, None => Builtin IndexError
           | _, _, _ => KeyError "Y"
           end).
Proof.
  intros Hj Hopen HY. unfold load_step.
  rewrite Hj. cbn [lift mbind outcome_bind]. rewrite Hopen.
  cbn [mbind outcome_bind]. unfold get_Y. rewrite HY.
  destruct do_only_indices, (file_X d), (file_indices d), (file_T d); reflexivity.
Qed.

Lemma load_step_no_indices {A} (loadmat np_load : string → outcome (datafile A))
    (files : list string) (j : Z) (fname : string) (d : datafile A) :
  py_get files j = Ok fname →
  open_file loadmat np_load fname None = Done (Some d) →
  file_indices d = None → file_T d = None →
  load_step loadmat np_load files true ([], [], [], 0, None) j
  = Throw (Builtin IndexError).
Proof.
  intros Hj Hopen Hix HT. unfold load_step.
  rewrite Hj. cbn [lift mbind outcome_bind]. rewrite Hopen.
  cbn [mbind outcome_bind]. rewrite Hix, HT. reflexivity.
Qed.

(** X20. [load_files] cannot read a file that has no entry [Y], although it
    has a branch for files with [X] only: when the first selected file has
    no [Y], the statement [sum_T += dat["Y"].shape[0]] (or the append of
    [dat["Y"]]) raises [KeyError]; with [do_only_indices] and neither
    [indices] nor [T] in the file, [Y[-1]] raises [IndexError] before
    that. *)
Theorem load_files_needs_Y :
  ∀ (A : Type) (loadmat np_load : string → outcome (datafile A))
    (files : list string) (I : option (Z + list Z)) (do_only_indices : bool)
    (j : Z) (js : list Z) (fname : string) (d : datafile A),
    resolve_I I files = j :: js →
    py_get files j = Ok fname →
    open_file loadmat np_load fname None = Done (Some d) →
    file_Y d = None →
    load_files loadmat np_load files I do_only_indices
    = Throw (match do_only_indices, file_indices d, file_T d with
             | true, None, None => Builtin IndexError
             | _, _, _ => KeyError "Y"
             end).
Proof.
  intros A loadmat np_load files I do_only_indices j js fname d HI Hj Hopen HY.
  unfold load_files. rewrite HI. cbn [foldlO].
  by rewrite (load_step_no_Y _ _ _ _ _ _ _ Hj Hopen HY).
Qed.

(** A file with [X] only. *)
Lemma load_files_needs_Y_witness :
  load_files example_mat example_npz ["x.npz"; "b.npz"] None false
  = Throw (KeyError "Y").
Proof.
  exact (load_files_needs_Y Q example_mat example_npz ["x.npz"; "b.npz"] None
           false 0 [1] "x.npz"
           {| file_X := Some [[1]; [2]]%Q; file_Y := None;
              file_indices := None; file_T := None |}
           eq_refl eq_refl eq_refl eq_refl).
Defined.

(** X21. With [do_only_indices] the first selected file must store
    [indices] or [T]: otherwise the fallback reads [Y[-1]] from the list
    [Y], which is empty because nothing is appended to it in this mode, and
    [IndexError] is raised, whether the file has [Y] or not. *)
Theorem load_files_only_indices_needs_stored_indices :
  ∀ (A : Type) (loadmat np_load : string → outcome (datafile A))
    (files : list string) (I : option (Z + list Z))
    (j : Z) (js : list Z) (fname : string) (d : datafile A),
    resolve_I I files = j :: js →
    py_get files j = Ok fname →
    open_file loadmat np_load fname None = Done (Some d) →
    file_indices d = None → file_T d = None →
    load_files loadmat np_load files I true = Throw (Builtin IndexError).
Proof.
  intros A loadmat np_load files I j js fname d HI Hj Hopen Hix HT.
  unfold load_files. rewrite HI. cbn [foldlO].
  by rewrite (load_step_no_indices _ _ _ _ _ _ Hj Hopen Hix HT).
Qed.

(** Two files that hold [Y] only. *)
Lemma load_files_only_indices_needs_stored_indices_witness :
  load_files example_mat example_npz ["a.npz"; "b.npz"] None true
  = Throw (Builtin IndexError).
Proof.
  exact (load_files_only_indices_needs_stored_indices Q example_mat example_npz
           ["a.npz"; "b.npz"] None 0 [1] "a.npz"
           {| file_X := None; file_Y := Some [[1]; [2]]%Q;
              file_indices := None; file_T := None |}
           eq_refl eq_refl eq_refl eq_refl eq_refl).
Defined.

Lemma py_get_snoc {B} (l : list B) (x : B) : py_get (l ++ [x]) (-1) = Ok x.
Proof.
  unfold py_get, norm_index. rewrite length_app. cbn [length].
  rewrite decide_False by lia. rewrite decide_True by lia.
  cbn [mbind result_bind].
  replace (Z.to_nat (-1 + Z.of_nat (length l + 1))) with (length l) by lia.
  by rewrite lookup_app_r, Nat.sub_diag.
Qed.

Lemma py_get_middle {B} (l1 l2 : list B) (x : B) :
  py_get (l1 ++ x :: l2) (Z.of_nat (length l1)) = Ok x.
Proof.
  apply py_get_ok; [lia|]. rewrite Nat2Z.id. apply list_lookup_middle. done.
Qed.

Lemma tiles_make_indices_from (start : Z) (lengths : list Z) :
  tiles start (start + foldr Z.add 0 lengths) (make_indices_from start lengths) ∧
  length (make_indices_from start lengths) = length lengths.
Proof.
  revert start. induction lengths as [|t lengths IH]; intros start; simpl.
  { split; [lia|done]. }
  destruct (IH (start + t)) as [Ht Hl]. split; [|by rewrite Hl].
  split; [done|]. by rewrite Z.add_assoc.
Qed.

Lemma nrows_concat {B} (Ms : list (matrix B)) :
  Z.of_nat (nrows (concat Ms))
  = foldr Z.add 0 ((λ M, Z.of_nat (nrows M)) <$> Ms).
Proof.
  unfold nrows. induction Ms as [|M Ms IH]; [done|].
  cbn [concat fmap list_fmap foldr]. rewrite length_app, <-IH. lia.
Qed.

(** The loop of [load_files] over files that hold [Y] only. *)
Lemma load_loop_Y_files {A} (loadmat np_load : string → outcome (datafile A)) :
  ∀ (fs : list string) (Ys : list (matrix A)) (prefix : list string)
    (Yacc : list (matrix A)) (ixs : list index_array) (sum_T : Z)
    (dat : option (datafile A)),
    Forall2 (λ f Y, ∀ prev,
               open_file loadmat np_load f prev = Done (Some (Y_file Y))) fs Ys →
    ∃ dat',
      foldlO (load_step loadmat np_load (prefix ++ fs) false)
             (seqZ (Z.of_nat (length prefix)) (Z.of_nat (length fs)))
             ([], Yacc, ixs, sum_T, dat)
      = Done ([], Yacc ++ Ys,
              ixs ++ ((λ se : Z * Z, Index2 [[se.1; se.2]]) <$>
                      make_indices_from sum_T ((λ Y, Z.of_nat (nrows Y)) <$> Ys)),
              sum_T + foldr Z.add 0 ((λ Y, Z.of_nat (nrows Y)) <$> Ys),
              dat').
Proof.
  intros fs Ys. revert fs.
  induction Ys as [|Y Ys IH]; intros fs prefix Yacc ixs sum_T dat Hfiles.
  { apply Forall2_nil_inv_r in Hfiles as ->. exists dat. simpl.
    by rewrite !app_nil_r, Z.add_0_r. }
  apply Forall2_cons_inv_r in Hfiles as (f & fs' & Hf & Hfiles & ->).
  rewrite seqZ_cons by (simpl; lia). cbn [foldlO].
  assert (load_step loadmat np_load (prefix ++ f :: fs') false
            ([], Yacc, ixs, sum_T, dat) (Z.of_nat (length prefix))
          = Done ([], Yacc ++ [Y],
                  ixs ++ [Index2 [[sum_T; sum_T + Z.of_nat (nrows Y)]]],
                  sum_T + Z.of_nat (nrows Y), Some (Y_file Y))) as ->.
  { unfold load_step. rewrite py_get_middle. cbn [lift mbind outcome_bind].
    rewrite Hf. cbn [mbind outcome_bind Y_file file_X file_Y file_indices file_T
                     get_Y].
    rewrite py_get_snoc. cbn [lift mbind outcome_bind index_add fmap list_fmap].
    by rewrite Z.add_0_l, (Z.add_comm (Z.of_nat (nrows Y)) sum_T). }
  cbn [mbind outcome_bind].
  destruct (IH fs' (prefix ++ [f]) (Yacc ++ [Y])
              (ixs ++ [Index2 [[sum_T; sum_T + Z.of_nat (nrows Y)]]])
              (sum_T + Z.of_nat (nrows Y)) (Some (Y_file Y)) Hfiles)
    as [dat' Hrest].
  rewrite <-(assoc_L (++)) in Hrest. cbn [app] in Hrest.
  rewrite length_app in Hrest. cbn [length] in Hrest.
  replace (Z.succ (Z.of_nat (length prefix)))
    with (Z.of_nat (length prefix + 1)) by lia.
  replace (Z.pred (Z.of_nat (length (f :: fs'))))
    with (Z.of_nat (length fs')) by (cbn [length]; lia).
  rewrite Hrest. exists dat'.
  cbn [fmap list_fmap foldr make_indices_from fst snd].
  rewrite <-!(assoc_L (++)). cbn [app]. by rewrite Z.add_assoc.
Qed.

Lemma np_concatenate_index_rows (segs : list (Z * Z)) :
  segs ≠ [] →
  np_concatenate ((λ se : Z * Z, [[se.1; se.2]]) <$> segs) = Ok (index_rows segs).
Proof.
  intros Hne.
  assert (concat ((λ se : Z * Z, [[se.1; se.2]]) <$> segs) = index_rows segs)
    as Hconcat.
  { unfold index_rows. induction segs as [|x l IH]; [done|].
    cbn [fmap list_fmap concat app]. f_equal. destruct l; [done|by apply IH]. }
  destruct segs as [|se segs]; [done|].
  unfold np_concatenate. rewrite <-Hconcat. cbn [fmap list_fmap].
  rewrite decide_True; [done|].
  constructor; [done|]. apply Forall_fmap, Forall_forall. done.
Qed.

Lemma concatenate_index_rows (segs : list (Z * Z)) :
  segs ≠ [] →
  concatenate_indices ((λ se : Z * Z, Index2 [[se.1; se.2]]) <$> segs)
  = Ok (Index2 (index_rows segs)).
Proof.
  intros Hne.
  assert (mapR (λ ix, match ix with
                      | Index2 M => Ok M
                      | Index1 _ => Raise ValueError
                      end)
               ((λ se : Z * Z, Index2 [[se.1; se.2]]) <$> segs)
          = Ok ((λ se : Z * Z, [[se.1; se.2]]) <$> segs)) as HmapR.
  { clear Hne. induction segs as [|x l IH]; [done|].
    cbn [fmap list_fmap mapR mbind result_bind]. cbn [fmap list_fmap] in IH.
    by rewrite IH. }
  destruct segs as [|se segs]; [done|].
  unfold concatenate_indices.
  change (match (λ se0 : Z * Z, Index2 [[se0.1; se0.2]]) <$> se :: segs with
          | [] => ?a | Index1 _ :: _ => ?b | Index2 _ :: _ => ?c end) with c.
  rewrite HmapR. cbn [mbind result_bind].
  by rewrite np_concatenate_index_rows.
Qed.

(** X22. Files that hold [Y] only are stacked: for a non-empty list of
    names that all load to such a file, with arrays of the same number of
    columns, [load_files] returns no X, the arrays concatenated in the
    order of the list, and one segment per file; the SegmentIndex is the one
    [make_indices_from_T] gives for the lengths of the files, and it covers
    the rows of the returned Y without gaps. *)
Theorem load_files_stacks_Y_files :
  ∀ (A : Type) (loadmat np_load : string → outcome (datafile A))
    (files : list string) (Ys : list (matrix A)) (p : nat),
    files ≠ [] →
    Forall2 (λ f Y, ∀ prev,
               open_file loadmat np_load f prev = Done (Some (Y_file Y)))
            files Ys →
    Forall (λ Y, ncols Y = p) Ys →
    let segs := make_indices_from_T ((λ Y, Z.of_nat (nrows Y)) <$> Ys) in
    load_files loadmat np_load files None false
    = Done (None, Concatenated (concat Ys), index_rows segs) ∧
    length segs = length files ∧
    tiles 0 (Z.of_nat (nrows (concat Ys))) segs.
Proof.
  intros A loadmat np_load files Ys p Hne Hfiles Hcols segs.
  pose proof (Forall2_length _ _ _ Hfiles) as Hlen.
  destruct (tiles_make_indices_from 0 ((λ Y, Z.of_nat (nrows Y)) <$> Ys))
    as [Htiles Hsegs].
  rewrite length_fmap in Hsegs. fold (make_indices_from_T) in Htiles.
  split; [|split; [unfold segs, make_indices_from_T; lia|]].
  2:{ rewrite nrows_concat. exact Htiles. }
  destruct (load_loop_Y_files loadmat np_load files Ys [] [] [] 0 None Hfiles)
    as [dat' Hloop].
  unfold load_files, resolve_I, arange.
  rewrite Z.sub_0_r. simpl in Hloop. change (Z.of_nat 0) with 0 in Hloop.
  rewrite Hloop.
  cbn [mbind outcome_bind]. simpl app.
  assert (np_concatenate Ys = Ok (concat Ys)) as ->.
  { unfold np_concatenate. destruct Ys as [|Y Ys].
    - destruct files; [done|]. simpl in Hlen. lia.
    - rewrite decide_True; [done|].
      apply Forall_cons in Hcols as [HY Hcols].
      constructor; [done|]. eapply Forall_impl; [exact Hcols|].
      intros Y' HY'. simpl in *. congruence. }
  cbn [mbind result_bind lift outcome_bind].
  rewrite concatenate_index_rows.
  2:{ intros Hnil. apply (f_equal length) in Hnil.
      fold (make_indices_from_T ((λ Y, Z.of_nat (nrows Y)) <$> Ys)) in Hsegs.
      unfold make_indices_from_T in Hsegs. rewrite Hsegs in Hnil.
      destruct files; [done|]. simpl in *. lia. }
  done.
Qed.

(** Two files of two and three samples. *)
Lemma load_files_stacks_Y_files_witness :
  load_files example_mat example_npz ["a.npz"; "b.npz"] None false
  = Done (None, Concatenated [[1]; [2]; [3]; [4]; [5]]%Q, [[0; 2]; [2; 5]]) ∧
  tiles 0 5 [(0, 2); (2, 5)].
Proof.
  destruct (load_files_stacks_Y_files Q example_mat example_npz
              ["a.npz"; "b.npz"] [[[1]; [2]]; [[3]; [4]; [5]]]%Q 1%nat)
    as (Hrun & _ & Htiles).
  - discriminate.
  - repeat constructor.
  - repeat constructor.
  - split; [exact Hrun|exact Htiles].
Defined.

Lemma foldlO_ext {S B} (f g : S → B → outcome S) (l : list B) :
  (∀ x, x ∈ l → ∀ s, f s x = g s x) → ∀ s, foldlO f l s = foldlO g l s.
Proof.
  induction l as [|x l IH]; intros Hfg s; simpl; [done|].
  rewrite (Hfg x) by left.
  destruct (g s x) as [s'|e]; simpl; [|done].
  apply IH. intros y Hy. apply Hfg. by right.
Qed.

Lemma py_get_app_l {B} (l1 l2 l2' : list B) (j : Z) :
  length l2 = length l2' → 0 ≤ j < Z.of_nat (length l1) →
  py_get (l1 ++ l2) j = py_get (l1 ++ l2') j.
Proof.
  intros Hlen Hj. unfold py_get, norm_index. rewrite !length_app, Hlen.
  rewrite decide_True by lia. cbn [mbind result_bind].
  by rewrite !lookup_app_l by lia.
Qed.

Lemma py_get_app_r {B} (l1 l1' l2 : list B) (j : Z) :
  length l1 = length l1' → Z.of_nat (length l1) ≤ j →
  py_get (l1 ++ l2) j = py_get (l1' ++ l2) j.
Proof.
  intros Hlen Hj. unfold py_get, norm_index. rewrite !length_app, Hlen.
  case_decide; [|by rewrite decide_False by lia].
  cbn [mbind result_bind]. by rewrite !lookup_app_r, Hlen by lia.
Qed.

Lemma load_step_ext {A} (loadmat np_load : string → outcome (datafile A))
    (files files' : list string) (b : bool) (st : load_state) (j : Z) :
  py_get files j = py_get files' j →
  load_step loadmat np_load files b st j
  = load_step loadmat np_load files' b st j.
Proof.
  intros Hj. unfold load_step. destruct st as [[[[X Y] ixs] sum_T] dat].
  by rewrite Hj.
Qed.

(** After a pass for a name with a known extension, [dat] holds the file of
    that name. *)
Lemma load_step_known_extension {A}
    (loadmat np_load : string → outcome (datafile A))
    (files : list string) (b : bool) (st st' : load_state) (j : Z) (f : string) :
  py_get files j = Ok f →
  py_last4 f = ".mat" ∨ py_last4 f = ".npz" →
  load_step loadmat np_load files b st j = Done st' →
  ∃ d, st'.2 = Some d ∧
       ∀ prev, open_file loadmat np_load f prev = Done (Some d).
Proof.
  intros Hj Hext Hrun. unfold load_step in Hrun.
  destruct st as [[[[X Y] ixs] sum_T] dat].
  rewrite Hj in Hrun. cbn [lift mbind outcome_bind] in Hrun.
  assert (∀ prev, open_file loadmat np_load f prev
                  = open_file loadmat np_load f dat) as Hprev.
  { intros prev. unfold open_file. destruct Hext as [-> | ->].
    - by rewrite !decide_True.
    - rewrite !(decide_False (P := ".npz" = ".mat")) by done.
      by rewrite !decide_True. }
  destruct (open_file loadmat np_load f dat) as [[d|]|e] eqn:Hopen;
    cbn [mbind outcome_bind] in Hrun; [|done..].
  exists d. split; [|by intros prev; rewrite Hprev].
  destruct (if b then _ else _) as [[X1 Y1]|e]; cbn [mbind outcome_bind] in Hrun;
    [|done].
  destruct (match file_indices d with Some _ => _ | None => _ end) as [ix|e];
    cbn [mbind outcome_bind] in Hrun; [|done].
  destruct (get_Y d) as [y|e]; cbn [mbind outcome_bind] in Hrun; [|done].
  by injection Hrun as <-.
Qed.

(** X23. A name whose extension is neither [.mat] nor [.npz] is not
    rejected and not skipped: no file is opened for it and [dat] still
    holds the file read in the pass before, so that file is loaded a second
    time.  The call gives what it gives with the preceding name repeated in
    its place; in the first position it raises [UnboundLocalError]. *)
Theorem load_files_unknown_extension :
  ∀ (A : Type) (loadmat np_load : string → outcome (datafile A))
    (files1 files2 : list string) (f g : string) (do_only_indices : bool),
    py_last4 g ≠ ".mat" → py_last4 g ≠ ".npz" →
    (py_last4 f = ".mat" ∨ py_last4 f = ".npz" →
     load_files loadmat np_load (files1 ++ f :: g :: files2) None do_only_indices
     = load_files loadmat np_load (files1 ++ f :: f :: files2) None
         do_only_indices) ∧
    load_files loadmat np_load (g :: files2) None do_only_indices
    = Throw UnboundLocalError.
Proof.
  intros A loadmat np_load files1 files2 f g b Hmat Hnpz.
  assert (∀ prev, open_file loadmat np_load g prev = Done prev) as Hg.
  { intros prev. unfold open_file. by rewrite !decide_False. }
  split.
  - intros Hext. unfold load_files, resolve_I, arange.
    set (n1 := Z.of_nat (length files1)). set (n2 := Z.of_nat (length files2)).
    replace (Z.of_nat (length (files1 ++ f :: g :: files2)) - 0)
      with (n1 + (1 + (1 + n2)))
      by (rewrite length_app; cbn [length]; lia).
    replace (Z.of_nat (length (files1 ++ f :: f :: files2)) - 0)
      with (n1 + (1 + (1 + n2)))
      by (rewrite length_app; cbn [length]; lia).
    rewrite !seqZ_app by lia. rewrite !foldlO_app.
    rewrite (foldlO_ext (load_step loadmat np_load (files1 ++ f :: g :: files2) b)
               (load_step loadmat np_load (files1 ++ f :: f :: files2) b)
               (seqZ 0 n1)).
    2:{ intros j Hj st. apply elem_of_seqZ in Hj. apply load_step_ext.
        apply py_get_app_l; [done|]. fold n1. lia. }
    destruct (foldlO _ (seqZ 0 n1) _) as [st1|e]; cbn [mbind outcome_bind];
      [|done].
    change (seqZ (0 + n1) 1) with [0 + n1]. rewrite Z.add_0_l.
    cbn [app foldlO].
    rewrite (load_step_ext _ _ (files1 ++ f :: g :: files2)
               (files1 ++ f :: f :: files2) b st1 n1)
      by (unfold n1; by rewrite !py_get_middle).
    destruct (load_step _ _ (files1 ++ f :: f :: files2) b st1 n1) as [st2|e]
      eqn:Hstep; cbn [mbind outcome_bind]; [|done].
    destruct (load_step_known_extension _ _ _ _ _ _ _ f
                ltac:(unfold n1; apply py_get_middle) Hext Hstep)
      as (d & Hdat & Hf).
    change (seqZ (n1 + 1) 1) with [n1 + 1]. cbn [app foldlO].
    assert (load_step loadmat np_load (files1 ++ f :: g :: files2) b st2 (n1 + 1)
            = load_step loadmat np_load (files1 ++ f :: f :: files2) b st2 (n1 + 1))
      as ->.
    { assert (∀ x rest, py_get (files1 ++ f :: x :: rest) (n1 + 1) = Ok x)
        as Hnext.
      { intros x rest. apply py_get_ok; [lia|].
        replace (Z.to_nat (n1 + 1)) with (length files1 + 1)%nat by lia.
        rewrite lookup_app_r by lia.
        by replace (length files1 + 1 - length files1)%nat with 1%nat by lia. }
      destruct st2 as [[[[X Y] ixs] sum_T] dat]. simpl in Hdat. subst dat.
      unfold load_step. rewrite !Hnext.
      cbn [lift mbind outcome_bind]. by rewrite Hg, Hf. }
    destruct (load_step _ _ (files1 ++ f :: f :: files2) b st2 (n1 + 1))
      as [st3|e]; cbn [mbind outcome_bind]; [|done].
    rewrite (foldlO_ext (load_step loadmat np_load (files1 ++ f :: g :: files2) b)
               (load_step loadmat np_load (files1 ++ f :: f :: files2) b)
               (seqZ (n1 + 1 + 1) n2)); [done|].
    intros j Hj st. apply elem_of_seqZ in Hj. apply load_step_ext.
    change (files1 ++ f :: g :: files2) with (files1 ++ [f; g] ++ files2).
    change (files1 ++ f :: f :: files2) with (files1 ++ [f; f] ++ files2).
    rewrite !(assoc_L (++)).
    apply py_get_app_r; rewrite !length_app; cbn [length]; [done|].
    fold n1. lia.
  - unfold load_files, resolve_I, arange.
    rewrite seqZ_cons by (cbn [length]; lia). cbn [foldlO].
    assert (load_step loadmat np_load (g :: files2) b ([], [], [], 0, None) 0
            = Throw UnboundLocalError) as ->; [|done].
    unfold load_step. rewrite (py_get_ok (g :: files2) 0 g) by done.
    cbn [lift mbind outcome_bind]. by rewrite Hg.
Qed.

(** [b.txt] after [a.npz]: the two samples of [a.npz] are returned twice. *)
Lemma load_files_unknown_extension_witness :
  py_last4 "b.txt" ≠ ".mat" ∧ py_last4 "b.txt" ≠ ".npz" ∧
  load_files example_mat example_npz ["a.npz"; "b.txt"] None false
  = load_files example_mat example_npz ["a.npz"; "a.npz"] None false ∧
  load_files example_mat example_npz ["b.txt"] None false
  = Throw UnboundLocalError.
Proof.
  assert (py_last4 "b.txt" ≠ ".mat") as Hmat by (vm_compute; discriminate).
  assert (py_last4 "b.txt" ≠ ".npz") as Hnpz by (vm_compute; discriminate).
  split; [exact Hmat|]. split; [exact Hnpz|].
  destruct (load_files_unknown_extension Q example_mat example_npz [] []
              "a.npz" "b.txt" false Hmat Hnpz) as [Hrepeat Hfirst].
  split; [|exact Hfirst].
  apply Hrepeat. right. reflexivity.
Defined.

(** ** apply_pca and apply_ica: a component count must be an [int] *)

(** X24. A float that is not below 1 is never accepted as the number of
    components: [d >= 1] selects the branch that uses [d] as a count, and
    [range(d)] of the sign-convention loop raises [TypeError] for a float
    (unless the estimator has raised before), in [apply_pca] and in
    [apply_ica]; [apply_pca] then leaves the store as it was. *)
Theorem apply_pca_float_count_raises :
  ∀ (A : Type) (SA : Scalar A) (SK : Sklearn A) (X : matrix A) (x : A)
    (whitening exact : bool) (algorithm : ica_algorithm),
    s_ltb x (s_of_Z 1) = false →
    (∃ e, apply_pca 0%nat (PyFloat x) whitening exact [X] = (Raise e, [X])) ∧
    (∃ e, apply_pca_owned X (PyFloat x) whitening exact = Raise e) ∧
    (∃ e, apply_ica X (PyFloat x) algorithm = Raise e) ∧
    (∀ model Xt,
       PCA_fit (Some (PyFloat x)) (if exact then SolverFull else SolverAuto) X
       = Ok model →
       PCA_transform model X = Ok Xt →
       apply_pca_owned X (PyFloat x) whitening exact = Raise TypeError).
Proof.
  intros A SA SK X x whitening exact algorithm Hx.
  assert (∃ e, pca_scores X (PyFloat x) exact = Raise e ∧
               ∀ model Xt,
                 PCA_fit (Some (PyFloat x))
                   (if exact then SolverFull else SolverAuto) X = Ok model →
                 PCA_transform model X = Ok Xt → e = TypeError)
    as (e & Hscores & Htype).
  { unfold pca_scores, pca_fit_transform, py_ge_1, s_leb.
    cbn [py_num mbind result_bind]. rewrite Hx. cbn [negb].
    destruct (PCA_fit _ _ X) as [model|e] eqn:Hfit; cbn [mbind result_bind].
    - destruct (PCA_transform model X) as [Xt|e] eqn:Htr; cbn [mbind result_bind].
      + exists TypeError. done.
      + exists e. split; [done|]. intros model' Xt' [= <-] HXt. congruence.
    - exists e. split; [done|]. intros model' Xt' Hfit'. congruence. }
  assert (apply_pca 0%nat (PyFloat x) whitening exact [X] = (Raise e, [X]))
    as Hrun.
  { unfold apply_pca.
    change (st_get [X] 0%nat) with X. by rewrite Hscores. }
  split; [eauto|]. split; [|split].
  - exists e. unfold apply_pca_owned. by rewrite Hrun.
  - unfold apply_ica, py_lt_1. cbn [py_num mbind result_bind]. rewrite Hx.
    cbn [mbind result_bind].
    destruct (FastICA_fit _ _ X) as [model|e']; cbn [mbind result_bind]; [|eauto].
    destruct (FastICA_transform model X) as [Xt|e']; cbn [mbind result_bind];
      eauto.
  - intros model Xt Hfit HXt. unfold apply_pca_owned. rewrite Hrun.
    cbn [mbind result_bind]. f_equal. by eapply Htype.
Qed.

(** The count 2.0 on a single channel. *)
Lemma apply_pca_float_count_raises_witness :
  s_ltb (2 : Q) (s_of_Z 1) = false ∧
  (∃ e, apply_pca_owned [[3]; [-5]; [2]]%Q (PyFloat 2%Q) false true = Raise e) ∧
  (∃ e, apply_ica [[3]; [-5]; [2]]%Q (PyFloat 2%Q) Parallel = Raise e).
Proof.
  split; [reflexivity|].
  destruct (apply_pca_float_count_raises Q Q_scalar single_channel_sklearn
              [[3]; [-5]; [2]]%Q 2%Q false true Parallel eq_refl)
    as (_ & Hpca & Hica & _).
  split; [exact Hpca|exact Hica].
Defined.

(** The loop of [load_files] over files that hold [Y] and [indices]. *)
Lemma load_loop_indexed_files {A}
    (loadmat np_load : string → outcome (datafile A)) :
  ∀ (YMs : list (matrix A * matrix Z)) (fs prefix : list string)
    (Yacc : list (matrix A)) (ixs : list index_array) (sum_T : Z)
    (dat : option (datafile A)),
    Forall2 (λ f (ym : matrix A * matrix Z), ∀ prev,
               open_file loadmat np_load f prev
               = Done (Some (indexed_file ym.1 ym.2))) fs YMs →
    ∃ sum_T' dat',
      foldlO (load_step loadmat np_load (prefix ++ fs) false)
             (seqZ (Z.of_nat (length prefix)) (Z.of_nat (length fs)))
             ([], Yacc, ixs, sum_T, dat)
      = Done ([], Yacc ++ YMs.*1, ixs ++ (Index2 <$> YMs.*2), sum_T', dat').
Proof.
  induction YMs as [|[Y M] YMs IH]; intros fs prefix Yacc ixs sum_T dat Hfiles.
  { apply Forall2_nil_inv_r in Hfiles as ->. exists sum_T, dat. simpl.
    by rewrite !app_nil_r. }
  apply Forall2_cons_inv_r in Hfiles as (f & fs' & Hf & Hfiles & ->).
  simpl in Hf.
  rewrite seqZ_cons by (simpl; lia). cbn [foldlO].
  assert (load_step loadmat np_load (prefix ++ f :: fs') false
            ([], Yacc, ixs, sum_T, dat) (Z.of_nat (length prefix))
          = Done ([], Yacc ++ [Y], ixs ++ [Index2 M],
                  sum_T + Z.of_nat (nrows Y), Some (indexed_file Y M))) as ->.
  { unfold load_step. rewrite py_get_middle. cbn [lift mbind outcome_bind].
    rewrite Hf. reflexivity. }
  cbn [mbind outcome_bind].
  destruct (IH fs' (prefix ++ [f]) (Yacc ++ [Y]) (ixs ++ [Index2 M])
              (sum_T + Z.of_nat (nrows Y)) (Some (indexed_file Y M)) Hfiles)
    as (sum_T' & dat' & Hrest).
  rewrite <-(assoc_L (++)) in Hrest. cbn [app] in Hrest.
  rewrite length_app in Hrest. cbn [length] in Hrest.
  replace (Z.succ (Z.of_nat (length prefix)))
    with (Z.of_nat (length prefix + 1)) by lia.
  replace (Z.pred (Z.of_nat (length (f :: fs'))))
    with (Z.of_nat (length fs')) by (cbn [length]; lia).
  rewrite Hrest. exists sum_T', dat'.
  cbn [fmap list_fmap fst snd]. by rewrite <-!(assoc_L (++)).
Qed.

Lemma concatenate_indices_2d (Ms : list (matrix Z)) :
  Ms ≠ [] → Forall (λ M, ncols M = 2%nat) Ms →
  concatenate_indices (Index2 <$> Ms) = Ok (Index2 (concat Ms)).
Proof.
  intros Hne Hcols.
  assert (mapR (λ ix, match ix with
                      | Index2 M => Ok M
                      | Index1 _ => Raise ValueError
                      end) (Index2 <$> Ms) = Ok Ms) as HmapR.
  { clear. induction Ms as [|M Ms IH]; [done|].
    cbn [fmap list_fmap mapR mbind result_bind]. cbn [fmap list_fmap] in IH.
    by rewrite IH. }
  destruct Ms as [|M Ms]; [done|].
  unfold concatenate_indices.
  change (match Index2 <$> M :: Ms with
          | [] => ?a | Index1 _ :: _ => ?b | Index2 _ :: _ => ?c end) with c.
  rewrite HmapR. cbn [mbind result_bind]. unfold np_concatenate.
  rewrite decide_True; [done|].
  pose proof (Forall_inv Hcols) as HM. simpl in HM.
  eapply Forall_impl; [exact Hcols|]. intros M' HM'. simpl in *. congruence.
Qed.

(** X25. A SegmentIndex stored in a file is returned as stored: for files
    that hold [Y] and a 2-D [indices] array, [load_files] concatenates the
    arrays [Y] and concatenates the stored index arrays without adding the
    number of rows loaded before (the offset [sum_T] is added only to
    indices derived from [T] or from the length of [Y]), so the segments of
    a later file still count from that file's first row. *)
Theorem load_files_keeps_stored_indices :
  ∀ (A : Type) (loadmat np_load : string → outcome (datafile A))
    (files : list string) (YMs : list (matrix A * matrix Z)) (p : nat),
    files ≠ [] →
    Forall2 (λ f (ym : matrix A * matrix Z), ∀ prev,
               open_file loadmat np_load f prev
               = Done (Some (indexed_file ym.1 ym.2))) files YMs →
    Forall (λ ym : matrix A * matrix Z, ncols ym.1 = p ∧ ncols ym.2 = 2%nat)
           YMs →
    load_files loadmat np_load files None false
    = Done (None, Concatenated (concat YMs.*1), concat YMs.*2).
Proof.
  intros A loadmat np_load files YMs p Hne Hfiles Hcols.
  pose proof (Forall2_length _ _ _ Hfiles) as Hlen.
  destruct (load_loop_indexed_files loadmat np_load YMs files [] [] [] 0 None
              Hfiles) as (sum_T' & dat' & Hloop).
  unfold load_files, resolve_I, arange.
  rewrite Z.sub_0_r. simpl in Hloop. change (Z.of_nat 0) with 0 in Hloop.
  rewrite Hloop. cbn [mbind outcome_bind].
  assert (YMs ≠ []) as HYMs.
  { intros ->. destruct files; [done|]. simpl in Hlen. lia. }
  assert (np_concatenate YMs.*1 = Ok (concat YMs.*1)) as ->.
  { unfold np_concatenate. destruct YMs as [|[Y M] YMs]; [done|].
    cbn [fmap list_fmap fst]. rewrite decide_True; [done|].
    change (Y :: YMs.*1) with (((Y, M) :: YMs).*1).
    apply Forall_fmap. eapply Forall_impl; [exact Hcols|].
    intros [Y' M'] [HY' _]. pose proof (Forall_inv Hcols) as [HY _].
    simpl in *. congruence. }
  cbn [mbind result_bind lift outcome_bind].
  rewrite concatenate_indices_2d; [done|..].
  - by destruct YMs.
  - apply Forall_fmap. eapply Forall_impl; [exact Hcols|]. by intros ym [_ ?].
Qed.

(** The file [c.npz] twice: four rows of Y, and twice the segment [0, 2). *)
Lemma load_files_keeps_stored_indices_witness :
  load_files example_mat example_npz ["c.npz"; "c.npz"] None false
  = Done (None, Concatenated [[6]; [7]; [6]; [7]]%Q, [[0; 2]; [0; 2]]).
Proof.
  apply (load_files_keeps_stored_indices Q example_mat example_npz
           ["c.npz"; "c.npz"]
           [([[6]; [7]]%Q, [[0; 2]]); ([[6]; [7]]%Q, [[0; 2]])] 1%nat).
  - discriminate.
  - repeat constructor.
  - repeat constructor.
Defined.

(** ** The sign convention of apply_pca and apply_ica *)

Lemma column_Ok_lookup {B} (X : matrix B) (j : nat) (col : list B) :
  column X j = Ok col →
  length col = length X ∧
  ∀ r row, X !! r = Some row →
    ∃ x, row !! j = Some x ∧ col !! r = Some x.
Proof.
  unfold column. revert col.
  induction X as [|row0 X IH]; intros col Hcol; simpl in Hcol.
  { injection Hcol as <-. split; [done|]. intros r row Hr. done. }
  apply bind_Ok in Hcol as (x0 & Hx0 & Hcol).
  apply bind_Ok in Hcol as (col' & Hcol' & Hcol). injection Hcol as <-.
  destruct (IH col' Hcol') as [Hlen Hrows].
  split; [simpl; by rewrite Hlen|].
  intros [|r] row Hr; simpl in Hr.
  - injection Hr as <-. exists x0. split; [|done].
    by destruct (row0 !! j); simplify_eq.
  - by apply Hrows.
Qed.

Lemma cell_set_column_eq {B} (X : matrix B) (j r : nat) (col : list B)
    (f : B → B) :
  column X j = Ok col →
  cell (set_column X j (f <$> col)) r j = f <$> cell X r j.
Proof.
  intros Hcol. destruct (column_Ok_lookup X j col Hcol) as [Hlen Hrows].
  unfold cell, set_column. rewrite lookup_zip_with.
  destruct (X !! r) as [row|] eqn:Hrow; simpl; [|done].
  destruct (Hrows r row Hrow) as (x & Hx & Hr).
  rewrite list_lookup_fmap, Hr. simpl.
  rewrite list_lookup_insert_eq by (by eapply lookup_lt_Some).
  by rewrite Hx.
Qed.

Lemma set_column_is_matrix {B} n p (X : matrix B) (j : nat) (col : list B) :
  length col = length X → is_matrix n p X → is_matrix n p (set_column X j col).
Proof.
  intros Hlen [Hn Hp]. unfold set_column. split.
  - rewrite length_zip_with. lia.
  - apply Forall_forall. intros row' Hrow'.
    apply elem_of_lookup_zip_with in Hrow' as (i & row & x & -> & Hrow & _).
    rewrite length_insert. by eapply (Forall_lookup_1 _ _ _ _ Hp).
Qed.

Lemma sign_convention_column_frame {A} `{Scalar A} n p (X X' : matrix A)
    (j : nat) :
  is_matrix n p X →
  sign_convention_column X j = Ok X' →
  is_matrix n p X' ∧
  (∀ c r, c ≠ j → cell X' r c = cell X r c) ∧
  ((∀ r, cell X' r j = cell X r j) ∨
   (∀ r, cell X' r j = (λ x, s_mul x (s_of_Z (-1))) <$> cell X r j)).
Proof.
  intros HX Hrun. unfold sign_convention_column in Hrun.
  apply bind_Ok in Hrun as (col & Hcol & Hrun).
  apply bind_Ok in Hrun as (mx & _ & Hrun).
  apply bind_Ok in Hrun as (jj & _ & Hrun).
  apply bind_Ok in Hrun as (x & _ & Hrun).
  destruct (s_ltb x s_zero); injection Hrun as <-; [|by auto].
  destruct (column_Ok_lookup X j col Hcol) as [Hlen _].
  split_and!.
  - apply set_column_is_matrix; [by rewrite length_fmap|done].
  - intros c r Hc. apply cell_set_column_ne; [by rewrite length_fmap|done].
  - right. intros r. by apply cell_set_column_eq.
Qed.

(** X26. The sign-convention loop of [apply_pca] and [apply_ica] only
    changes signs of whole columns: whenever it returns, the array has the
    shape it had, and every column is the column it was or, for a column
    the loop visits, that column multiplied by -1. *)
Theorem sign_convention_flips_whole_columns :
  ∀ (A : Type) (SA : Scalar A) (n p : nat) (js : list nat) (X X' : matrix A),
    NoDup js → is_matrix n p X →
    sign_convention X js = Ok X' →
    is_matrix n p X' ∧
    ∀ c, (∀ r, cell X' r c = cell X r c) ∨
         (c ∈ js ∧
          ∀ r, cell X' r c = (λ x, s_mul x (s_of_Z (-1))) <$> cell X r c).
Proof.
  intros A SA n p js. unfold sign_convention.
  induction js as [|j js IH]; intros X X' Hnd HX Hrun; simpl in Hrun.
  { injection Hrun as <-. split; [done|]. by left. }
  apply NoDup_cons in Hnd as [Hj Hnd].
  apply bind_Ok in Hrun as (X1 & Hstep & Hrun).
  destruct (sign_convention_column_frame n p X X1 j HX Hstep)
    as (HX1 & Hother & Hcol).
  destruct (IH X1 X' Hnd HX1 Hrun) as [HX' Hrest].
  split; [done|]. intros c.
  destruct (decide (c = j)) as [->|Hne].
  - assert (∀ r, cell X' r j = cell X1 r j) as Hkeep.
    { by destruct (Hrest j) as [Hsame|[Hin _]]. }
    destruct Hcol as [Hsame|Hflip].
    + left. intros r. by rewrite Hkeep.
    + right. split; [by left|]. intros r. by rewrite Hkeep.
  - destruct (Hrest c) as [Hsame|[Hin Hflip]].
    + left. intros r. rewrite Hsame. by apply Hother.
    + right. split; [by right|]. intros r. rewrite Hflip.
      by rewrite Hother.
Qed.

(** A column of negative scores is flipped. *)
Lemma sign_convention_flips_whole_columns_witness :
  NoDup [0%nat] ∧ is_matrix 3 1 [[-3]; [-5]; [-2]]%Q ∧
  sign_convention [[-3]; [-5]; [-2]]%Q [0%nat] = Ok [[3]; [5]; [2]]%Q ∧
  is_matrix 3 1 [[3]; [5]; [2]]%Q.
Proof.
  assert (NoDup [0%nat]) as Hnd by (apply NoDup_singleton).
  assert (is_matrix 3 1 [[-3]; [-5]; [-2]]%Q) as HX
    by (apply (bool_decide_unpack _); vm_compute; exact I).
  assert (sign_convention [[-3]; [-5]; [-2]]%Q [0%nat] = Ok [[3]; [5]; [2]]%Q)
    as Hrun by (vm_compute; reflexivity).
  split; [exact Hnd|]. split; [exact HX|]. split; [exact Hrun|].
  exact (proj1 (sign_convention_flips_whole_columns Q Q_scalar 3 1 [0%nat]
                  [[-3]; [-5]; [-2]]%Q [[3]; [5]; [2]]%Q Hnd HX Hrun)).
Defined.
